(** * foilsigh: the Markdown slide compiler and the image store

    A shallow embedding of [src/components/RevealPreview.tsx]
    ([markdownToSlides], [escapeHtml], the [resolveImages] effect), of
    [src/lib/imageStore.ts] ([storeImage], [getImage], [deleteImage],
    [cleanupUnusedImages], [getStorageSize], [exportWithInlinedImages]) and
    of the parts of the editor around them: the slide under the cursor of
    [src/App.tsx], the tags and blocks that the import and diagram dialogs
    insert and the image widget of the editor.

    JavaScript strings are modelled as [string] over 8-bit characters (the
    code units 0..255); the regular expressions of the source are written as
    syntax trees and run by a backtracking matcher that follows the
    ECMAScript pattern semantics. *)

From Stdlib Require Import ZArith NArith Lia List Ascii String Bool.
From stdpp Require Import base strings list gmap.

(** ** Characters *)

Definition LF : ascii := "010"%char.
Definition DQ : ascii := "034"%char.

(** [lit s] reads a literal the way the source writes it: the two characters
    backslash-n are a line feed, an apostrophe stands for the double quote
    character, and backslash-apostrophe is an apostrophe. *)
Fixpoint lit (s : string) : string :=
  match s with
  | "" => ""
  | String "\" (String "n" s') => String LF (lit s')
  | String "\" (String "'" s') => String "'" (lit s')
  | String "'" s' => String DQ (lit s')
  | String c s' => String c (lit s')
  end.

Definition code (c : ascii) : N := N_of_ascii c.

Definition between (lo hi : N) (c : ascii) : bool :=
  ((lo <=? code c) && (code c <=? hi))%N.

(** ECMAScript LineTerminator and WhiteSpace, restricted to 8-bit characters. *)
Definition isLineTerminator (c : ascii) : bool :=
  ((code c =? 10) || (code c =? 13))%N.

Definition isWhiteSpace (c : ascii) : bool :=
  (between 9 13 c || (code c =? 32) || (code c =? 160))%N.

(** [\w] *)
Definition isWordChar (c : ascii) : bool :=
  (between 48 57 c || between 65 90 c || between 97 122 c || (code c =? 95))%N.

(** ** Strings *)

Fixpoint take_str (n : nat) (s : string) : string :=
  match n, s with
  | S n', String c s' => String c (take_str n' s')
  | _, _ => ""
  end.

Fixpoint drop_str (n : nat) (s : string) : string :=
  match n, s with
  | S n', String _ s' => drop_str n' s'
  | _, _ => s
  end.

(** [s.startsWith(p)] *)
Fixpoint startsWith (p s : string) : bool :=
  match p, s with
  | "", _ => true
  | String a p', String b s' => (a =? b)%char && startsWith p' s'
  | _, "" => false
  end.

(** [s.includes(p)] *)
Fixpoint includes (p s : string) : bool :=
  startsWith p s ||
  match s with
  | "" => false
  | String _ s' => includes p s'
  end.

(** [arr.join(sep)] *)
Fixpoint join (sep : string) (l : list string) : string :=
  match l with
  | [] => ""
  | [x] => x
  | x :: l' => x +:+ sep +:+ join sep l'
  end.

(** [s.split(sep)] for a non-empty string separator: [cur] is the segment
    being read, [skip] the number of separator characters still to drop. *)
Fixpoint split_str_go (sep : string) (s : string) (skip : nat) (cur : string)
  : list string :=
  match skip, s with
  | _, "" => [cur]
  | S k, String _ s' => split_str_go sep s' k cur
  | 0, String c s' =>
      if startsWith sep s
      then cur :: split_str_go sep s' (String.length sep - 1) ""
      else split_str_go sep s' 0 (cur +:+ String c "")
  end.

Definition split_str (sep s : string) : list string := split_str_go sep s 0 "".

Definition trimStart_go := fix go (s : string) : string :=
  match s with
  | String c s' => if isWhiteSpace c then go s' else s
  | "" => ""
  end.

Fixpoint trimEnd_go (s : string) : string :=
  match s with
  | "" => ""
  | String c s' =>
      match trimEnd_go s' with
      | "" => if isWhiteSpace c then "" else String c ""
      | t => String c t
      end
  end.

(** [s.trim()] *)
Definition trim (s : string) : string := trimEnd_go (trimStart_go s).

(** ** Regular expressions *)

Module Regex.

(** Members of a character class. *)
Inductive citem : Type :=
  | One (c : ascii)
  | Range (lo hi : ascii)
  | Word        (* \w *)
  | Space       (* \s *)
  | NonSpace.   (* \S *)

Definition citem_has (i : citem) (c : ascii) : bool :=
  match i with
  | One a => (a =? c)%char
  | Range lo hi => between (code lo) (code hi) c
  | Word => isWordChar c
  | Space => isWhiteSpace c
  | NonSpace => negb (isWhiteSpace c)
  end.

Definition class_has (cs : list citem) (c : ascii) : bool :=
  existsb (fun i => citem_has i c) cs.

Inductive regex : Type :=
  | Str (s : string)                       (* literal characters *)
  | Any                                    (* .      *)
  | Cls (cs : list citem)                  (* [...]  *)
  | NCls (cs : list citem)                 (* [^...] *)
  | Bol                                    (* ^      *)
  | Eol                                    (* $      *)
  | Seq (r1 r2 : regex)
  | Alt (r1 r2 : regex)                    (* r1|r2  *)
  | Group (n : nat) (r : regex)            (* the n-th capturing group *)
  | Rep (r : regex) (min : nat) (max : option nat) (greedy : bool)
  | NLook (r : regex).                     (* (?!r)  *)

Infix "+>" := Seq (at level 59, right associativity).

Definition Star r := Rep r 0 None true.          (* r*   *)
Definition Plus r := Rep r 1 None true.          (* r+   *)
Definition Opt r := Rep r 0 (Some 1) true.       (* r?   *)
Definition StarLazy r := Rep r 0 None false.     (* r*?  *)
Definition PlusLazy r := Rep r 1 None false.     (* r+?  *)
Definition Times n r := Rep r n (Some n) true.   (* r{n} *)

(** Captures: the text of each group that took part in the match; a group
    with no entry is [undefined]. *)
Definition captures := list (nat * string).

Fixpoint cap (n : nat) (cs : captures) : option string :=
  match cs with
  | [] => None
  | (m, s) :: cs' => if (m =? n)%nat then Some s else cap n cs'
  end.

Fixpoint groups (r : regex) : list nat :=
  match r with
  | Seq a b | Alt a b => groups a ++ groups b
  | Group n a => n :: groups a
  | Rep a _ _ _ | NLook a => groups a
  | _ => []
  end.

Definition clear (ns : list nat) (cs : captures) : captures :=
  List.filter (fun e => negb (existsb (Nat.eqb (fst e)) ns)) cs.

(** The matcher state: [ms_pos] characters consumed so far, [ms_prev] the
    character before the current position ([None] at the start of the
    input), [ms_rest] the input from the current position on. *)
Record mstate : Type := MState {
  ms_pos : nat;
  ms_prev : option ascii;
  ms_rest : string;
  ms_caps : captures
}.

Definition advance (c : ascii) (rest : string) (st : mstate) : mstate :=
  MState (S (ms_pos st)) (Some c) rest (ms_caps st).

Fixpoint eat (s : string) (st : mstate) : option mstate :=
  match s with
  | "" => Some st
  | String a s' =>
      match ms_rest st with
      | String c rest => if (a =? c)%char then eat s' (advance c rest st) else None
      | "" => None
      end
  end.

Definition one (p : ascii -> bool) (k : mstate -> option mstate) (st : mstate)
  : option mstate :=
  match ms_rest st with
  | String c rest => if p c then k (advance c rest st) else None
  | "" => None
  end.

Definition at_bol (multiline : bool) (st : mstate) : bool :=
  match ms_prev st with
  | None => true
  | Some c => multiline && isLineTerminator c
  end.

Definition at_eol (multiline : bool) (st : mstate) : bool :=
  match ms_rest st with
  | "" => true
  | String c _ => multiline && isLineTerminator c
  end.

(** Ordered choice: the second alternative is tried only when the first
    fails. *)
Notation "x <|> y" := (match x with Some z => Some z | None => y end)
  (at level 70, only parsing).

(** RepeatMatcher of the ECMAScript specification for a body matcher [m1]
    whose capturing groups are [gs]: the captures of the body are reset at
    each iteration, and an iteration past the minimum that consumes nothing
    is rejected. Every call either lowers [min] or starts further in the
    input, so [min + length rest + 1] steps always suffice (this is
    [rmatch_Rep_fuel] below). *)
Fixpoint rep_loop (m1 : (mstate -> option mstate) -> mstate -> option mstate)
    (gs : list nat) (greedy : bool) (k : mstate -> option mstate)
    (fuel min : nat) (max : option nat) (st : mstate) {struct fuel}
    : option mstate :=
  match fuel with
  | 0 => None
  | S fuel' =>
      match max with
      | Some 0 => k st
      | _ =>
          let d := fun st' =>
            if (min =? 0)%nat && (ms_pos st' =? ms_pos st)%nat then None
            else rep_loop m1 gs greedy k fuel' (pred min) (option_map pred max) st' in
          let xr := MState (ms_pos st) (ms_prev st) (ms_rest st)
                      (clear gs (ms_caps st)) in
          if negb (min =? 0)%nat then m1 d xr
          else if greedy then m1 d xr <|> k st
          else k st <|> m1 d xr
      end
  end.

(** The backtracking matcher, in continuation-passing style as in the
    ECMAScript specification: [rmatch m r k st] matches [r] at [st] and
    hands the candidate end states to [k] in priority order, until [k]
    accepts one. *)
Fixpoint rmatch (multiline : bool) (r : regex)
    (k : mstate -> option mstate) (st : mstate) {struct r} : option mstate :=
  match r with
  | Str s => match eat s st with Some st' => k st' | None => None end
  | Any => one (fun c => negb (isLineTerminator c)) k st
  | Cls cs => one (class_has cs) k st
  | NCls cs => one (fun c => negb (class_has cs c)) k st
  | Bol => if at_bol multiline st then k st else None
  | Eol => if at_eol multiline st then k st else None
  | Seq r1 r2 => rmatch multiline r1 (rmatch multiline r2 k) st
  | Alt r1 r2 => rmatch multiline r1 k st <|> rmatch multiline r2 k st
  | Group n r1 =>
      rmatch multiline r1
        (fun st' =>
           k (MState (ms_pos st') (ms_prev st') (ms_rest st')
                ((n, take_str (ms_pos st' - ms_pos st) (ms_rest st)) :: ms_caps st')))
        st
  | NLook r1 =>
      match rmatch multiline r1 Some st with
      | Some _ => None
      | None => k st
      end
  | Rep r1 min max greedy =>
      rep_loop (rmatch multiline r1) (groups r1) greedy k
        (min + String.length (ms_rest st) + 1) min max st
  end.

(** A match attempt at one position: the length of the match and its
    captures. *)
Definition exec_at (multiline : bool) (r : regex) (prev : option ascii)
    (rest : string) : option (nat * captures) :=
  match rmatch multiline r Some (MState 0 prev rest []) with
  | Some st => Some (ms_pos st, ms_caps st)
  | None => None
  end.

(** *** The string methods that take a regular expression *)

Section Drivers.
Variable multiline : bool.
Variable r : regex.

(** What a replacement is computed from: the matched text, the captures,
    the position of the match and the whole input. *)
Definition replacer : Type := string -> captures -> nat -> string -> string.

(** [str.replace(/r/g, f)]: matches are looked for from left to right,
    each attempt starting where the previous match ended (one further
    when that match was empty). [rest] is the input from position [pos]
    on, [skip] the number of characters of the last match still to pass. *)
Fixpoint replace_go (f : replacer) (str rest : string) (skip pos : nat)
    (prev : option ascii) {struct rest} : string :=
  match skip, rest with
  | S k, String c rest' => replace_go f str rest' k (S pos) (Some c)
  | S k, "" => ""
  | 0, _ =>
      match exec_at multiline r prev rest with
      | Some (n, caps) =>
          f (take_str n rest) caps pos str +:+
          match rest with
          | "" => ""
          | String c rest' =>
              match n with
              | 0 => String c (replace_go f str rest' 0 (S pos) (Some c))
              | S n' => replace_go f str rest' n' (S pos) (Some c)
              end
          end
      | None =>
          match rest with
          | "" => ""
          | String c rest' => String c (replace_go f str rest' 0 (S pos) (Some c))
          end
      end
  end.

Definition replace_with (f : replacer) (str : string) : string :=
  replace_go f str str 0 0 None.

(** [str.match(/r/g)] and [str.matchAll(/r/g)]: every match, in order,
    with its captures. *)
Fixpoint matchAll_go (rest : string) (skip : nat) (prev : option ascii)
    {struct rest} : list (string * captures) :=
  match skip, rest with
  | S k, String c rest' => matchAll_go rest' k (Some c)
  | S k, "" => []
  | 0, _ =>
      match exec_at multiline r prev rest with
      | Some (n, caps) =>
          (take_str n rest, caps) ::
          match rest with
          | "" => []
          | String c rest' => matchAll_go rest' (pred n) (Some c)
          end
      | None =>
          match rest with
          | "" => []
          | String c rest' => matchAll_go rest' 0 (Some c)
          end
      end
  end.

Definition matchAll (str : string) : list (string * captures) :=
  matchAll_go str 0 None.

(** [str.match(/r/)] without the g flag: the first match, or [None] for
    [null]. *)
Fixpoint match_go (rest : string) (prev : option ascii) {struct rest}
    : option (string * captures) :=
  match exec_at multiline r prev rest with
  | Some (n, caps) => Some (take_str n rest, caps)
  | None =>
      match rest with
      | "" => None
      | String c rest' => match_go rest' (Some c)
      end
  end.

Definition match_first (str : string) : option (string * captures) :=
  match_go str None.

(** [str.split(/r/)] for a pattern without capturing groups. [cur] is the
    segment read since the last split point [p]; [fresh] tells that the
    current position is [p] itself, where an empty match does not split. *)
Fixpoint split_go (rest : string) (skip : nat) (cur : string) (fresh : bool)
    (prev : option ascii) {struct rest} : list string :=
  match skip, rest with
  | _, "" => [cur]
  | S k, String c rest' => split_go rest' k cur fresh (Some c)
  | 0, String c rest' =>
      match exec_at multiline r prev rest with
      | Some (0, _) =>
          if fresh then split_go rest' 0 (cur +:+ String c "") false (Some c)
          else cur :: split_go rest' 0 (String c "") false (Some c)
      | Some (S n', _) => cur :: split_go rest' n' "" true (Some c)
      | None => split_go rest' 0 (cur +:+ String c "") false (Some c)
      end
  end.

Definition split (str : string) : list string :=
  match str with
  | "" => match exec_at multiline r None "" with Some _ => [] | None => [""] end
  | _ => split_go str 0 "" true None
  end.
End Drivers.

(** *** Replacement templates *)

Definition digit (c : ascii) : option nat :=
  if between 48 57 c then Some (N.to_nat (code c) - 48) else None.

Definition capture_text (n : nat) (caps : captures) : string :=
  match cap n caps with Some s => s | None => "" end.

(** GetSubstitution of the ECMAScript specification, for a pattern with [m]
    capturing groups and no named groups. *)
Fixpoint getSubstitution (matched str : string) (position : nat)
    (caps : captures) (m : nat) (template : string) : string :=
  match template with
  | "" => ""
  | String "$" t =>
      match t with
      | "" => "$"
      | String "$" t' => String "$" (getSubstitution matched str position caps m t')
      | String "`" t' =>
          take_str position str +:+ getSubstitution matched str position caps m t'
      | String "&" t' => matched +:+ getSubstitution matched str position caps m t'
      | String "'" t' =>
          drop_str (position + String.length matched) str +:+
          getSubstitution matched str position caps m t'
      | String d1 t1 =>
          match digit d1 with
          | None => String "$" (getSubstitution matched str position caps m t)
          | Some n1 =>
              let one_digit :=
                (if (1 <=? n1)%nat && (n1 <=? m)%nat then capture_text n1 caps
                 else String "$" (String d1 "")) +:+
                getSubstitution matched str position caps m t1 in
              match t1 with
              | String d2 t2 =>
                  match digit d2 with
                  | Some n2 =>
                      let index := (10 * n1 + n2)%nat in
                      if (m <? index)%nat then one_digit
                      else
                        (if (1 <=? index)%nat then capture_text index caps
                         else String "$" (String d1 (String d2 ""))) +:+
                        getSubstitution matched str position caps m t2
                  | None => one_digit
                  end
              | "" => one_digit
              end
          end
      end
  | String c t => String c (getSubstitution matched str position caps m t)
  end.

(** [str.replace(/r/g, template)] *)
Definition replace (multiline : bool) (r : regex) (template : string)
    (str : string) : string :=
  replace_with multiline r
    (fun matched caps position s =>
       getSubstitution matched s position caps (length (groups r)) template)
    str.

(** [str.replace(/r/g, (m, p1, ...) => ...)] with a callback that reads the
    match and its groups. *)
Definition replace_fn (multiline : bool) (r : regex)
    (f : string -> captures -> string) (str : string) : string :=
  replace_with multiline r (fun matched caps _ _ => f matched caps) str.

(** [str.replace(pattern, template)] with a string pattern: only the first
    occurrence is replaced, and the template is still expanded. *)
Fixpoint replace_first_go (pattern template str rest : string) (pos : nat)
    : string :=
  if startsWith pattern rest
  then getSubstitution pattern str pos [] 0 template +:+
       drop_str (String.length pattern) rest
  else match rest with
       | "" => ""
       | String c rest' => String c (replace_first_go pattern template str rest' (S pos))
       end.

Definition replace_first (pattern template str : string) : string :=
  replace_first_go pattern template str str 0.

End Regex.

(** ** The slide compiler ([src/components/RevealPreview.tsx]) *)

Module Compiler.
Import Regex.

(** [escapeHtml]: the text is stored as the text content of an element and
    read back as markup, which is the HTML serialisation of a text node. *)
Fixpoint escapeHtml (text : string) : string :=
  match text with
  | "" => ""
  | String c t =>
      (if (c =? "&")%char then "&amp;"
       else if (c =? "<")%char then "&lt;"
       else if (c =? ">")%char then "&gt;"
       else if (code c =? 160)%N then "&nbsp;"
       else String c "") +:+ escapeHtml t
  end.

(** [/\n---\n/] *)
Definition delimiter : string := lit "\n---\n".
Definition re_slide : regex := Str delimiter.

(** [/^### (.+)$/gm], [/^## (.+)$/gm], [/^# (.+)$/gm] *)
Definition re_h3 : regex := Bol +> Str "### " +> Group 1 (Plus Any) +> Eol.
Definition re_h2 : regex := Bol +> Str "## " +> Group 1 (Plus Any) +> Eol.
Definition re_h1 : regex := Bol +> Str "# " +> Group 1 (Plus Any) +> Eol.

(** [/```mermaid\n([\s\S]*?)```/g] *)
Definition re_mermaid : regex :=
  Str (lit "```mermaid\n") +> Group 1 (StarLazy (Cls [Space; NonSpace])) +> Str "```".

(** [/```(\w+)?\n([\s\S]*?)```/g] *)
Definition re_code : regex :=
  Str "```" +> Opt (Group 1 (Plus (Cls [Word]))) +> Str (lit "\n") +>
  Group 2 (StarLazy (Cls [Space; NonSpace])) +> Str "```".

(** [/`([^`]+)`/g] *)
Definition re_inline : regex :=
  Str "`" +> Group 1 (Plus (NCls [One "`"])) +> Str "`".

(** [/\*\*(.+?)\*\*/g] and [/\*(.+?)\*/g] *)
Definition re_bold : regex := Str "**" +> Group 1 (PlusLazy Any) +> Str "**".
Definition re_italic : regex := Str "*" +> Group 1 (PlusLazy Any) +> Str "*".

(** [/(?:^[ ]*- .*$\n?)+/gm]: a run of lines that start a list entry *)
Definition re_list : regex :=
  Plus (Bol +> Star (Cls [One " "]) +> Str "- " +> Star Any +> Eol +>
        Opt (Str (lit "\n"))).

(** The two patterns of the list callback (lines 60 and 95), both without
    flags: a line start, spaces, a dash and a space; and the same with the
    spaces as group 1 and the rest of the line as group 2. *)
Definition re_list_line : regex := Bol +> Star (Cls [One " "]) +> Str "- ".
Definition re_list_item : regex :=
  Bol +> Group 1 (Star (Cls [One " "])) +> Str "- " +> Group 2 (Star Any) +> Eol.

(** [/\[(.+?)\]\((.+?)\)/g] *)
Definition re_link : regex :=
  Str "[" +> Group 1 (PlusLazy Any) +> Str "](" +> Group 2 (PlusLazy Any) +> Str ")".

(** [/!\[(.+?)\]\((.+?)\)/g] *)
Definition re_image : regex :=
  Str "![" +> Group 1 (PlusLazy Any) +> Str "](" +> Group 2 (PlusLazy Any) +> Str ")".

(** The pattern of line 112: an img tag, not followed (before its closing
    bracket) by a class attribute whose value holds the word fragment; group
    1 is the rest of the tag. *)
Definition re_img_tag : regex :=
  Str "<img" +>
  NLook (Star (NCls [One ">"]) +> Str (lit "class='") +> Star (NCls [One DQ]) +>
         Str "fragment") +>
  Group 1 (Star (NCls [One ">"])) +> Str ">".

(** [/^(?!<[hupoli]|$)(.+)$/gm] *)
Definition re_paragraph : regex :=
  Bol +>
  NLook (Alt (Str "<" +> Cls [One "h"; One "u"; One "p"; One "o"; One "l"; One "i"])
             Eol) +>
  Group 1 (Plus Any) +> Eol.

(** One line of a list block. *)
Record item : Type := Item { indent : nat; text : string }.

Fixpoint takeWhile {A} (p : A -> bool) (l : list A) : list A :=
  match l with
  | x :: l' => if p x then x :: takeWhile p l' else []
  | [] => []
  end.

Fixpoint dropWhile {A} (p : A -> bool) (l : list A) : list A :=
  match l with
  | x :: l' => if p x then dropWhile p l' else l
  | [] => []
  end.

(** [parseList(items, depth)]. [parseList_fuel] is the function and
    [parseList_while] its [while] loop from index [i] on, [items] being the
    items from [i]: at a sibling, [j] runs over the deeper items that
    follow, which are parsed one level down, and the loop goes on at [j];
    any other item is passed over by [i++]. Both calls are on fewer items,
    so [2 * length items + 2] steps suffice (see [parseList_fuel_enough]). *)
Fixpoint parseList_fuel (fuel : nat) (items : list item) (depth : nat)
    {struct fuel} : string :=
  match fuel with
  | 0 => ""
  | S fuel' => lit "<ul>\n" +:+ parseList_while fuel' items depth +:+ "</ul>"
  end
with parseList_while (fuel : nat) (items : list item) (depth : nat)
    {struct fuel} : string :=
  match fuel with
  | 0 => ""
  | S fuel' =>
      match items with
      | [] => ""
      | it :: rest =>
          let expectedIndent := depth * 2 in
          if (indent it =? expectedIndent)%nat then
            let deeper := fun x : item => (expectedIndent <? indent x)%nat in
            let nestedItems := takeWhile deeper rest in
            (if (0 <? length nestedItems)%nat
             then lit "<li class='fragment'>" +:+ text it +:+ lit "\n" +:+
                  parseList_fuel fuel' nestedItems (depth + 1) +:+ lit "</li>\n"
             else lit "<li class='fragment'>" +:+ text it +:+ lit "</li>\n") +:+
            parseList_while fuel' (dropWhile deeper rest) depth
          else parseList_while fuel' rest depth
      end
  end.

Definition parseList (items : list item) (depth : nat) : string :=
  parseList_fuel (2 * length items + 2) items depth.

(** The callback of the list pass: the lines of the block that start a list
    entry, each read as an indentation and a text. *)
Definition list_items (listBlock : string) : list item :=
  let lines :=
    List.filter
      (fun line => match match_first false re_list_line line with
                   | Some _ => true
                   | None => false
                   end)
      (split_str (lit "\n") listBlock) in
  map (fun line =>
         match match_first false re_list_item line with
         | Some (_, caps) =>
             Item (String.length (capture_text 1 caps)) (capture_text 2 caps)
         | None => Item 0 ""
         end) lines.

Definition convert_list (listBlock : string) : string :=
  parseList (list_items listBlock) 0.

Definition convert_mermaid (caps : captures) : string :=
  lit "<div class='mermaid fragment'>" +:+ trim (capture_text 1 caps) +:+ "</div>".

Definition convert_code (caps : captures) : string :=
  let langClass :=
    match cap 1 caps with
    | Some (String c l) => lit " class='language-" +:+ String c l +:+ lit "'"
    | _ => ""
    end in
  "<pre><code" +:+ langClass +:+ ">" +:+ escapeHtml (trim (capture_text 2 caps)) +:+
  "</code></pre>".

(** The passes of one slide, named after the comments of the source. *)
Definition headers (html : string) : string :=
  replace true re_h1 "<h1>$1</h1>"
    (replace true re_h2 "<h2>$1</h2>"
       (replace true re_h3 "<h3>$1</h3>" html)).

Definition mermaidDiagrams : string -> string :=
  replace_fn false re_mermaid (fun _ caps => convert_mermaid caps).

Definition codeBlocks : string -> string :=
  replace_fn false re_code (fun _ caps => convert_code caps).

Definition inlineCode : string -> string :=
  replace false re_inline "<code>$1</code>".

Definition bold : string -> string :=
  replace false re_bold "<strong>$1</strong>".

Definition italic : string -> string :=
  replace false re_italic "<em>$1</em>".

Definition unorderedLists : string -> string :=
  replace_fn true re_list (fun listBlock _ => convert_list listBlock).

Definition links : string -> string :=
  replace false re_link (lit "<a href='$2'>$1</a>").

Definition images : string -> string :=
  replace false re_image (lit "<img class='fragment' src='$2' alt='$1' />").

Definition imgTags : string -> string :=
  replace false re_img_tag (lit "<img class='fragment'$1>").

Definition paragraphs : string -> string :=
  replace true re_paragraph "<p>$1</p>".

(** The passes in the order of the source. *)
Definition transforms (html : string) : string :=
  let html := headers html in
  let html := mermaidDiagrams html in
  let html := codeBlocks html in
  let html := inlineCode html in
  let html := bold html in
  let html := italic html in
  let html := unorderedLists html in
  let html := links html in
  let html := images html in
  let html := imgTags html in
  let html := paragraphs html in
  html.

(** The body of the [map] callback. *)
Definition slideHtml (slideContent : string) : string :=
  let html := trim slideContent in
  let html := transforms html in
  "<section>" +:+ html +:+ "</section>".

(** The slides of a document: one [<section>] per segment. *)
Definition slides (markdown : string) : list string :=
  map slideHtml (split false re_slide markdown).

Definition markdownToSlides (markdown : string) : string :=
  join (lit "\n") (slides markdown).

End Compiler.

(** ** The platform primitives of the image store *)

(** [crypto.subtle.digest('SHA-256', buffer)], after FIPS 180-4, on 32-bit
    words held in [N]. *)
Module Sha256.
Local Open Scope N_scope.

Definition w32 (x : N) : N := x mod 2 ^ 32.
Definition rotr (n x : N) : N := N.lor (N.shiftr x n) (w32 (N.shiftl x (32 - n))).
Definition ch (x y z : N) : N :=
  N.lxor (N.land x y) (N.land (N.lxor x (2 ^ 32 - 1)) z).
Definition maj (x y z : N) : N :=
  N.lxor (N.lxor (N.land x y) (N.land x z)) (N.land y z).
Definition bsig0 (x : N) : N := N.lxor (N.lxor (rotr 2 x) (rotr 13 x)) (rotr 22 x).
Definition bsig1 (x : N) : N := N.lxor (N.lxor (rotr 6 x) (rotr 11 x)) (rotr 25 x).
Definition ssig0 (x : N) : N := N.lxor (N.lxor (rotr 7 x) (rotr 18 x)) (N.shiftr x 3).
Definition ssig1 (x : N) : N := N.lxor (N.lxor (rotr 17 x) (rotr 19 x)) (N.shiftr x 10).

(** The constants are the first 32 fractional bits of the square roots of
    the first 8 primes and of the cube roots of the first 64. *)
Definition primes : list N :=
  [2; 3; 5; 7; 11; 13; 17; 19; 23; 29; 31; 37; 41; 43; 47; 53; 59; 61; 67; 71;
   73; 79; 83; 89; 97; 101; 103; 107; 109; 113; 127; 131; 137; 139; 149; 151;
   157; 163; 167; 173; 179; 181; 191; 193; 197; 199; 211; 223; 227; 229; 233;
   239; 241; 251; 257; 263; 269; 271; 277; 281; 283; 293; 307; 311].

(** The largest [r] below [2 ^ bits] with [r ^ e <= n], bit by bit. *)
Fixpoint iroot (bits : nat) (e n r : N) : N :=
  match bits with
  | O => r
  | S b =>
      let r' := r + 2 ^ N.of_nat b in
      iroot b e n (if r' ^ e <=? n then r' else r)
  end.

Definition frac32 (e p : N) : N := w32 (iroot 40 e (p * 2 ^ (32 * e)) 0).

Definition H0 : list N := Eval vm_compute in map (frac32 2) (firstn 8 primes).
Definition K : list N := Eval vm_compute in map (frac32 3) primes.

(** Padding: a one bit, zeros up to 56 modulo 64 bytes, the bit length on
    64 bits. *)
Fixpoint be_bytes (n : nat) (x : N) : list N :=
  match n with
  | O => []
  | S n' => (x / 256 ^ N.of_nat n') mod 256 :: be_bytes n' x
  end.

Definition pad (msg : list N) : list N :=
  let len := length msg in
  msg ++ [128] ++ repeat 0 ((64 - (len + 9) mod 64) mod 64)%nat ++
  be_bytes 8 (8 * N.of_nat len).

Fixpoint words (bs : list N) : list N :=
  match bs with
  | a :: b :: c :: d :: bs' => ((a * 256 + b) * 256 + c) * 256 + d :: words bs'
  | _ => []
  end.

Fixpoint blocks (fuel : nat) (ws : list N) : list (list N) :=
  match fuel, ws with
  | S f, _ :: _ => firstn 16 ws :: blocks f (skipn 16 ws)
  | _, _ => []
  end.

(** The message schedule, most recent word first. *)
Fixpoint extend (n : nat) (ws : list N) : list N :=
  match n with
  | O => ws
  | S n' =>
      extend n'
        (w32 (ssig1 (nth 1 ws 0) + nth 6 ws 0 + ssig0 (nth 14 ws 0) + nth 15 ws 0)
         :: ws)
  end.

Definition schedule (block : list N) : list N := rev (extend 48 (rev block)).

Definition round (s : list N) (kw : N * N) : list N :=
  match s with
  | [a; b; c; d; e; f; g; h] =>
      let t1 := h + bsig1 e + ch e f g + fst kw + snd kw in
      let t2 := bsig0 a + maj a b c in
      [w32 (t1 + t2); a; b; c; w32 (d + t1); e; f; g]
  | _ => s
  end.

Definition compress (h : list N) (block : list N) : list N :=
  map (fun xy => w32 (fst xy + snd xy))
      (combine h (fold_left round (combine K (schedule block)) h)).

Definition digest (msg : list N) : list N :=
  let ws := words (pad msg) in
  flat_map (be_bytes 4) (fold_left compress (blocks (length ws) ws) H0).

End Sha256.

(** [b.toString(16).padStart(2, '0')] for a byte, and the join over the
    digest. *)
Definition hexDigit (n : N) : ascii :=
  match String.get (N.to_nat n) "0123456789abcdef" with
  | Some c => c
  | None => "0"%char
  end.

Definition hex (bs : list N) : string :=
  fold_right (fun b s => String (hexDigit (b / 16)) (String (hexDigit (b mod 16)) s))
             "" bs.

(** Base64 as [FileReader.readAsDataURL] writes it. *)
Definition b64Digit (n : N) : ascii :=
  match String.get (N.to_nat n)
          "ABCDEFGHIJKLMNOPQRSTUVWXYZabcdefghijklmnopqrstuvwxyz0123456789+/" with
  | Some c => c
  | None => "="%char
  end.

Fixpoint base64 (bs : list N) : string :=
  match bs with
  | a :: b :: c :: bs' =>
      String (b64Digit (a / 4))
        (String (b64Digit ((a mod 4) * 16 + b / 16))
           (String (b64Digit ((b mod 16) * 4 + c / 64))
              (String (b64Digit (c mod 64)) (base64 bs'))))
  | [a; b] =>
      String (b64Digit (a / 4))
        (String (b64Digit ((a mod 4) * 16 + b / 16))
           (String (b64Digit ((b mod 16) * 4)) "="))
  | [a] => String (b64Digit (a / 4)) (String (b64Digit ((a mod 4) * 16)) "==")
  | [] => ""
  end%N.

(** ** The image store ([src/lib/imageStore.ts])

    The object store of the IndexedDB database is a finite map from the key
    path [id] to the stored record. Each exported function is asynchronous;
    it is modelled on the path where every request succeeds, as a function
    from the store before to its result and the store after. *)

Module ImageStore.
Import Regex.

Record Blob : Type := mkBlob {
  blob_bytes : list Byte.byte;
  blob_type : string
}.

Definition blob_size (b : Blob) : nat := length (blob_bytes b).

Record StoredImage : Type := mkStoredImage {
  img_id : string;
  img_blob : Blob;
  img_mimeType : string;
  img_createdAt : N
}.

Abbreviation database := (gmap string StoredImage).

Definition Async (A : Type) : Type := database -> A * database.

#[export] Instance async_ret : MRet Async := fun A (a : A) db => (a, db).
#[export] Instance async_bind : MBind Async :=
  fun A B (f : A -> Async B) (m : Async A) db => let (a, db') := m db in f a db'.

(** The requests on the object store. *)
Definition idb_put (image : StoredImage) : Async unit :=
  fun db => (tt, <[img_id image := image]> db).
Definition idb_get (id : string) : Async (option StoredImage) :=
  fun db => (db !! id, db).
Definition idb_delete (id : string) : Async unit :=
  fun db => (tt, delete id db).
Definition idb_getAllKeys : Async (list string) :=
  fun db => ((map_to_list db).*1, db).
Definition idb_getAll : Async (list StoredImage) :=
  fun db => ((map_to_list db).*2, db).

Definition generateImageId (blob : Blob) : string :=
  let hashArray := Sha256.digest (map Byte.to_N (blob_bytes blob)) in
  let hashHex := hex hashArray in
  "img-" +:+ take_str 16 hashHex.

(** [storeImage(dataUrl)]: [blob] is the blob that fetching the data URL
    yields, [now] the value of [Date.now()]. *)
Definition storeImage (blob : Blob) (now : N) : Async string :=
  let id := generateImageId blob in
  let image := mkStoredImage id blob (blob_type blob) now in
  _ ← idb_put image;
  mret id.

(** [reader.readAsDataURL(blob)] *)
Definition readAsDataURL (blob : Blob) : string :=
  "data:" +:+
  (match blob_type blob with
   | "" => "application/octet-stream"
   | t => t
   end) +:+
  ";base64," +:+ base64 (map Byte.to_N (blob_bytes blob)).

Definition getImage (id : string) : Async (option string) :=
  image ← idb_get id;
  mret (match image with
        | None => None
        | Some image => Some (readAsDataURL (img_blob image))
        end).

Definition getAllImageIds : Async (list string) := idb_getAllKeys.

Definition deleteImage (id : string) : Async unit := idb_delete id.

(** The [for] loop of [cleanupUnusedImages]. *)
Fixpoint cleanup_loop (markdown : string) (ids : list string) (deletedCount : nat)
    : Async nat :=
  match ids with
  | [] => mret deletedCount
  | id :: ids' =>
      if negb (includes id markdown)
      then _ ← deleteImage id; cleanup_loop markdown ids' (deletedCount + 1)
      else cleanup_loop markdown ids' deletedCount
  end.

Definition cleanupUnusedImages (markdown : string) : Async nat :=
  allIds ← getAllImageIds;
  cleanup_loop markdown allIds 0.

Definition getStorageSize : Async nat :=
  images ← idb_getAll;
  mret (fold_left (fun sum img => sum + blob_size (img_blob img)) images 0).

(** The pattern of line 231: an image reference whose alternative text
    (group 1) is any run of characters other than a closing bracket and
    whose target (group 2) is img- and one or more of a-f, 0-9. *)
Definition imageRefRegex : regex :=
  Str "![" +> Group 1 (Star (NCls [One "]"])) +> Str "](" +>
  Group 2 (Str "img-" +> Plus (Cls [Range "a" "f"; Range "0" "9"])) +> Str ")".

(** The pattern of line 232: the attribute src with, in double quotes and
    as group 1, img- and one or more of a-f, 0-9. *)
Definition htmlImageRefRegex : regex :=
  Str (lit "src='") +>
  Group 1 (Str "img-" +> Plus (Cls [Range "a" "f"; Range "0" "9"])) +>
  Str (lit "'").

(** [if (dataUrl)]: neither [null] nor the empty string. *)
Definition truthy (dataUrl : option string) : option string :=
  match dataUrl with
  | Some (String c u) => Some (String c u)
  | _ => None
  end.

(** The two [for] loops of [exportWithInlinedImages]. *)
Fixpoint export_md_loop (mdMatches : list (string * captures)) (result : string)
    : Async string :=
  match mdMatches with
  | [] => mret result
  | (fullMatch, caps) :: rest =>
      let alt := capture_text 1 caps in
      let id := capture_text 2 caps in
      dataUrl ← getImage id;
      match truthy dataUrl with
      | Some dataUrl =>
          export_md_loop rest
            (replace_first fullMatch ("![" +:+ alt +:+ "](" +:+ dataUrl +:+ ")") result)
      | None => export_md_loop rest result
      end
  end.

Fixpoint export_html_loop (htmlMatches : list (string * captures)) (result : string)
    : Async string :=
  match htmlMatches with
  | [] => mret result
  | (fullMatch, caps) :: rest =>
      let id := capture_text 1 caps in
      dataUrl ← getImage id;
      match truthy dataUrl with
      | Some dataUrl =>
          export_html_loop rest
            (replace_first fullMatch (lit "src='" +:+ dataUrl +:+ lit "'") result)
      | None => export_html_loop rest result
      end
  end.

Definition exportWithInlinedImages (markdown : string) : Async string :=
  let mdMatches := matchAll false imageRefRegex markdown in
  let htmlMatches := matchAll false htmlImageRefRegex markdown in
  result ← export_md_loop mdMatches markdown;
  export_html_loop htmlMatches result.

End ImageStore.

(** ** The resolution of image references in the preview
    (the first effect of [RevealPreview]) *)

Module Preview.
Import Regex ImageStore.

(** [/img-[a-f0-9]{16}/g] *)
Definition imageIdRegex : regex :=
  Str "img-" +> Times 16 (Cls [Range "a" "f"; Range "0" "9"]).

(** [[...new Set(l)]]: the first occurrence of each string, in order. *)
Fixpoint uniq_go (seen l : list string) : list string :=
  match l with
  | [] => []
  | x :: l' =>
      if existsb (String.eqb x) seen then uniq_go seen l'
      else x :: uniq_go (x :: seen) l'
  end.

Definition imageIds (html : string) : list string :=
  uniq_go [] (map fst (matchAll false imageIdRegex html)).

(** The body of the [for] loop once [getImage] has settled. *)
Definition substitute (imageId : string) (dataUrl : option string) (html : string)
    : string :=
  match truthy dataUrl with
  | Some dataUrl => join dataUrl (split_str imageId html)
  | None => html
  end.

(** [resolveImages] when nothing else runs between its steps: the string
    handed to [setResolvedHtml]. *)
Fixpoint resolve_loop (ids : list string) (html : string) : Async string :=
  match ids with
  | [] => mret html
  | imageId :: ids' =>
      dataUrl ← getImage imageId;
      resolve_loop ids' (substitute imageId dataUrl html)
  end.

Definition resolveImages (slidesHtml : string) : Async string :=
  resolve_loop (imageIds slidesHtml) slidesHtml.

(** The component over time. A pass is one call of [resolveImages],
    suspended at [await getImage(id)] for the first of its pending ids; the
    number paired with a pass is its rank in start order, which the model
    uses to name it (the source keeps no such number). *)
Record pass : Type := mkPass {
  pass_html : string;
  pass_pending : list string
}.

Record component : Type := mkComponent {
  resolvedHtml : string;
  started : nat;
  inflight : list (nat * pass)
}.

Inductive event : Type :=
  | Render (slidesHtml : string)   (* the effect runs for a new slidesHtml *)
  | Settle (n : nat).              (* the awaited getImage of pass n settles *)

Fixpoint find_pass (n : nat) (ps : list (nat * pass)) : option pass :=
  match ps with
  | [] => None
  | (m, p) :: ps' => if (m =? n)%nat then Some p else find_pass n ps'
  end.

Definition remove_pass (n : nat) (ps : list (nat * pass)) : list (nat * pass) :=
  List.filter (fun e => negb (fst e =? n)%nat) ps.

Definition update_pass (n : nat) (p : pass) (ps : list (nat * pass))
    : list (nat * pass) :=
  map (fun e => if (fst e =? n)%nat then (n, p) else e) ps.

(** One step; the second component is the string passed to
    [setResolvedHtml] when the step ends a pass. *)
Definition step (db : database) (c : component) (e : event)
    : component * option string :=
  match e with
  | Render slidesHtml =>
      match imageIds slidesHtml with
      | [] => (mkComponent slidesHtml (S (started c)) (inflight c), Some slidesHtml)
      | ids =>
          (mkComponent (resolvedHtml c) (S (started c))
             (inflight c ++ [(started c, mkPass slidesHtml ids)]), None)
      end
  | Settle n =>
      match find_pass n (inflight c) with
      | Some (mkPass html (imageId :: ids)) =>
          let html' := substitute imageId (fst (getImage imageId db)) html in
          match ids with
          | [] => (mkComponent html' (started c) (remove_pass n (inflight c)), Some html')
          | _ =>
              (mkComponent (resolvedHtml c) (started c)
                 (update_pass n (mkPass html' ids) (inflight c)), None)
          end
      | _ => (c, None)
      end
  end.

(** A run, with the strings applied along it, oldest first. *)
Fixpoint run (db : database) (c : component) (es : list event)
    : component * list string :=
  match es with
  | [] => (c, [])
  | e :: es' =>
      let (c', applied) := step db c e in
      let (c'', rest) := run db c' es' in
      (c'', match applied with Some h => h :: rest | None => rest end)
  end.

(** [useState(slidesHtml)] at the first render. *)
Definition mount (slidesHtml : string) : component := mkComponent slidesHtml 0 [].

End Preview.

(** ** The application shell ([src/App.tsx]) *)

Module App.
Import Regex Compiler.

(** [activeSlide]: the number of separators before the cursor. *)
Definition activeSlide (markdown : string) (cursorPos : nat) : nat :=
  let textBeforeCursor := take_str cursorPos markdown in
  let separators := matchAll false re_slide textBeforeCursor in
  length separators.

End App.

(** ** The image import dialog ([src/components/ImageImportModal.tsx]) *)

Module ImageImportModal.

Inductive SizePreset : Type := full | half | thumbnail.
Inductive Alignment : Type := left | center | right.

Definition sizeStyles (size : SizePreset) : string :=
  match size with
  | full => "max-width: 90%; max-height: 500px"
  | half => "max-width: 50%; max-height: 400px"
  | thumbnail => "max-width: 200px; max-height: 200px"
  end.

Definition alignmentStyles (alignment : Alignment) : string :=
  match alignment with
  | left => "margin-right: auto; margin-left: 0"
  | center => "margin-left: auto; margin-right: auto"
  | right => "margin-left: auto; margin-right: 0"
  end.

(** The style attribute that [handleInsert] builds. *)
Definition imageStyle (size : SizePreset) (alignment : Alignment) : string :=
  sizeStyles size +:+ "; height: auto; object-fit: contain; display: block; " +:+
  alignmentStyles alignment.

(** The tag that [handleInsert] hands to [onInsert] for a stored image. *)
Definition imageTag (imageId : string) (size : SizePreset) (alignment : Alignment)
    : string :=
  let style := imageStyle size alignment in
  lit "<img src='" +:+ imageId +:+ lit "' alt='image' style='" +:+ style +:+ lit "' />".

End ImageImportModal.

(** ** The image widget of the editor ([src/components/imageWidget.ts]) *)

Module ImageWidget.
Import Regex.

(** The pattern of [getImageDecorations]: an img tag whose first attribute
    is src with an identifier in double quotes (group 1), up to the closing
    bracket of the tag, before which a slash may stand. *)
Definition imgRegex : regex :=
  Str "<img" +> Plus (Cls [Space]) +> Str (lit "src='") +>
  Group 1 (Str "img-" +> Plus (Cls [Range "a" "f"; Range "0" "9"])) +>
  Str (lit "'") +> Star (NCls [One ">"]) +> Opt (Str "/") +> Str ">".

(** [toDOM]: the text of the placeholder. *)
Definition widgetText (imageId : string) : string :=
  "[Image: " +:+ take_str 12 imageId +:+ "...]".

Record Selection : Type := mkSelection { sel_from : nat; sel_to : nat }.

(** A replacing decoration: its range and the identifier of its widget. *)
Record Decoration : Type := mkDecoration {
  dec_from : nat;
  dec_to : nat;
  dec_imageId : string
}.

(** The [while] loop over [imgRegex.exec(text)]: for each match its index,
    its length and its captures. [rest] is the text from [index] on and
    [skip] the number of characters up to [lastIndex]. A match of this
    pattern is never empty (it holds the literal that opens the tag), so
    [lastIndex] moves on with every match. *)
Fixpoint exec_loop (rest : string) (skip index : nat) (prev : option ascii)
    {struct rest} : list (nat * nat * captures) :=
  match skip, rest with
  | S k, String c rest' => exec_loop rest' k (S index) (Some c)
  | S k, "" => []
  | 0, _ =>
      match exec_at false imgRegex prev rest with
      | Some (n, caps) =>
          (index, n, caps) ::
          match rest with
          | "" => []
          | String c rest' => exec_loop rest' (pred n) (S index) (Some c)
          end
      | None =>
          match rest with
          | "" => []
          | String c rest' => exec_loop rest' 0 (S index) (Some c)
          end
      end
  end.

(** The body of the [for] loop: the decorations of one line that starts at
    offset [lineFrom]. *)
Definition lineDecorations (lineFrom : nat) (text : string) (selection : Selection)
    : list Decoration :=
  flat_map
    (fun '(index, n, caps) =>
       let from := lineFrom + index in
       let to := lineFrom + index + n in
       let imageId := capture_text 1 caps in
       let cursorInImage :=
         (from <=? sel_from selection)%nat && (sel_to selection <=? to)%nat in
       if negb cursorInImage then [mkDecoration from to imageId] else [])
    (exec_loop text 0 0 None).

(** [getImageDecorations] for a document given by its lines, each with the
    offset at which it starts. *)
Definition getImageDecorations (lines : list (nat * string)) (selection : Selection)
    : list Decoration :=
  flat_map (fun '(lineFrom, text) => lineDecorations lineFrom text selection) lines.

End ImageWidget.

(** ** The diagram dialog ([src/components/DiagramModal.tsx]) *)

Module DiagramModal.

(** The block that [handleInsert] hands to [onInsert]. *)
Definition mermaidBlock (code : string) : string :=
  lit "```mermaid\n" +:+ code +:+ lit "\n```".

End DiagramModal.


Import Regex Compiler ImageStore Preview.

(** ** Measures on the output *)

(** The number of positions of [s] at which [p] starts. *)
Fixpoint count_str (p s : string) : nat :=
  (if startsWith p s then 1 else 0) +
  match s with
  | "" => 0
  | String _ s' => count_str p s'
  end.

(** Every character of [s] satisfies [p]. *)
Fixpoint forall_chars (p : ascii -> bool) (s : string) : bool :=
  match s with
  | "" => true
  | String c s' => p c && forall_chars p s'
  end.

Definition not_backtick (c : ascii) : bool := negb (c =? "`")%char.

(** The character before the position reached after reading [s]. *)
Fixpoint last_prev (s : string) (prev : option ascii) : option ascii :=
  match s with
  | "" => prev
  | String c s' => last_prev s' (Some c)
  end.

(** [listBody items depth] is what the [while] loop of [parseList] adds
    between the opening and the closing tag. *)
Definition listBody (items : list item) (depth : nat) : string :=
  parseList_while (2 * length items + 1) items depth.

(** The entry that [parseList] writes for a sibling and its nested items. *)
Definition listEntry (it : item) (nestedItems : list item) (depth : nat) : string :=
  if (0 <? length nestedItems)%nat
  then lit "<li class='fragment'>" +:+ text it +:+ lit "\n" +:+
       parseList nestedItems (depth + 1) +:+ lit "</li>\n"
  else lit "<li class='fragment'>" +:+ text it +:+ lit "</li>\n".

Definition deeper (depth : nat) (x : item) : bool := (depth * 2 <? indent x)%nat.

(** [clean cur rest]: the delimiter starts at no position of [cur] when
    [cur] is followed by [rest]. *)
Fixpoint clean (cur rest : string) : Prop :=
  match cur with
  | "" => True
  | String c cur' =>
      startsWith delimiter (String c cur' +:+ rest) = false /\ clean cur' rest
  end.




(** The identifiers that [exportWithInlinedImages] looks up for a text. *)
Definition referencedIds (markdown : string) : list string :=
  map (fun m => capture_text 2 (snd m)) (matchAll false imageRefRegex markdown) ++
  map (fun m => capture_text 1 (snd m)) (matchAll false htmlImageRefRegex markdown).

(** The characters that [escapeHtml] rewrites. *)
Definition isMarkupChar (c : ascii) : bool :=
  (c =? "&")%char || (c =? "<")%char || (c =? ">")%char || (code c =? 160)%N.

(** The concatenation of a list of strings. *)
Definition concat_str (l : list string) : string := fold_right String.append "" l.

(** The entry of an item without nested items. *)
Definition plainEntry (it : item) : string :=
  lit "<li class='fragment'>" +:+ text it +:+ lit "</li>\n".

(** A text that is empty or starts with a character that is not white
    space. *)
Definition starts_clean (u : string) : Prop :=
  match u with
  | "" => True
  | String c _ => isWhiteSpace c = false
  end.

(** The characters of an identifier after its prefix: a-f and 0-9. *)
Definition isIdChar (c : ascii) : bool :=
  class_has [Range "a" "f"; Range "0" "9"] c.

(** A character that is not a line terminator: what the dot of a pattern
    matches. *)
Definition isLineChar (c : ascii) : bool := negb (isLineTerminator c).

(** A character of running text: no line terminator, none of the
    characters that open an inline construct (backtick, asterisk, opening
    square bracket) and no opening angle bracket. *)
Definition opensInline (c : ascii) : bool :=
  ((c =? "`") || (c =? "*") || (c =? "["))%char.

Definition isTextChar (c : ascii) : bool :=
  isLineChar c && negb (opensInline c) && negb (c =? "<")%char.

(** A line that opens a block: a heading of level 1 to 3 or a list entry. *)
Definition opensBlock (s : string) : bool :=
  startsWith "# " s || startsWith "## " s || startsWith "### " s ||
  startsWith "- " s.

(** A character of the attributes of a tag on a line of its own: a
    character of running text other than the closing angle bracket. *)
Definition isAttrChar (c : ascii) : bool := isTextChar c && negb (c =? ">")%char.

(** The attributes of the tag of the import dialog that follow the
    identifier, up to the closing bracket. *)
Definition importAttrs (size : ImageImportModal.SizePreset)
    (alignment : ImageImportModal.Alignment) : string :=
  lit "' alt='image' style='" +:+ ImageImportModal.imageStyle size alignment +:+ lit "' /".

(** The character [a] does not occur in [s]. *)
Definition lacks (a : ascii) (s : string) : bool :=
  forall_chars (fun c => negb (a =? c)%char) s.

(** A run of [n] spaces. *)
Fixpoint spaces (n : nat) : string :=
  match n with
  | 0 => ""
  | S n' => String " " (spaces n')
  end.

(** The line of a list entry: its indentation, a dash, a space and its
    text; and the block of the lines of a list of entries. *)
Definition itemLine (it : item) : string :=
  spaces (indent it) +:+ "- " +:+ text it.

Definition listBlockOf (items : list item) : string :=
  join (lit "\n") (map itemLine items).

(** The body of the repetition in the list pattern: one line. *)
Definition re_list_entry : regex :=
  Bol +> Star (Cls [One " "]) +> Str "- " +> Star Any +> Eol +> Opt (Str (lit "\n")).

(** The entry of an item without nested items, without the line feed that
    follows it. *)
Definition entryLine (it : item) : string :=
  lit "<li class='fragment'>" +:+ text it +:+ "</li>".

(** Lines written one after the other, each followed by a line feed. *)
Definition unlines (lines : list string) : string :=
  concat_str (map (fun l => l +:+ lit "\n") lines).

(** An entry of a flat list: no indentation, and a trimmed, non-empty
    text of running text. *)
Definition flatEntry (it : item) : Prop :=
  indent it = 0 /\ text it <> "" /\ trim (text it) = text it /\
  forall_chars isTextChar (text it) = true.

(** A line at whose start the pattern does not match, whatever follows. *)
Definition missed (m : bool) (r : regex) (l : string) : Prop :=
  l <> "" /\ forall_chars isLineChar l = true /\
  forall prev tail, exec_at m r prev (l +:+ tail) = None.

(** The text of a flat list: the lines of the texts [front], then the
    line of the text [last], each opened by a dash and a space. *)
Definition flatDoc (front : list string) (last : string) : string :=
  unlines (map (fun t => "- " +:+ t) front) +:+ "- " +:+ last.

(** How often the awaited [getImage] of pass [n] settles in a run. *)
Definition settles (n : nat) (es : list event) : nat :=
  length (List.filter (fun e => match e with
                                | Settle m => (m =? n)%nat
                                | Render _ => false
                                end) es).

(** The passes in flight were started before the next one to start. *)
Definition names_below (c : component) : Prop :=
  Forall (fun e => fst e < started c) (inflight c).

(** [reach st st']: [st'] is a state of the same input as [st], at the same
    position or further. *)
Definition reach (st st' : mstate) : Prop :=
  ms_pos st <= ms_pos st' /\
  ms_pos st' + String.length (ms_rest st') = ms_pos st + String.length (ms_rest st).

(** * Properties *)

(** ** Strings *)

Lemma app_cons (c : ascii) (s t : string) : String c s +:+ t = String c (s +:+ t).
Proof. reflexivity. Qed.

Lemma app_nil_l (s : string) : "" +:+ s = s.
Proof. reflexivity. Qed.

Lemma app_nil_r (s : string) : s +:+ "" = s.
Proof. induction s as [|c s IH]; [reflexivity|]. rewrite app_cons, IH. reflexivity. Qed.

Lemma app_assoc_str (s t u : string) : (s +:+ t) +:+ u = s +:+ (t +:+ u).
Proof.
  induction s as [|c s IH]; [reflexivity|].
  rewrite !app_cons, IH. reflexivity.
Qed.

(** ** The nested-list parser *)

Lemma length_takeWhile {A} (p : A -> bool) (l : list A) :
  length (takeWhile p l) <= length l.
Proof. induction l as [|x l IH]; simpl; [lia|]. destruct (p x); simpl; lia. Qed.

Lemma length_dropWhile {A} (p : A -> bool) (l : list A) :
  length (dropWhile p l) <= length l.
Proof. induction l as [|x l IH]; simpl; [lia|]. destruct (p x); simpl; lia. Qed.

(** Past the bound the result no longer depends on the fuel. *)
Lemma parseList_fuel_indep (n : nat) :
  (forall items depth f1 f2,
      length items <= n -> 2 * length items + 2 <= f1 -> 2 * length items + 2 <= f2 ->
      parseList_fuel f1 items depth = parseList_fuel f2 items depth) /\
  (forall items depth f1 f2,
      length items <= n -> 2 * length items + 1 <= f1 -> 2 * length items + 1 <= f2 ->
      parseList_while f1 items depth = parseList_while f2 items depth).
Proof.
  induction n as [|n [IHp IHw]].
  - assert (Hw : forall items depth f1 f2,
      length items <= 0 -> 2 * length items + 1 <= f1 -> 2 * length items + 1 <= f2 ->
      parseList_while f1 items depth = parseList_while f2 items depth).
    { intros [|it rest] depth [|f1] [|f2] Hn H1 H2; simpl in *; try lia. reflexivity. }
    split; [|exact Hw].
    intros items depth [|f1] [|f2] Hn H1 H2; simpl in *; try lia.
    rewrite (Hw items depth f1 f2) by lia. reflexivity.
  - assert (Hw : forall items depth f1 f2,
      length items <= S n -> 2 * length items + 1 <= f1 -> 2 * length items + 1 <= f2 ->
      parseList_while f1 items depth = parseList_while f2 items depth).
    { intros [|it rest] depth [|f1] [|f2] Hn H1 H2; simpl in *; try lia; [reflexivity|].
      pose proof (length_takeWhile (fun x => (depth * 2 <? indent x)%nat) rest) as Ht.
      pose proof (length_dropWhile (fun x => (depth * 2 <? indent x)%nat) rest) as Hd.
      destruct (indent it =? depth * 2)%nat.
      + rewrite (IHw (dropWhile _ rest) depth f1 f2) by lia.
        destruct (0 <? length (takeWhile _ rest))%nat; [|reflexivity].
        rewrite (IHp (takeWhile _ rest) (depth + 1) f1 f2) by lia. reflexivity.
      + apply IHw; lia. }
    split; [|exact Hw].
    intros items depth [|f1] [|f2] Hn H1 H2; simpl in *; try lia.
    rewrite (Hw items depth f1 f2) by lia. reflexivity.
Qed.

Lemma parseList_fuel_enough (fuel : nat) (items : list item) (depth : nat) :
  2 * length items + 2 <= fuel -> parseList_fuel fuel items depth = parseList items depth.
Proof.
  intros H. unfold parseList.
  apply (proj1 (parseList_fuel_indep (length items))); lia.
Qed.

Lemma parseList_while_enough (fuel : nat) (items : list item) (depth : nat) :
  2 * length items + 1 <= fuel -> parseList_while fuel items depth = listBody items depth.
Proof.
  intros H. unfold listBody.
  apply (proj2 (parseList_fuel_indep (length items))); lia.
Qed.

Lemma parseList_unfold (items : list item) (depth : nat) :
  parseList items depth = lit "<ul>\n" +:+ listBody items depth +:+ "</ul>".
Proof.
  unfold parseList. replace (2 * length items + 2) with (S (2 * length items + 1)) by lia.
  reflexivity.
Qed.

Lemma listBody_nil (depth : nat) : listBody [] depth = "".
Proof. reflexivity. Qed.

Lemma listBody_skip (it : item) (rest : list item) (depth : nat) :
  indent it <> depth * 2 -> listBody (it :: rest) depth = listBody rest depth.
Proof.
  intros Hne. unfold listBody at 1.
  replace (2 * length (it :: rest) + 1) with (S (2 * length rest + 2)) by (simpl; lia).
  simpl parseList_while.
  destruct (Nat.eqb_spec (indent it) (depth * 2)) as [He|_]; [contradiction|].
  apply parseList_while_enough. lia.
Qed.

Lemma listBody_sibling (it : item) (rest : list item) (depth : nat) :
  indent it = depth * 2 ->
  listBody (it :: rest) depth =
    listEntry it (takeWhile (deeper depth) rest) depth +:+
    listBody (dropWhile (deeper depth) rest) depth.
Proof.
  intros He. unfold listBody at 1.
  replace (2 * length (it :: rest) + 1) with (S (2 * length rest + 2)) by (simpl; lia).
  simpl parseList_while.
  destruct (Nat.eqb_spec (indent it) (depth * 2)) as [_|Hne]; [|contradiction].
  pose proof (length_takeWhile (deeper depth) rest) as Ht.
  pose proof (length_dropWhile (deeper depth) rest) as Hd.
  fold (deeper depth).
  rewrite (parseList_while_enough _ (dropWhile (deeper depth) rest)) by lia.
  unfold listEntry.
  destruct (0 <? length (takeWhile (deeper depth) rest))%nat; [|reflexivity].
  rewrite (parseList_fuel_enough _ (takeWhile (deeper depth) rest)) by lia.
  reflexivity.
Qed.

(** ** Slide splitting *)

Lemma startsWith_drop (p s : string) :
  startsWith p s = true -> s = p +:+ drop_str (String.length p) s.
Proof.
  revert s. induction p as [|a p IH]; intros s H; [reflexivity|].
  destruct s as [|b s]; simpl in H; [discriminate|].
  apply andb_prop in H as [Hab Hp]. apply Ascii.eqb_eq in Hab. subst b.
  rewrite app_cons. simpl. f_equal. apply IH, Hp.
Qed.

Lemma startsWith_app (p s t : string) :
  startsWith p s = true -> startsWith p (s +:+ t) = true.
Proof.
  revert s. induction p as [|a p IH]; intros s H; [reflexivity|].
  destruct s as [|b s]; simpl in H; [discriminate|].
  apply andb_prop in H as [Hab Hp]. rewrite app_cons. simpl.
  rewrite Hab. simpl. apply IH, Hp.
Qed.

Lemma eat_startsWith (s : string) (st : mstate) :
  match eat s st with
  | Some st' =>
      startsWith s (ms_rest st) = true /\
      ms_pos st' = ms_pos st + String.length s /\
      ms_rest st' = drop_str (String.length s) (ms_rest st) /\
      ms_caps st' = ms_caps st
  | None => startsWith s (ms_rest st) = false
  end.
Proof.
  revert st. induction s as [|a s IH]; intros st; simpl.
  - repeat split. lia.
  - destruct (ms_rest st) as [|c rest] eqn:Hr; [reflexivity|].
    destruct (Ascii.eqb_spec a c) as [->|Hne]; [|reflexivity].
    specialize (IH (advance c rest st)). simpl in IH.
    destruct (eat s (advance c rest st)) as [st'|]; [|exact IH].
    destruct IH as (H1 & H2 & H3 & H4). repeat split; try assumption. lia.
Qed.

(** An attempt of the slide pattern succeeds exactly where the five
    characters of the delimiter start. *)
Lemma exec_at_slide (prev : option ascii) (rest : string) :
  exec_at false re_slide prev rest =
    if startsWith delimiter rest then Some (5, []) else None.
Proof.
  unfold exec_at, re_slide. cbn [rmatch].
  pose proof (eat_startsWith delimiter (MState 0 prev rest [])) as H.
  destruct (eat delimiter (MState 0 prev rest [])) as [st'|]; cbn [ms_rest ms_pos ms_caps] in H.
  - destruct H as (H1 & H2 & _ & H4). rewrite H1, H2, H4. reflexivity.
  - rewrite H. reflexivity.
Qed.

Lemma startsWith_delimiter (c : ascii) (rest : string) :
  startsWith delimiter (String c rest) = true ->
  String c rest = delimiter +:+ drop_str 4 rest.
Proof. intros H. apply (startsWith_drop _ _ H). Qed.

Local Opaque delimiter.

Lemma split_go_nonempty m r rest skip cur fresh prev :
  split_go m r rest skip cur fresh prev <> [].
Proof.
  revert skip cur fresh prev. induction rest as [|c rest IH]; intros skip cur fresh prev.
  - destruct skip; discriminate.
  - destruct skip as [|k]; simpl; [|apply IH].
    destruct (exec_at m r prev (String c rest)) as [[[|n] caps]|];
      [destruct fresh| |]; try discriminate; apply IH.
Qed.

Lemma join_cons (sep x : string) (l : list string) :
  l <> [] -> join sep (x :: l) = x +:+ sep +:+ join sep l.
Proof. destruct l; [contradiction|reflexivity]. Qed.

Lemma join_split_slide (rest : string) (skip : nat) (cur : string) (fresh : bool)
    (prev : option ascii) :
  join delimiter (split_go false re_slide rest skip cur fresh prev) =
    cur +:+ drop_str skip rest.
Proof.
  revert skip cur fresh prev.
  induction rest as [|c rest IH]; intros skip cur fresh prev.
  - destruct skip; simpl; rewrite app_nil_r; reflexivity.
  - destruct skip as [|k]; [|simpl; apply IH].
    cbn [split_go]. rewrite exec_at_slide.
    destruct (startsWith delimiter (String c rest)) eqn:Hs.
    + rewrite join_cons by apply split_go_nonempty.
      rewrite IH. rewrite app_nil_l. cbn [drop_str].
      rewrite (startsWith_delimiter _ _ Hs). reflexivity.
    + rewrite IH. simpl drop_str. rewrite app_assoc_str. reflexivity.
Qed.

Lemma clean_snoc (cur : string) (c : ascii) (rest : string) :
  clean cur (String c rest) -> startsWith delimiter (String c rest) = false ->
  clean (cur +:+ String c "") rest.
Proof.
  induction cur as [|a cur IH]; intros Hc Hs.
  - split; [exact Hs|exact I].
  - destruct Hc as [H1 H2]. split; [|apply IH; assumption].
    rewrite <- app_cons, app_assoc_str. exact H1.
Qed.

Lemma clean_includes (cur rest : string) :
  clean cur rest -> includes delimiter cur = false.
Proof.
  induction cur as [|a cur IH]; intros Hc; [reflexivity|].
  destruct Hc as [H1 H2]. cbn [includes]. rewrite (IH H2), orb_false_r.
  destruct (startsWith delimiter (String a cur)) eqn:Hs; [|reflexivity].
  rewrite (startsWith_app _ _ rest Hs) in H1. discriminate.
Qed.

Lemma split_slide_clean (rest : string) (skip : nat) (cur : string) (fresh : bool)
    (prev : option ascii) :
  match skip with 0 => clean cur rest | S _ => cur = "" end ->
  Forall (fun seg => includes delimiter seg = false)
         (split_go false re_slide rest skip cur fresh prev).
Proof.
  revert skip cur fresh prev.
  induction rest as [|c rest IH]; intros skip cur fresh prev H.
  - assert (includes delimiter cur = false) as Hc.
    { destruct skip; [apply (clean_includes _ _ H)|subst cur; reflexivity]. }
    destruct skip; simpl; constructor; auto.
  - destruct skip as [|k].
    + cbn [split_go]. rewrite exec_at_slide.
      destruct (startsWith delimiter (String c rest)) eqn:Hs.
      * constructor; [apply (clean_includes _ _ H)|]. apply IH. reflexivity.
      * apply IH. apply clean_snoc; assumption.
    + simpl. subst cur. apply IH. destruct k; [exact I|reflexivity].
Qed.

Lemma split_slide_none (rest cur : string) (fresh : bool) (prev : option ascii) :
  includes delimiter rest = false ->
  split_go false re_slide rest 0 cur fresh prev = [cur +:+ rest].
Proof.
  revert cur fresh prev. induction rest as [|c rest IH]; intros cur fresh prev H.
  - simpl. rewrite app_nil_r. reflexivity.
  - cbn [includes] in H. apply orb_false_elim in H as [Hs Hi].
    cbn [split_go]. rewrite exec_at_slide, Hs, IH by exact Hi.
    rewrite app_assoc_str. reflexivity.
Qed.

Local Transparent delimiter.

Lemma split_slide_spec (markdown : string) :
  let segments := split false re_slide markdown in
  segments <> [] /\
  join delimiter segments = markdown /\
  Forall (fun seg => includes delimiter seg = false) segments /\
  (includes delimiter markdown = false -> segments = [markdown]).
Proof.
  destruct markdown as [|c rest].
  - simpl. repeat split; [discriminate|constructor; [reflexivity|constructor]].
  - cbn zeta. unfold split.
    repeat split.
    + apply split_go_nonempty.
    + rewrite join_split_slide. reflexivity.
    + apply split_slide_clean. exact I.
    + intros H. rewrite split_slide_none by exact H. reflexivity.
Qed.

(** ** The compiler on the examples of the specification *)

(** C1: on the end-to-end example [markdownToSlides] returns the text of
    two sections, one per line. The first holds the heading A and one list
    whose only top-level entry x is a fragment and holds a nested list with
    the single fragment entry y (the paragraph pass also wraps the two
    lines that close the lists); the second holds the heading B and nothing
    else. *)
Theorem C1_end_to_end_example :
  let markdown := lit "# A\n\n- x\n  - y\n\n---\n\n# B\n" in
  markdownToSlides markdown =
    lit "<section><h1>A</h1>\n\n<ul>\n<li class='fragment'>x\n<ul>\n<li class='fragment'>y</li>\n<p></ul></li></p>\n<p></ul></p></section>\n<section><h1>B</h1></section>" /\
  slides markdown =
    [ lit "<section><h1>A</h1>\n\n<ul>\n<li class='fragment'>x\n<ul>\n<li class='fragment'>y</li>\n<p></ul></li></p>\n<p></ul></p></section>";
      "<section><h1>B</h1></section>" ] /\
  markdownToSlides markdown = join (lit "\n") (slides markdown) /\
  count_str "<section>" (markdownToSlides markdown) = 2 /\
  count_str "</section>" (markdownToSlides markdown) = 2 /\
  count_str "<h1>" (markdownToSlides markdown) = 2 /\
  count_str "<h1>B</h1>" (markdownToSlides markdown) = 1 /\
  count_str "<ul>" (markdownToSlides markdown) = 2 /\
  list_items (lit "- x\n  - y") = [Item 0 "x"; Item 2 "y"] /\
  unorderedLists (lit "- x\n  - y") =
    lit "<ul>\n<li class='fragment'>x\n<ul>\n<li class='fragment'>y</li>\n</ul></li>\n</ul>" /\
  count_str "<h1>A</h1>" (markdownToSlides markdown) = 1 /\
  count_str "<li" (markdownToSlides markdown) = 2 /\
  count_str (lit "<li class='fragment'>") (markdownToSlides markdown) = 2.
Proof. vm_compute. repeat split. Qed.

(** C3 at the input [![a](b)]: the link pass runs before the image pass and
    rewrites the bracket part of the image syntax, so the output holds a
    link after an exclamation mark, no image and no fragment marking; the
    image pass on its own would have produced the fragment image. *)
Theorem C3_markdown_image_becomes_link :
  markdownToSlides "![a](b)" = lit "<section><p>!<a href='b'>a</a></p></section>" /\
  count_str "<img" (markdownToSlides "![a](b)") = 0 /\
  count_str "fragment" (markdownToSlides "![a](b)") = 0 /\
  images "![a](b)" = lit "<img class='fragment' src='b' alt='a' />" /\
  images (links "![a](b)") = links "![a](b)".
Proof. vm_compute. repeat split. Qed.

(** C5: the list block of the specification gives one list with the
    entries A and D, and B and C in a list nested in A. The loop of
    [parseList] passes over an item whose indentation is not the expected
    one without writing anything; at an item with the expected indentation
    it writes one entry, with the run of deeper items that follows parsed
    one level down, and goes on after that run. The parser is total: its
    result is the same for every fuel above the bound. *)
Theorem C5_nested_list_parser :
  unorderedLists (lit "- A\n  - B\n  - C\n- D") =
    lit "<ul>\n<li class='fragment'>A\n<ul>\n<li class='fragment'>B</li>\n<li class='fragment'>C</li>\n</ul></li>\n<li class='fragment'>D</li>\n</ul>" /\
  list_items (lit "- A\n  - B\n  - C\n- D") =
    [Item 0 "A"; Item 2 "B"; Item 2 "C"; Item 0 "D"] /\
  listBody [Item 0 "A"; Item 2 "B"; Item 2 "C"; Item 0 "D"] 0 =
    listEntry (Item 0 "A") [Item 2 "B"; Item 2 "C"] 0 +:+
    listEntry (Item 0 "D") [] 0 /\
  (forall items depth,
     parseList items depth = lit "<ul>\n" +:+ listBody items depth +:+ "</ul>") /\
  (forall depth, listBody [] depth = "") /\
  (forall it rest depth,
     indent it <> depth * 2 ->
     listBody (it :: rest) depth = listBody rest depth) /\
  (forall it rest depth,
     indent it = depth * 2 ->
     listBody (it :: rest) depth =
       listEntry it (takeWhile (deeper depth) rest) depth +:+
       listBody (dropWhile (deeper depth) rest) depth) /\
  (forall fuel items depth,
     2 * length items + 2 <= fuel ->
     parseList_fuel fuel items depth = parseList items depth).
Proof.
  split; [vm_compute; reflexivity|].
  split; [vm_compute; reflexivity|].
  split; [vm_compute; reflexivity|].
  split; [exact parseList_unfold|].
  split; [exact listBody_nil|].
  split; [exact listBody_skip|].
  split; [exact listBody_sibling|].
  exact parseList_fuel_enough.
Qed.

Lemma C5_nested_list_parser_witness :
  indent (Item 3 "C") <> 0 * 2 /\
  listBody [Item 3 "C"; Item 0 "D"] 0 = listBody [Item 0 "D"] 0 /\
  indent (Item 0 "A") = 0 * 2 /\
  listBody [Item 0 "A"; Item 2 "B"; Item 0 "D"] 0 =
    listEntry (Item 0 "A") [Item 2 "B"] 0 +:+ listBody [Item 0 "D"] 0 /\
  2 * length [Item 0 "A"] + 2 <= 9 /\
  parseList_fuel 9 [Item 0 "A"] 0 = parseList [Item 0 "A"] 0.
Proof.
  destruct C5_nested_list_parser as (_ & _ & _ & _ & _ & Hskip & Hsib & Hfuel).
  split; [simpl; lia|].
  split; [apply Hskip; simpl; lia|].
  split; [reflexivity|].
  split; [apply (Hsib (Item 0 "A") [Item 2 "B"; Item 0 "D"] 0); reflexivity|].
  split; [simpl; lia|].
  apply Hfuel. simpl; lia.
Defined.

(** C10: an inline code span does not shield its content. After the inline
    code, bold and italic passes the span holding two asterisks, a and two
    asterisks is a code element around a strong element, and that is what
    the slide shows (inside the paragraph that the last pass adds). *)
Theorem C10_emphasis_inside_inline_code :
  inlineCode "`**a**`" = "<code>**a**</code>" /\
  italic (bold (inlineCode "`**a**`")) = "<code><strong>a</strong></code>" /\
  markdownToSlides "`**a**`" =
    "<section><p><code><strong>a</strong></code></p></section>".
Proof. vm_compute. repeat split. Qed.

(** ** The matcher on runs of characters *)

Lemma length_app_str (s t : string) :
  String.length (s +:+ t) = String.length s + String.length t.
Proof. induction s as [|c s IH]; [reflexivity|]. rewrite app_cons. simpl. rewrite IH. reflexivity. Qed.

Lemma take_str_app (s t : string) : take_str (String.length s) (s +:+ t) = s.
Proof. induction s as [|c s IH]; [destruct t; reflexivity|]. rewrite app_cons. simpl. rewrite IH. reflexivity. Qed.

Lemma eat_app (s rest : string) (st : mstate) :
  ms_rest st = s +:+ rest ->
  eat s st =
    Some (MState (ms_pos st + String.length s) (last_prev s (ms_prev st)) rest (ms_caps st)).
Proof.
  revert st. induction s as [|a s IH]; intros [pos prev r caps] H; simpl in *.
  - subst r. rewrite Nat.add_0_r. reflexivity.
  - subst r. rewrite app_cons. rewrite Ascii.eqb_refl.
    rewrite (IH (advance a (s +:+ rest) (MState pos prev (String a (s +:+ rest)) caps)))
      by reflexivity.
    simpl. do 2 f_equal. lia.
Qed.

Lemma one_cons (p : ascii -> bool) (k : mstate -> option mstate) pos prev c r caps :
  one p k (MState pos prev (String c r) caps) =
    if p c then k (MState (S pos) (Some c) r caps) else None.
Proof. reflexivity. Qed.

Lemma clear_nil (caps : captures) : clear [] caps = caps.
Proof. induction caps as [|e caps IH]; [reflexivity|]. simpl. f_equal. exact IH. Qed.

(** A greedy repetition of a single-character matcher reads a whole run of
    matching characters that is followed by none, when the continuation
    accepts the state after the run. *)
Lemma rep_greedy_run (p : ascii -> bool) (k : mstate -> option mstate)
    (z : mstate) (run : string) :
  forall (rest : string) (fuel min pos : nat) (prev : option ascii) (caps : captures),
    forall_chars p run = true ->
    match rest with "" => True | String c _ => p c = false end ->
    min <= String.length run ->
    String.length run < fuel ->
    k (MState (pos + String.length run) (last_prev run prev) rest caps) = Some z ->
    rep_loop (one p) [] true k fuel min None (MState pos prev (run +:+ rest) caps) = Some z.
Proof.
  induction run as [|c run IH]; intros rest fuel min pos prev caps Hp Hr Hmin Hfuel Hk.
  - destruct fuel as [|fuel]; [simpl in Hfuel; lia|].
    simpl in Hmin. assert (min = 0) as -> by lia.
    cbn [rep_loop Nat.eqb negb]. rewrite clear_nil.
    cbn [ms_pos ms_prev ms_rest ms_caps]. rewrite app_nil_l.
    simpl in Hk. rewrite Nat.add_0_r in Hk.
    unfold one. cbn [ms_rest].
    destruct rest as [|c r]; [exact Hk|rewrite Hr; exact Hk].
  - destruct fuel as [|fuel]; [simpl in Hfuel; lia|].
    simpl in Hp. apply andb_prop in Hp as [Hc Hp].
    assert (rep_loop (one p) [] true k fuel (Nat.pred min) None
              (MState (S pos) (Some c) (run +:+ rest) caps) = Some z) as Hnext.
    { apply IH; try assumption.
      - simpl in Hmin. lia.
      - simpl in Hfuel. lia.
      - simpl in Hk. rewrite <- Hk. do 2 f_equal. lia. }
    cbn [rep_loop]. rewrite clear_nil. cbn [ms_pos ms_prev ms_rest ms_caps option_map].
    rewrite app_cons, !one_cons, Hc. cbn [ms_pos].
    assert ((S pos =? pos)%nat = false) as -> by (apply Nat.eqb_neq; lia).
    rewrite andb_false_r, Hnext.
    destruct (negb (min =? 0)%nat); reflexivity.
Qed.

(** A lazy repetition of a single-character matcher stops at the first
    position that the continuation accepts: here after a run at whose
    characters the continuation fails. *)
Lemma rep_lazy_run (p q : ascii -> bool) (k : mstate -> option mstate)
    (z : mstate) (run : string) :
  (forall pos prev c r caps, q c = true -> k (MState pos prev (String c r) caps) = None) ->
  forall (rest : string) (fuel pos : nat) (prev : option ascii) (caps : captures),
    forall_chars p run = true ->
    forall_chars q run = true ->
    String.length run < fuel ->
    k (MState (pos + String.length run) (last_prev run prev) rest caps) = Some z ->
    rep_loop (one p) [] false k fuel 0 None (MState pos prev (run +:+ rest) caps) = Some z.
Proof.
  intros Hfail.
  induction run as [|c run IH]; intros rest fuel pos prev caps Hp Hq Hfuel Hk.
  - destruct fuel as [|fuel]; [simpl in Hfuel; lia|].
    cbn [rep_loop Nat.eqb negb]. rewrite app_nil_l.
    simpl in Hk. rewrite Nat.add_0_r in Hk. rewrite Hk. reflexivity.
  - destruct fuel as [|fuel]; [simpl in Hfuel; lia|].
    simpl in Hp, Hq. apply andb_prop in Hp as [Hc Hp]. apply andb_prop in Hq as [Hqc Hq].
    cbn [rep_loop Nat.eqb negb]. rewrite clear_nil. cbn [ms_pos ms_prev ms_rest ms_caps].
    rewrite app_cons. rewrite (Hfail _ _ _ _ _ Hqc).
    rewrite one_cons, Hc. cbn [ms_pos option_map Nat.pred].
    assert ((S pos =? pos)%nat = false) as -> by (apply Nat.eqb_neq; lia).
    rewrite andb_false_r. apply IH; try assumption.
    + simpl in Hfuel. lia.
    + simpl in Hk. rewrite <- Hk. do 2 f_equal. lia.
Qed.

(** The equations of the matcher. *)

Lemma rmatch_Seq m r1 r2 k st :
  rmatch m (Seq r1 r2) k st = rmatch m r1 (rmatch m r2 k) st.
Proof. reflexivity. Qed.

Lemma rmatch_Str m s k st :
  rmatch m (Str s) k st = match eat s st with Some st' => k st' | None => None end.
Proof. reflexivity. Qed.

Lemma rmatch_Group m n r k st :
  rmatch m (Group n r) k st =
    rmatch m r
      (fun st' =>
         k (MState (ms_pos st') (ms_prev st') (ms_rest st')
              ((n, take_str (ms_pos st' - ms_pos st) (ms_rest st)) :: ms_caps st')))
      st.
Proof. reflexivity. Qed.

Lemma rmatch_Rep_Cls m cs min max greedy k st :
  rmatch m (Rep (Cls cs) min max greedy) k st =
    rep_loop (one (class_has cs)) [] greedy k
      (min + String.length (ms_rest st) + 1) min max st.
Proof. reflexivity. Qed.

Lemma rmatch_Rep m r min max greedy k st :
  rmatch m (Rep r min max greedy) k st =
    rep_loop (rmatch m r) (groups r) greedy k
      (min + String.length (ms_rest st) + 1) min max st.
Proof. reflexivity. Qed.

(** ** The matcher never runs out of fuel

    A matcher hands to its continuation only states of the same input that
    are not before the one it started from; so a repetition, whose every
    iteration past the minimum must advance, is the same for every fuel
    from [min + length rest + 1] on. *)

Lemma reach_refl (st : mstate) : reach st st.
Proof. split; reflexivity. Qed.

Lemma reach_trans (a b c : mstate) : reach a b -> reach b c -> reach a c.
Proof. unfold reach. intros [? ?] [? ?]. split; lia. Qed.

Lemma length_drop_startsWith (p s : string) :
  startsWith p s = true ->
  String.length (drop_str (String.length p) s) + String.length p = String.length s.
Proof.
  intros H. rewrite (startsWith_drop _ _ H) at 2. rewrite length_app_str. lia.
Qed.

Lemma eat_reach (s : string) (st st' : mstate) : eat s st = Some st' -> reach st st'.
Proof.
  intros H. pose proof (eat_startsWith s st) as E. rewrite H in E.
  destruct E as (Hs & Hpos & Hrest & _). apply length_drop_startsWith in Hs.
  unfold reach. rewrite Hpos, Hrest. lia.
Qed.

Section RepeatFuel.
Variable m1 : (mstate -> option mstate) -> mstate -> option mstate.
Hypothesis m1_local : forall k k' st,
  (forall st', reach st st' -> k st' = k' st') -> m1 k st = m1 k' st.

Lemma rep_loop_local gs greedy (fuel : nat) :
  forall min max st k k',
    (forall st', reach st st' -> k st' = k' st') ->
    rep_loop m1 gs greedy k fuel min max st = rep_loop m1 gs greedy k' fuel min max st.
Proof.
  induction fuel as [|fuel IH]; intros min max st k k' Hk; [reflexivity|].
  assert (m1 (fun st' =>
                if (min =? 0)%nat && (ms_pos st' =? ms_pos st)%nat then None
                else rep_loop m1 gs greedy k fuel (pred min) (option_map pred max) st')
             (MState (ms_pos st) (ms_prev st) (ms_rest st) (clear gs (ms_caps st))) =
          m1 (fun st' =>
                if (min =? 0)%nat && (ms_pos st' =? ms_pos st)%nat then None
                else rep_loop m1 gs greedy k' fuel (pred min) (option_map pred max) st')
             (MState (ms_pos st) (ms_prev st) (ms_rest st) (clear gs (ms_caps st)))) as Hd.
  { apply m1_local. intros st' Hr.
    destruct ((min =? 0)%nat && (ms_pos st' =? ms_pos st)%nat); [reflexivity|].
    apply IH. intros st'' Hr'. apply Hk.
    apply (reach_trans _ st'); [exact Hr|exact Hr']. }
  cbn [rep_loop]. rewrite Hd, (Hk st (reach_refl st)).
  destruct max as [[|mx]|]; reflexivity.
Qed.

Lemma rep_loop_fuel gs greedy k (f1 : nat) :
  forall f2 min max st,
    min + String.length (ms_rest st) + 1 <= f1 ->
    min + String.length (ms_rest st) + 1 <= f2 ->
    rep_loop m1 gs greedy k f1 min max st = rep_loop m1 gs greedy k f2 min max st.
Proof.
  induction f1 as [|f1 IH]; intros f2 min max st H1 H2; [lia|].
  destruct f2 as [|f2]; [lia|].
  assert (m1 (fun st' =>
                if (min =? 0)%nat && (ms_pos st' =? ms_pos st)%nat then None
                else rep_loop m1 gs greedy k f1 (pred min) (option_map pred max) st')
             (MState (ms_pos st) (ms_prev st) (ms_rest st) (clear gs (ms_caps st))) =
          m1 (fun st' =>
                if (min =? 0)%nat && (ms_pos st' =? ms_pos st)%nat then None
                else rep_loop m1 gs greedy k f2 (pred min) (option_map pred max) st')
             (MState (ms_pos st) (ms_prev st) (ms_rest st) (clear gs (ms_caps st)))) as Hd.
  { apply m1_local. intros st' [Hle Hlen]. cbn [ms_pos ms_rest] in Hle, Hlen.
    destruct (Nat.eqb_spec min 0) as [->|Hmin]; cbn [andb].
    - destruct (Nat.eqb_spec (ms_pos st') (ms_pos st)) as [_|Hne]; [reflexivity|].
      apply IH; cbn [pred]; lia.
    - apply IH; lia. }
  cbn [rep_loop]. rewrite Hd. reflexivity.
Qed.
End RepeatFuel.

Lemma one_local (p : ascii -> bool) k k' st :
  (forall st', reach st st' -> k st' = k' st') -> one p k st = one p k' st.
Proof.
  intros Hk. unfold one. destruct st as [pos prev [|c rest] caps]; cbn [ms_rest]; [reflexivity|].
  destruct (p c); [|reflexivity].
  apply Hk. unfold reach, advance. cbn. lia.
Qed.

Lemma rmatch_local (m : bool) (r : regex) :
  forall k k' st,
    (forall st', reach st st' -> k st' = k' st') -> rmatch m r k st = rmatch m r k' st.
Proof.
  induction r as [s| |cs|cs| | |r1 IH1 r2 IH2|r1 IH1 r2 IH2|n r1 IH1|r1 IH1 min max greedy|r1 IH1];
    intros k k' st Hk.
  - rewrite !rmatch_Str. destruct (eat s st) as [st'|] eqn:He; [|reflexivity].
    apply Hk, (eat_reach _ _ _ He).
  - apply one_local, Hk.
  - apply one_local, Hk.
  - apply one_local, Hk.
  - cbn [rmatch]. rewrite (Hk st (reach_refl st)). reflexivity.
  - cbn [rmatch]. rewrite (Hk st (reach_refl st)). reflexivity.
  - rewrite !rmatch_Seq. apply IH1. intros st1 H1. apply IH2. intros st2 H2.
    apply Hk, (reach_trans _ st1); assumption.
  - cbn [rmatch]. rewrite (IH1 k k' st Hk), (IH2 k k' st Hk). reflexivity.
  - rewrite !rmatch_Group. apply IH1. intros st' Hr. apply Hk. exact Hr.
  - rewrite !rmatch_Rep. apply rep_loop_local; assumption.
  - cbn [rmatch]. rewrite (Hk st (reach_refl st)). reflexivity.
Qed.

(** The fuel that [rmatch] gives to a repetition is enough: any larger
    amount gives the same result. *)
Lemma rmatch_Rep_fuel (m : bool) (r : regex) (min : nat) (max : option nat)
    (greedy : bool) (k : mstate -> option mstate) (st : mstate) (fuel : nat) :
  min + String.length (ms_rest st) + 1 <= fuel ->
  rep_loop (rmatch m r) (groups r) greedy k fuel min max st =
    rmatch m (Rep r min max greedy) k st.
Proof.
  intros H. rewrite rmatch_Rep. apply rep_loop_fuel; [apply rmatch_local|exact H|lia].
Qed.

(** ** The fenced-code pass *)

Lemma forall_chars_impl (p q : ascii -> bool) (s : string) :
  (forall c, p c = true -> q c = true) ->
  forall_chars p s = true -> forall_chars q s = true.
Proof.
  intros Hpq. induction s as [|c s IH]; [reflexivity|]. simpl. intros H.
  apply andb_prop in H as [Hc Hs]. rewrite (Hpq _ Hc), (IH Hs). reflexivity.
Qed.

Lemma forall_chars_any (s : string) :
  forall_chars (class_has [Space; NonSpace]) s = true.
Proof.
  induction s as [|c s IH]; [reflexivity|]. simpl. rewrite IH.
  destruct (isWhiteSpace c); reflexivity.
Qed.





(** The characters of a match are passed without output. *)
Lemma replace_go_skip m r (f : replacer) (str matched post result : string) :
  (forall pos prev, replace_go m r f str post 0 pos prev = result) ->
  forall pos prev,
    replace_go m r f str (matched +:+ post) (String.length matched) pos prev = result.
Proof.
  intros Hpost. induction matched as [|c matched IH]; intros pos prev.
  - rewrite app_nil_l. apply Hpost.
  - rewrite app_cons. cbn [String.length replace_go]. apply IH.
Qed.







(** ** The image store *)

Lemma storeImage_eq (blob : Blob) (now : N) (db : database) :
  storeImage blob now db =
    (generateImageId blob,
     <[generateImageId blob :=
         mkStoredImage (generateImageId blob) blob (blob_type blob) now]> db).
Proof. reflexivity. Qed.

Lemma getImage_eq (id : string) (db : database) :
  getImage id db =
    (match db !! id with
     | None => None
     | Some image => Some (readAsDataURL (img_blob image))
     end, db).
Proof. reflexivity. Qed.

Lemma getStorageSize_eq (db : database) :
  getStorageSize db =
    (fold_left (fun sum img => sum + blob_size (img_blob img)) (map_to_list db).*2 0, db).
Proof. reflexivity. Qed.

Lemma fold_left_sizes (l : list StoredImage) (a : nat) :
  fold_left (fun sum img => sum + blob_size (img_blob img)) l a =
    a + sum_list_with (fun img => blob_size (img_blob img)) l.
Proof.
  revert a. induction l as [|x l IH]; intros a; simpl; [lia|]. rewrite IH. lia.
Qed.

(** Writing again under a key that is present, with a blob of the same
    size, leaves the total size as it was. *)
Lemma storage_size_overwrite (db : database) (id : string) (old new : StoredImage) :
  db !! id = Some old ->
  blob_size (img_blob new) = blob_size (img_blob old) ->
  (getStorageSize (<[id := new]> db)).1 = (getStorageSize db).1.
Proof.
  intros Hold Hsize. rewrite !getStorageSize_eq. cbn [fst].
  rewrite !fold_left_sizes. f_equal.
  rewrite <- (insert_delete_eq db id new).
  assert ((map_to_list (<[id:=new]> (delete id db))).*2 ≡ₚ
          new :: (map_to_list (delete id db)).*2) as ->.
  { change (new :: (map_to_list (delete id db)).*2)
      with (((id, new) :: map_to_list (delete id db)).*2).
    apply fmap_Permutation, map_to_list_insert, lookup_delete_eq. }
  assert ((map_to_list db).*2 ≡ₚ old :: (map_to_list (delete id db)).*2) as ->.
  { change (old :: (map_to_list (delete id db)).*2)
      with (((id, old) :: map_to_list (delete id db)).*2).
    apply fmap_Permutation. symmetry. apply map_to_list_delete, Hold. }
  simpl. rewrite Hsize. reflexivity.
Qed.

(** C6, as the source has it: storing the same bytes a second time gives
    the same identifier and succeeds; the object store's put writes the
    record again under that key, so the entry then holds the blob, the
    type and the time of the second call, while every other entry, the set
    of keys, the number of entries and the total size are as after the
    first call. *)
Theorem C6_second_store_overwrites_in_place
    (db : database) (content : list Byte.byte) (type1 type2 : string) (now1 now2 : N) :
  let first := storeImage (mkBlob content type1) now1 db in
  let second := storeImage (mkBlob content type2) now2 first.2 in
  second.1 = first.1 /\
  second.2 !! second.1 =
    Some (mkStoredImage second.1 (mkBlob content type2) type2 now2) /\
  (forall id, id <> first.1 -> second.2 !! id = first.2 !! id) /\
  dom second.2 = dom first.2 /\
  size second.2 = size first.2 /\
  (getStorageSize second.2).1 = (getStorageSize first.2).1.
Proof.
  cbn zeta. rewrite !storeImage_eq. cbn [fst snd].
  change (generateImageId (mkBlob content type2))
    with (generateImageId (mkBlob content type1)).
  set (id := generateImageId (mkBlob content type1)).
  split; [reflexivity|].
  split; [apply lookup_insert_eq|].
  split; [intros k Hk; rewrite !lookup_insert_ne by congruence; reflexivity|].
  split; [rewrite insert_insert_eq, !dom_insert_L; reflexivity|].
  split.
  - rewrite (map_size_insert_Some id); [reflexivity|].
    rewrite lookup_insert_eq. eauto.
  - eapply storage_size_overwrite; [apply lookup_insert_eq|reflexivity].
Qed.

(** C6 as stated fails: the second call is not a no-op. It rewrites the
    record (here with the later time), and when the same bytes come with
    another type the stored blob changes with it, as [getImage] shows. *)
Lemma C6_second_store_is_not_a_noop :
  let png := mkBlob (list_byte_of_string "abc") "image/png" in
  let jpeg := mkBlob (list_byte_of_string "abc") "image/jpeg" in
  let db1 := (storeImage png 1 ∅).2 in
  (storeImage png 2 db1).1 = "img-ba7816bf8f01cfea" /\
  (storeImage png 1 ∅).1 = "img-ba7816bf8f01cfea" /\
  (storeImage png 2 db1).2 <> db1 /\
  (getImage "img-ba7816bf8f01cfea" db1).1 = Some "data:image/png;base64,YWJj" /\
  (getImage "img-ba7816bf8f01cfea" (storeImage jpeg 2 db1).2).1 =
    Some "data:image/jpeg;base64,YWJj".
Proof.
  cbn zeta. split; [vm_compute; reflexivity|]. split; [vm_compute; reflexivity|].
  split.
  - intros H.
    apply (f_equal (fun m : database => img_createdAt <$> m !! "img-ba7816bf8f01cfea")) in H.
    vm_compute in H. discriminate.
  - split; vm_compute; reflexivity.
Qed.

Lemma cleanup_loop_spec (markdown : string) (ids : list string) :
  forall (count : nat) (db : database),
    NoDup ids ->
    (forall id, id ∈ ids -> is_Some (db !! id)) ->
    exists n db',
      cleanup_loop markdown ids count db = (n, db') /\
      (forall k, db' !! k =
                 if decide (k ∈ ids /\ includes k markdown = false) then None else db !! k) /\
      n + size db' = count + size db.
Proof.
  induction ids as [|id ids IH]; intros count db Hnd Hin.
  - exists count, db. split; [reflexivity|]. split; [|reflexivity].
    intros k. case_decide as H; [|reflexivity]. destruct H as [H _]. inversion H.
  - apply NoDup_cons in Hnd as [Hid Hnd]. cbn [cleanup_loop].
    destruct (includes id markdown) eqn:Hinc; cbn [negb].
    + destruct (IH count db Hnd) as (n & db' & Hrun & Hlook & Hsize).
      { intros k Hk. apply Hin. right. exact Hk. }
      exists n, db'. split; [exact Hrun|]. split; [|exact Hsize].
      intros k. rewrite Hlook.
      repeat case_decide; try reflexivity.
      * exfalso. apply H0. destruct H as [? ?]. split; [right|]; assumption.
      * exfalso. destruct H0 as [Hk Hf]. apply H. split; [|exact Hf].
        apply elem_of_cons in Hk as [->|Hk]; [congruence|exact Hk].
    + change ((_ ← deleteImage id; cleanup_loop markdown ids (count + 1)) db)
        with (cleanup_loop markdown ids (count + 1) (delete id db)).
      destruct (IH (count + 1) (delete id db) Hnd) as (n & db' & Hrun & Hlook & Hsize).
      { intros k Hk. rewrite lookup_delete_ne; [apply Hin; right; exact Hk|].
        intros ->. contradiction. }
      exists n, db'. split; [exact Hrun|]. split.
      * intros k. rewrite Hlook.
        destruct (decide (k = id)) as [->|Hne].
        -- rewrite lookup_delete_eq.
           assert (id ∈ id :: ids /\ includes id markdown = false) as Hyes
             by (split; [left|exact Hinc]).
           repeat case_decide; try reflexivity; contradiction.
        -- rewrite lookup_delete_ne by congruence.
           repeat case_decide; try reflexivity.
           ++ exfalso. apply H0. destruct H as [? ?]. split; [right|]; assumption.
           ++ exfalso. destruct H0 as [Hk Hf]. apply H. split; [|exact Hf].
              apply elem_of_cons in Hk as [->|Hk]; [congruence|exact Hk].
      * rewrite map_size_delete_Some in Hsize by (apply Hin; left).
        assert (size db <> 0) as Hpos.
        { destruct (Hin id) as [x Hx]; [left|].
          intros Hz. apply map_size_empty_iff in Hz. subst db.
          rewrite lookup_empty in Hx. discriminate. }
        lia.
Qed.

Lemma cleanup_spec (markdown : string) (db : database) :
  exists n db',
    cleanupUnusedImages markdown db = (n, db') /\
    (forall id, db' !! id = if includes id markdown then db !! id else None) /\
    n + size db' = size db.
Proof.
  destruct (cleanup_loop_spec markdown (map_to_list db).*1 0 db)
    as (n & db' & Hrun & Hlook & Hsize).
  { apply NoDup_fst_map_to_list. }
  { intros id Hid. apply list_elem_of_fmap in Hid as ([k x] & -> & Hkx).
    apply elem_of_map_to_list in Hkx. eauto. }
  exists n, db'. split; [exact Hrun|]. split; [|exact Hsize].
  intros id. rewrite Hlook.
  destruct (includes id markdown) eqn:Hinc.
  - rewrite decide_False; [reflexivity|]. intros [_ ?]. discriminate.
  - case_decide as H; [reflexivity|].
    destruct (db !! id) as [x|] eqn:Hx; [|reflexivity].
    exfalso. apply H. split; [|reflexivity].
    apply list_elem_of_fmap. exists (id, x). split; [reflexivity|].
    apply elem_of_map_to_list. exact Hx.
Qed.

(** C7: [cleanupUnusedImages] deletes the stored images whose identifier is
    not a substring of the text and no other, returns how many it deleted,
    and deletes nothing when called again with the same text. *)
Theorem C7_cleanup_removes_unreferenced (markdown : string) (db : database) :
  let result := cleanupUnusedImages markdown db in
  (forall id, result.2 !! id = if includes id markdown then db !! id else None) /\
  result.1 + size result.2 = size db /\
  cleanupUnusedImages markdown result.2 = (0, result.2).
Proof.
  cbn zeta.
  destruct (cleanup_spec markdown db) as (n & db' & Hrun & Hlook & Hsize).
  rewrite Hrun. cbn [fst snd]. split; [exact Hlook|]. split; [exact Hsize|].
  destruct (cleanup_spec markdown db') as (n2 & db2 & Hrun2 & Hlook2 & Hsize2).
  assert (db2 = db') as ->.
  { apply map_eq. intros id. rewrite Hlook2, Hlook.
    destruct (includes id markdown); reflexivity. }
  rewrite Hrun2. f_equal. lia.
Qed.

(** ** Overlapping resolution passes *)

Lemma step_applied (db : database) (c : component) (e : event) :
  resolvedHtml (step db c e).1 =
    match (step db c e).2 with
    | Some html => html
    | None => resolvedHtml c
    end.
Proof.
  destruct e as [slidesHtml|n]; cbn [step].
  - destruct (imageIds slidesHtml); reflexivity.
  - destruct (find_pass n (inflight c)) as [[html [|imageId [|id2 ids]]]|]; reflexivity.
Qed.

Lemma last_cons_default {A} (x d : A) (l : list A) :
  List.last (x :: l) d = List.last l x.
Proof.
  revert x d. induction l as [|y l IH]; intros x d; [reflexivity|].
  change (List.last (x :: y :: l) d) with (List.last (y :: l) d).
  rewrite (IH y d), (IH y x). reflexivity.
Qed.

Lemma run_last_applied (db : database) (c : component) (es : list event) :
  resolvedHtml (run db c es).1 = List.last (run db c es).2 (resolvedHtml c).
Proof.
  revert c. induction es as [|e es IH]; intros c; [reflexivity|].
  cbn [run]. pose proof (step_applied db c e) as Hstep.
  destruct (step db c e) as [c' applied]. cbn [fst snd] in Hstep.
  specialize (IH c'). destruct (run db c' es) as [c'' rest]. cbn [fst snd] in *.
  rewrite IH, Hstep. destruct applied as [html|]; [|reflexivity].
  rewrite last_cons_default. reflexivity.
Qed.

Lemma run_cons (db : database) (c : component) (e : event) (es : list event) :
  (run db c (e :: es)).1 = (run db (step db c e).1 es).1.
Proof.
  cbn [run]. destruct (step db c e) as [c' applied]. cbn [fst].
  destruct (run db c' es) as [c'' rest]. reflexivity.
Qed.

Lemma find_pass_app (n : nat) (ps qs : list (nat * pass)) (p : pass) :
  find_pass n ps = Some p -> find_pass n (ps ++ qs) = Some p.
Proof.
  induction ps as [|[m q] ps IH]; intros H; [discriminate|].
  cbn [find_pass app] in *. destruct (m =? n)%nat; [exact H|apply IH, H].
Qed.

Lemma find_pass_new (n : nat) (ps : list (nat * pass)) (p : pass) :
  Forall (fun e => fst e < n) ps -> find_pass n (ps ++ [(n, p)]) = Some p.
Proof.
  induction ps as [|[m q] ps IH]; intros H.
  - cbn [find_pass app]. rewrite Nat.eqb_refl. reflexivity.
  - apply Forall_cons in H as [Hm H]. cbn [fst] in Hm.
    cbn [find_pass app]. destruct (Nat.eqb_spec m n) as [->|_]; [lia|apply IH, H].
Qed.

Lemma find_pass_remove (n m : nat) (ps : list (nat * pass)) :
  m <> n -> find_pass n (remove_pass m ps) = find_pass n ps.
Proof.
  intros Hne. induction ps as [|[k q] ps IH]; [reflexivity|].
  unfold remove_pass in *. cbn [List.filter fst find_pass].
  destruct (Nat.eqb_spec k m) as [->|Hk]; cbn [negb].
  - destruct (Nat.eqb_spec m n) as [->|_]; [contradiction|exact IH].
  - cbn [find_pass]. rewrite IH. reflexivity.
Qed.

Lemma find_pass_update (n m : nat) (p : pass) (ps : list (nat * pass)) :
  find_pass n (update_pass m p ps) =
    if (m =? n)%nat
    then match find_pass n ps with Some _ => Some p | None => None end
    else find_pass n ps.
Proof.
  induction ps as [|[k q] ps IH]; [destruct (m =? n)%nat; reflexivity|].
  unfold update_pass in *. cbn [map fst find_pass].
  destruct (Nat.eqb_spec k m) as [->|Hk]; cbn [find_pass].
  - destruct (Nat.eqb_spec m n) as [->|_]; [reflexivity|exact IH].
  - rewrite IH. destruct (Nat.eqb_spec k n) as [->|_]; [|reflexivity].
    destruct (Nat.eqb_spec m n) as [->|_]; [contradiction|reflexivity].
Qed.

(** A step leaves a pass it does not settle as it is. *)
Lemma step_keeps_pass (db : database) (c : component) (e : event) (n : nat) (p : pass) :
  e <> Settle n ->
  find_pass n (inflight c) = Some p ->
  find_pass n (inflight (step db c e).1) = Some p.
Proof.
  intros He Hn. destruct e as [slidesHtml|m]; cbn [step].
  - destruct (imageIds slidesHtml); cbn [fst inflight]; [exact Hn|].
    apply find_pass_app, Hn.
  - assert (m <> n) as Hm by congruence.
    destruct (find_pass m (inflight c)) as [[html [|imageId [|id2 ids]]]|];
      cbn [fst inflight]; try exact Hn.
    + rewrite find_pass_remove by exact Hm. exact Hn.
    + rewrite find_pass_update. destruct (Nat.eqb_spec m n); [contradiction|exact Hn].
Qed.

Lemma event_eq_settle (e : event) (n : nat) : e = Settle n \/ e <> Settle n.
Proof.
  destruct e as [s|m]; [right; discriminate|].
  destruct (Nat.eq_dec m n) as [->|H]; [left; reflexivity|right; congruence].
Qed.

Lemma resolve_loop_cons (imageId : string) (ids : list string) (html : string)
    (db : database) :
  resolve_loop (imageId :: ids) html db =
    resolve_loop ids (substitute imageId (getImage imageId db).1 html) db.
Proof. reflexivity. Qed.

(** A pass in flight whose awaited [getImage] settles once for each of its
    pending identifiers hands over the string that the loop of
    [resolveImages] gives for them, whatever else starts, settles or ends
    in between. *)
Lemma pass_runs_to_completion (db : database) (es : list event) :
  forall (c : component) (n : nat) (html imageId : string) (ids : list string),
    find_pass n (inflight c) = Some (mkPass html (imageId :: ids)) ->
    settles n es = length ids ->
    resolvedHtml (run db c (es ++ [Settle n])).1 =
      (resolve_loop (imageId :: ids) html db).1.
Proof.
  induction es as [|e es IH]; intros c n html imageId ids Hn Hs.
  - destruct ids as [|id2 ids]; [|discriminate].
    cbn [app run step]. rewrite Hn. reflexivity.
  - cbn [app]. rewrite run_cons.
    destruct (event_eq_settle e n) as [->|He].
    + unfold settles in Hs. cbn [List.filter] in Hs. rewrite Nat.eqb_refl in Hs.
      destruct ids as [|id2 ids]; [discriminate|].
      cbn [length] in Hs. injection Hs as Hs.
      rewrite resolve_loop_cons. apply IH; [|exact Hs].
      cbn [step]. rewrite Hn. cbn [fst inflight].
      rewrite find_pass_update, Nat.eqb_refl, Hn. reflexivity.
    + apply IH; [apply step_keeps_pass; assumption|].
      rewrite <- Hs. unfold settles. cbn [List.filter].
      destruct e as [s|m]; [reflexivity|].
      destruct (Nat.eqb_spec m n) as [->|_]; [contradiction|reflexivity].
Qed.

Lemma step_names_below (db : database) (c : component) (e : event) :
  names_below c -> names_below (step db c e).1.
Proof.
  unfold names_below. intros H. destruct e as [slidesHtml|n]; cbn [step].
  - assert (Forall (fun e => fst e < S (started c)) (inflight c)) as H'
      by (eapply Forall_impl; [exact H|]; cbn beta; intros; lia).
    destruct (imageIds slidesHtml); cbn [fst inflight started]; [exact H'|].
    apply Forall_app. split; [exact H'|]. constructor; [cbn [fst]; lia|constructor].
  - destruct (find_pass n (inflight c)) as [[html [|imageId [|id2 ids]]]|];
      cbn [fst inflight started]; try exact H.
    + unfold remove_pass. induction H as [|x ps Hx _ IH]; [constructor|].
      cbn [List.filter]. destruct (negb (x.1 =? n)%nat); [constructor|]; assumption.
    + unfold update_pass. induction H as [|[k q] ps Hx _ IH]; [constructor|].
      cbn [map fst] in *. constructor; [|exact IH].
      destruct (Nat.eqb_spec k n) as [->|_]; exact Hx.
Qed.

Lemma run_names_below (db : database) (es : list event) (c : component) :
  names_below c -> names_below (run db c es).1.
Proof.
  revert c. induction es as [|e es IH]; intros c H; [exact H|].
  rewrite run_cons. apply IH, step_names_below, H.
Qed.

(** C8, as the source has it: a pass carries no sequence number and nothing
    is discarded. In any state the component reaches from its mount, a pass
    that is started for [slidesHtml] and whose awaited [getImage] settles
    once for each identifier of [slidesHtml] hands the result of
    [resolveImages] for [slidesHtml] to [setResolvedHtml] at its last
    settlement, whatever passes were started or have ended in between, the
    passes of newer texts among them; a pass without identifiers does so
    when it is started. After any run the rendered string is the one of the
    pass that ended last, whatever the order in which the passes were
    started. *)
Theorem C8_last_finished_pass_is_shown (db : database) (slidesHtml0 : string)
    (before : list event) (slidesHtml : string) (between : list event) :
  let c := (run db (mount slidesHtml0) before).1 in
  let n := started c in
  let r := run db c (Render slidesHtml :: between ++ [Settle n]) in
  (settles n between + 1 = length (imageIds slidesHtml) ->
   resolvedHtml r.1 = (resolveImages slidesHtml db).1 /\
   List.last r.2 (resolvedHtml c) = (resolveImages slidesHtml db).1) /\
  (imageIds slidesHtml = [] ->
   resolvedHtml (run db c [Render slidesHtml]).1 = (resolveImages slidesHtml db).1) /\
  (forall c es,
     resolvedHtml (run db c es).1 = List.last (run db c es).2 (resolvedHtml c)).
Proof.
  cbn zeta. set (c := (run db (mount slidesHtml0) before).1).
  split; [|split; [|apply run_last_applied]].
  - intros Hs.
    assert (resolvedHtml (run db c (Render slidesHtml :: between ++ [Settle (started c)])).1 =
            (resolveImages slidesHtml db).1) as E.
    { assert (names_below c) as Hc by (apply run_names_below; constructor).
      rewrite run_cons. unfold resolveImages.
      destruct (imageIds slidesHtml) as [|imageId ids] eqn:Hids;
        [cbn [length] in Hs; lia|].
      apply pass_runs_to_completion.
      - cbn [step]. rewrite Hids. cbn [fst inflight].
        apply find_pass_new, Hc.
      - cbn [length] in Hs. lia. }
    split; [exact E|]. rewrite <- run_last_applied. exact E.
  - intros Hids. unfold resolveImages. rewrite Hids.
    cbn [run step]. rewrite Hids. reflexivity.
Qed.

Lemma C8_last_finished_pass_is_shown_witness :
  let db := (storeImage (mkBlob (list_byte_of_string "abc") "image/png") 1 ∅).2 in
  let older := markdownToSlides (lit "<img src='img-ba7816bf8f01cfea'>") in
  let newer := markdownToSlides "# Title" in
  settles 0 [Render newer] + 1 = length (imageIds older) /\
  resolvedHtml (run db (mount older) [Render older; Render newer; Settle 0]).1 =
    (resolveImages older db).1.
Proof.
  cbn zeta. split; [vm_compute; reflexivity|].
  refine (proj1 (proj1 (C8_last_finished_pass_is_shown
                          _ _ [] _ [Render (markdownToSlides "# Title")]) _)).
  vm_compute. reflexivity.
Defined.

(** C8 as stated fails: the pass of an older text that ends after the pass
    of the newer text replaces the newer result. Pass 0 is started for the
    slide with the image alone, pass 1 for the slide with a title added;
    pass 1 ends first, then pass 0, and the title is gone from what is
    shown. *)
Lemma C8_stale_pass_overwrites_newer :
  let db := (storeImage (mkBlob (list_byte_of_string "abc") "image/png") 1 ∅).2 in
  let older := markdownToSlides (lit "<img src='img-ba7816bf8f01cfea'>") in
  let newer := markdownToSlides (lit "# Title\n\n<img src='img-ba7816bf8f01cfea'>") in
  let r := run db (mount older) [Render older; Render newer; Settle 1; Settle 0] in
  r.2 = [(resolveImages newer db).1; (resolveImages older db).1] /\
  resolvedHtml r.1 = (resolveImages older db).1 /\
  resolvedHtml r.1 <> (resolveImages newer db).1 /\
  resolvedHtml r.1 =
    lit "<section><img class='fragment' src='data:image/png;base64,YWJj'></section>".
Proof.
  cbn zeta. split; [vm_compute; reflexivity|]. split; [vm_compute; reflexivity|].
  split; [vm_compute; discriminate|vm_compute; reflexivity].
Qed.

(** ** Export *)

(** C9 at a document whose alternative text is a dollar sign and an
    ampersand: [String.prototype.replace] expands that pair in the
    replacement into the matched text, so the exported document holds the
    reference twice, nested, and compiles to a slide with a fragment image,
    while the document itself compiles and resolves to a slide with a link
    and no fragment. With a dollar sign and an apostrophe the text after
    the reference is copied into the brackets, and when it holds a slide
    delimiter the export has one slide more. The same holds when the
    references are resolved in the text before it is compiled. *)
Theorem C9_export_expands_dollar_patterns :
  let db := (storeImage (mkBlob (list_byte_of_string "abc") "image/png") 1 ∅).2 in
  let doc := "![$&](img-ba7816bf8f01cfea)" in
  let doc' := lit "![$\'](img-ba7816bf8f01cfea)\n---\nB" in
  (exportWithInlinedImages doc db).1 =
    "![![$&](img-ba7816bf8f01cfea)](data:image/png;base64,YWJj)" /\
  markdownToSlides (exportWithInlinedImages doc db).1 =
    lit "<section><p>!<a href='img-ba7816bf8f01cfea'><img class='fragment' src='data:image/png;base64,YWJj' alt='$&</a>' /></p></section>" /\
  (resolveImages (markdownToSlides doc) db).1 =
    lit "<section><p>!<a href='data:image/png;base64,YWJj'>$&</a></p></section>" /\
  count_str "fragment" (markdownToSlides (exportWithInlinedImages doc db).1) = 1 /\
  count_str "fragment" (resolveImages (markdownToSlides doc) db).1 = 0 /\
  (exportWithInlinedImages doc' db).1 =
    lit "![\n---\nB](data:image/png;base64,YWJj)\n---\nB" /\
  length (slides (exportWithInlinedImages doc' db).1) = 3 /\
  length (slides doc') = 2 /\
  count_str "<section>" (resolveImages (markdownToSlides doc') db).1 = 2 /\
  count_str "fragment" (markdownToSlides (resolveImages doc db).1) = 0 /\
  length (slides (resolveImages doc' db).1) = 2.
Proof. cbn zeta. repeat split; vm_compute; reflexivity. Qed.

(** * Further properties of the code *)

Import App ImageImportModal.

(** ** The image store: how the operations compose *)

Lemma deleteImage_eq (id : string) (db : database) :
  deleteImage id db = (tt, delete id db).
Proof. reflexivity. Qed.

(** X1: an image that was stored is read back as the data URL of its blob
    under the identifier that [storeImage] returned, whatever the store held
    before, and reading any other identifier gives what it gave before. *)
Theorem X1_store_then_get (db : database) (blob : Blob) (now : N) :
  let stored := storeImage blob now db in
  getImage stored.1 stored.2 = (Some (readAsDataURL blob), stored.2) /\
  (forall id, id <> stored.1 -> (getImage id stored.2).1 = (getImage id db).1).
Proof.
  cbn zeta. rewrite storeImage_eq. cbn [fst snd]. split.
  - rewrite getImage_eq, lookup_insert_eq. reflexivity.
  - intros id Hid. rewrite !getImage_eq. cbn [fst].
    rewrite lookup_insert_ne by congruence. reflexivity.
Qed.

(** X2: after [deleteImage] the identifier reads as absent and the other
    entries are untouched; deleting an identifier that is not stored leaves
    the store as it is; and deleting an image right after it was stored
    under a fresh identifier gives the store back. *)
Theorem X2_delete_image (db : database) (id : string) :
  (getImage id (deleteImage id db).2).1 = None /\
  (forall id', id' <> id -> (deleteImage id db).2 !! id' = db !! id') /\
  (db !! id = None -> (deleteImage id db).2 = db) /\
  (forall blob now,
     db !! generateImageId blob = None ->
     (deleteImage (generateImageId blob) (storeImage blob now db).2).2 = db).
Proof.
  rewrite deleteImage_eq. cbn [snd]. split; [|split; [|split]].
  - rewrite getImage_eq, lookup_delete_eq. reflexivity.
  - intros id' Hne. apply lookup_delete_ne. congruence.
  - intros Hnone. apply delete_id, Hnone.
  - intros blob now Hnone. rewrite storeImage_eq, deleteImage_eq. cbn [snd].
    rewrite delete_insert_eq. apply delete_id, Hnone.
Qed.

Lemma X2_delete_image_witness :
  (∅ : database) !! "img-0000000000000000" = None /\
  (deleteImage "img-0000000000000000" ∅).2 = (∅ : database).
Proof.
  split; [apply lookup_empty|].
  apply (X2_delete_image ∅ "img-0000000000000000"). apply lookup_empty.
Defined.

Lemma storage_size_insert_fresh (db : database) (id : string) (image : StoredImage) :
  db !! id = None ->
  (getStorageSize (<[id := image]> db)).1 =
    (getStorageSize db).1 + blob_size (img_blob image).
Proof.
  intros Hnone. rewrite !getStorageSize_eq. cbn [fst]. rewrite !fold_left_sizes.
  assert ((map_to_list (<[id:=image]> db)).*2 ≡ₚ image :: (map_to_list db).*2) as ->.
  { change (image :: (map_to_list db).*2) with (((id, image) :: map_to_list db).*2).
    apply fmap_Permutation, map_to_list_insert, Hnone. }
  simpl. lia.
Qed.

(** X3: the total size is zero for the empty store, grows by the size of
    the blob when an image is stored under an identifier that was absent,
    and shrinks by the size of the stored blob when an image is deleted. *)
Theorem X3_storage_size_accounting (db : database) :
  (getStorageSize (∅ : database)).1 = 0 /\
  (forall blob now,
     db !! generateImageId blob = None ->
     (getStorageSize (storeImage blob now db).2).1 =
       (getStorageSize db).1 + blob_size blob) /\
  (forall id image,
     db !! id = Some image ->
     (getStorageSize (deleteImage id db).2).1 + blob_size (img_blob image) =
       (getStorageSize db).1).
Proof.
  split; [reflexivity|]. split.
  - intros blob now Hnone. rewrite storeImage_eq. cbn [snd].
    rewrite storage_size_insert_fresh by exact Hnone. reflexivity.
  - intros id image Hsome. rewrite deleteImage_eq. cbn [snd].
    rewrite <- (insert_delete_id db id image Hsome) at 2.
    rewrite storage_size_insert_fresh by apply lookup_delete_eq. reflexivity.
Qed.

Lemma X3_storage_size_accounting_witness :
  let blob := mkBlob (list_byte_of_string "abc") "image/png" in
  (∅ : database) !! generateImageId blob = None /\
  (getStorageSize (storeImage blob 1 ∅).2).1 = (getStorageSize (∅ : database)).1 + 3.
Proof.
  cbn zeta. split; [apply lookup_empty|].
  apply (proj1 (proj2 (X3_storage_size_accounting ∅))). apply lookup_empty.
Defined.

(** ** References to images that are not stored *)

Lemma resolve_loop_store (ids : list string) :
  forall html db, (resolve_loop ids html db).2 = db.
Proof.
  induction ids as [|id ids IH]; intros html db; [reflexivity|].
  change (resolve_loop (id :: ids) html db)
    with (resolve_loop ids (substitute id (getImage id db).1 html) db).
  apply IH.
Qed.

Lemma resolve_loop_missing (ids : list string) :
  forall html (db : database),
    (forall id, id ∈ ids -> db !! id = None) ->
    resolve_loop ids html db = (html, db).
Proof.
  induction ids as [|id ids IH]; intros html db Hmiss; [reflexivity|].
  change (resolve_loop (id :: ids) html db)
    with (resolve_loop ids (substitute id (getImage id db).1 html) db).
  rewrite getImage_eq, (Hmiss id) by left. cbn [fst substitute truthy].
  apply IH. intros id' Hin. apply Hmiss. right. exact Hin.
Qed.

(** X4: [resolveImages] reads the store and never changes it, and when none
    of the identifiers found in the markup is stored it returns the markup
    as it is, the references left in place; so it does for every markup
    with the empty store. *)
Theorem X4_resolve_missing_images (html : string) (db : database) :
  (resolveImages html db).2 = db /\
  ((forall id, id ∈ imageIds html -> db !! id = None) ->
   resolveImages html db = (html, db)) /\
  resolveImages html ∅ = (html, ∅).
Proof.
  unfold resolveImages. split; [apply resolve_loop_store|]. split.
  - apply resolve_loop_missing.
  - apply resolve_loop_missing. intros id _. apply lookup_empty.
Qed.

Lemma X4_resolve_missing_images_witness :
  let html := lit "<img src='img-0123456789abcdef'>" in
  let db := (storeImage (mkBlob (list_byte_of_string "abc") "image/png") 1 ∅).2 in
  (forall id, id ∈ imageIds html -> db !! id = None) /\
  resolveImages html db = (html, db).
Proof.
  cbn zeta.
  assert (forall id,
    id ∈ imageIds (lit "<img src='img-0123456789abcdef'>") ->
    (storeImage (mkBlob (list_byte_of_string "abc") "image/png") 1 ∅).2 !! id = None) as H.
  { intros id Hin. change (id ∈ ["img-0123456789abcdef"]) in Hin.
    apply list_elem_of_singleton in Hin. subst id. vm_compute. reflexivity. }
  split; [exact H|].
  apply (proj1 (proj2 (X4_resolve_missing_images _ _))). exact H.
Defined.

Lemma export_md_loop_missing (ms : list (string * captures)) :
  forall result (db : database),
    (forall m, m ∈ ms -> db !! capture_text 2 (snd m) = None) ->
    export_md_loop ms result db = (result, db).
Proof.
  induction ms as [|[fullMatch caps] ms IH]; intros result db Hmiss; [reflexivity|].
  pose proof (Hmiss (fullMatch, caps) ltac:(left)) as Hnone. cbn [snd] in Hnone.
  cbn [export_md_loop]. unfold mbind, async_bind. rewrite getImage_eq, Hnone.
  cbn [truthy]. apply IH. intros m Hin. apply Hmiss. right. exact Hin.
Qed.

Lemma export_html_loop_missing (ms : list (string * captures)) :
  forall result (db : database),
    (forall m, m ∈ ms -> db !! capture_text 1 (snd m) = None) ->
    export_html_loop ms result db = (result, db).
Proof.
  induction ms as [|[fullMatch caps] ms IH]; intros result db Hmiss; [reflexivity|].
  pose proof (Hmiss (fullMatch, caps) ltac:(left)) as Hnone. cbn [snd] in Hnone.
  cbn [export_html_loop]. unfold mbind, async_bind. rewrite getImage_eq, Hnone.
  cbn [truthy]. apply IH. intros m Hin. apply Hmiss. right. exact Hin.
Qed.

(** X5: when none of the identifiers that a text references (as the target
    of an image reference or as the value of a src attribute) is stored,
    [exportWithInlinedImages] returns the text unchanged and leaves the
    store as it is; so it does for every text with the empty store. *)
Theorem X5_export_missing_images (markdown : string) (db : database) :
  ((forall id, id ∈ referencedIds markdown -> db !! id = None) ->
   exportWithInlinedImages markdown db = (markdown, db)) /\
  exportWithInlinedImages markdown ∅ = (markdown, ∅).
Proof.
  assert (forall db' : database,
    (forall id, id ∈ referencedIds markdown -> db' !! id = None) ->
    exportWithInlinedImages markdown db' = (markdown, db')) as H.
  { intros db' Hmiss. unfold exportWithInlinedImages, mbind, async_bind.
    rewrite export_md_loop_missing.
    - apply export_html_loop_missing. intros m Hin. apply Hmiss.
      unfold referencedIds. apply elem_of_app. right.
      apply list_elem_of_fmap. exists m. split; [reflexivity|exact Hin].
    - intros m Hin. apply Hmiss.
      unfold referencedIds. apply elem_of_app. left.
      apply list_elem_of_fmap. exists m. split; [reflexivity|exact Hin]. }
  split; [apply H|]. apply H. intros id _. apply lookup_empty.
Qed.

Lemma X5_export_missing_images_witness :
  let markdown := "![logo](img-0123456789abcdef)" in
  (forall id, id ∈ referencedIds markdown -> (∅ : database) !! id = None) /\
  exportWithInlinedImages markdown ∅ = (markdown, ∅).
Proof.
  cbn zeta. split; [intros id _; apply lookup_empty|].
  apply (proj1 (X5_export_missing_images _ ∅)). intros id _. apply lookup_empty.
Defined.

(** ** [escapeHtml] *)

Lemma escapeHtml_cons (c : ascii) (t : string) :
  escapeHtml (String c t) =
    (if (c =? "&")%char then "&amp;"
     else if (c =? "<")%char then "&lt;"
     else if (c =? ">")%char then "&gt;"
     else if (code c =? 160)%N then "&nbsp;"
     else String c "") +:+ escapeHtml t.
Proof. reflexivity. Qed.


(** The first character of the escaped text tells how the first character
    of the text was written: as itself, or as one of the four entities,
    which differ in their second character. *)
Lemma escapeHtml_head (c : ascii) (t : string) :
  (isMarkupChar c = false /\ escapeHtml (String c t) = String c (escapeHtml t)) \/
  (c = "&"%char /\ escapeHtml (String c t) = "&amp;" +:+ escapeHtml t) \/
  (c = "<"%char /\ escapeHtml (String c t) = "&lt;" +:+ escapeHtml t) \/
  (c = ">"%char /\ escapeHtml (String c t) = "&gt;" +:+ escapeHtml t) \/
  (code c = 160%N /\ escapeHtml (String c t) = "&nbsp;" +:+ escapeHtml t).
Proof.
  rewrite escapeHtml_cons. unfold isMarkupChar.
  destruct (Ascii.eqb_spec c "&") as [->|H1]; [right; left; split; reflexivity|].
  destruct (Ascii.eqb_spec c "<") as [->|H2]; [right; right; left; split; reflexivity|].
  destruct (Ascii.eqb_spec c ">") as [->|H3]; [do 3 right; left; split; reflexivity|].
  destruct (N.eqb_spec (code c) 160) as [H4|H4]; [do 4 right; split; [exact H4|reflexivity]|].
  left. split; reflexivity.
Qed.




(** X7: [escapeHtml] works character by character (the escaped form of a
    concatenation is the concatenation of the escaped forms) and returns a
    text that holds no ampersand, angle bracket or no-break space as it
    is. *)
Theorem X7_escapeHtml_plain_text :
  (forall s t, escapeHtml (s +:+ t) = escapeHtml s +:+ escapeHtml t) /\
  (forall s, forall_chars (fun c => negb (isMarkupChar c)) s = true -> escapeHtml s = s).
Proof.
  split.
  - intros s t. induction s as [|c s IH]; [reflexivity|].
    rewrite app_cons, !escapeHtml_cons, IH, app_assoc_str. reflexivity.
  - intros s. induction s as [|c s IH]; [reflexivity|]. intros H.
    cbn [forall_chars] in H. apply andb_prop in H as [Hc Hs].
    apply negb_true_iff in Hc.
    destruct (escapeHtml_head c s) as [[_ E]|[[-> _]|[[-> _]|[[-> _]|[Hn _]]]]];
      try discriminate.
    + rewrite E, (IH Hs). reflexivity.
    + unfold isMarkupChar in Hc. rewrite Hn in Hc. rewrite !orb_true_r in Hc. discriminate.
Qed.

Lemma X7_escapeHtml_plain_text_witness :
  forall_chars (fun c => negb (isMarkupChar c)) "let x = 1" = true /\
  escapeHtml "let x = 1" = "let x = 1".
Proof.
  split; [reflexivity|]. apply (proj2 X7_escapeHtml_plain_text). reflexivity.
Defined.

(** ** Lists on one level and lists with lost entries *)

Lemma takeWhile_none {A} (p : A -> bool) (l : list A) :
  match l with [] => True | x :: _ => p x = false end ->
  takeWhile p l = [] /\ dropWhile p l = l.
Proof. destruct l as [|x l]; [split; reflexivity|]. simpl. intros ->. split; reflexivity. Qed.

Lemma takeWhile_all {A} (p : A -> bool) (l : list A) :
  Forall (fun x => p x = true) l -> takeWhile p l = l /\ dropWhile p l = [].
Proof.
  induction 1 as [|x l Hx _ [IH1 IH2]]; [split; reflexivity|].
  simpl. rewrite Hx, IH1, IH2. split; reflexivity.
Qed.

Lemma listBody_flat (depth : nat) (items : list item) :
  Forall (fun it => indent it = depth * 2) items ->
  listBody items depth = concat_str (map plainEntry items).
Proof.
  induction 1 as [|it rest Hit Hrest IH]; [reflexivity|].
  rewrite listBody_sibling by exact Hit.
  destruct (takeWhile_none (deeper depth) rest) as [-> ->].
  { destruct Hrest as [|x l Hx _]; [exact I|].
    unfold deeper. rewrite Hx. apply Nat.ltb_irrefl. }
  rewrite IH. reflexivity.
Qed.

Lemma listBody_none (depth : nat) (items : list item) :
  Forall (fun it => indent it <> depth * 2) items -> listBody items depth = "".
Proof.
  induction 1 as [|it rest Hit _ IH]; [reflexivity|].
  rewrite listBody_skip by exact Hit. exact IH.
Qed.

(** X8: a list whose lines all have the indentation of the current level
    is written as one list with one fragment entry per line, in the order
    of the lines. *)
Theorem X8_flat_list (items : list item) (depth : nat) :
  Forall (fun it => indent it = depth * 2) items ->
  parseList items depth =
    lit "<ul>\n" +:+ concat_str (map plainEntry items) +:+ "</ul>".
Proof. intros H. rewrite parseList_unfold, (listBody_flat depth items H). reflexivity. Qed.

Lemma X8_flat_list_witness :
  Forall (fun it => indent it = 0 * 2) [Item 0 "a"; Item 0 "b"] /\
  parseList [Item 0 "a"; Item 0 "b"] 0 =
    lit "<ul>\n" +:+ concat_str (map plainEntry [Item 0 "a"; Item 0 "b"]) +:+ "</ul>".
Proof.
  assert (Forall (fun it => indent it = 0 * 2) [Item 0 "a"; Item 0 "b"]) as H
    by (repeat constructor).
  split; [exact H|]. apply (X8_flat_list _ 0 H).
Defined.

(** X9: entries are lost without notice when the indentation does not fit.
    A block none of whose lines has the indentation of the current level
    gives an empty list; and an entry followed only by lines that are
    deeper, but none by exactly one level, is written with an empty nested
    list, its deeper lines gone. *)
Theorem X9_misindented_items_are_dropped (depth : nat) :
  (forall items,
     Forall (fun it => indent it <> depth * 2) items ->
     parseList items depth = lit "<ul>\n</ul>") /\
  (forall it x rest,
     indent it = depth * 2 ->
     Forall (fun y => depth * 2 < indent y /\ indent y <> (depth + 1) * 2) (x :: rest) ->
     listBody (it :: x :: rest) depth =
       lit "<li class='fragment'>" +:+ text it +:+ lit "\n<ul>\n</ul></li>\n").
Proof.
  split.
  - intros items H. rewrite parseList_unfold, (listBody_none depth items H). reflexivity.
  - intros it x rest Hit Hrest.
    rewrite listBody_sibling by exact Hit.
    destruct (takeWhile_all (deeper depth) (x :: rest)) as [-> ->].
    { eapply Forall_impl; [exact Hrest|]. intros y [Hy _]. unfold deeper.
      apply Nat.ltb_lt. exact Hy. }
    unfold listEntry. cbn [length Nat.ltb Nat.leb].
    rewrite parseList_unfold, listBody_none.
    + rewrite listBody_nil, app_nil_r. rewrite !app_assoc_str. reflexivity.
    + eapply Forall_impl; [exact Hrest|]. intros y [_ Hy]. exact Hy.
Qed.

Lemma X9_misindented_items_are_dropped_witness :
  Forall (fun it => indent it <> 0 * 2) [Item 2 "a"; Item 4 "b"] /\
  parseList [Item 2 "a"; Item 4 "b"] 0 = lit "<ul>\n</ul>" /\
  indent (Item 0 "a") = 0 * 2 /\
  Forall (fun y => 0 * 2 < indent y /\ indent y <> (0 + 1) * 2) [Item 4 "b"] /\
  listBody [Item 0 "a"; Item 4 "b"] 0 =
    lit "<li class='fragment'>" +:+ text (Item 0 "a") +:+ lit "\n<ul>\n</ul></li>\n".
Proof.
  assert (Forall (fun it => indent it <> 0 * 2) [Item 2 "a"; Item 4 "b"]) as H1
    by (repeat constructor; simpl; lia).
  assert (Forall (fun y => 0 * 2 < indent y /\ indent y <> (0 + 1) * 2) [Item 4 "b"]) as H2
    by (repeat constructor; simpl; lia).
  split; [exact H1|]. split; [apply (proj1 (X9_misindented_items_are_dropped 0) _ H1)|].
  split; [reflexivity|]. split; [exact H2|].
  apply (proj2 (X9_misindented_items_are_dropped 0) (Item 0 "a") (Item 4 "b") []);
    [reflexivity|exact H2].
Defined.

(** ** White space around a slide *)

Lemma trimStart_ws (s : string) :
  forall_chars isWhiteSpace s = true -> trimStart_go s = "".
Proof.
  induction s as [|c s IH]; [reflexivity|]. cbn [forall_chars]. intros H.
  apply andb_prop in H as [Hc Hs]. cbn [trimStart_go]. rewrite Hc. apply IH, Hs.
Qed.

Lemma trimStart_clean (s : string) : starts_clean (trimStart_go s).
Proof.
  induction s as [|c s IH]; [exact I|]. cbn [trimStart_go].
  destruct (isWhiteSpace c) eqn:Hc; [exact IH|exact Hc].
Qed.

Lemma trimStart_of_clean (u : string) : starts_clean u -> trimStart_go u = u.
Proof. destruct u as [|c u]; [reflexivity|]. cbn. intros ->. reflexivity. Qed.

Lemma trimEnd_clean (u : string) : starts_clean u -> starts_clean (trimEnd_go u).
Proof.
  destruct u as [|c u]; [intros _; exact I|]. cbn [starts_clean trimEnd_go]. intros Hc.
  destruct (trimEnd_go u); [rewrite Hc|]; exact Hc.
Qed.

Lemma trimEnd_idem (s : string) : trimEnd_go (trimEnd_go s) = trimEnd_go s.
Proof.
  induction s as [|c s IH]; [reflexivity|]. cbn [trimEnd_go].
  destruct (trimEnd_go s) as [|d t] eqn:Ht.
  - destruct (isWhiteSpace c) eqn:Hc; [reflexivity|]. cbn [trimEnd_go]. rewrite Hc. reflexivity.
  - change (trimEnd_go (String c (String d t)))
      with (match trimEnd_go (String d t) with
            | "" => if isWhiteSpace c then "" else String c ""
            | String a u => String c (String a u)
            end).
    rewrite IH. reflexivity.
Qed.

Lemma trim_idem (s : string) : trim (trim s) = trim s.
Proof.
  unfold trim.
  rewrite (trimStart_of_clean (trimEnd_go (trimStart_go s)))
    by apply trimEnd_clean, trimStart_clean.
  apply trimEnd_idem.
Qed.

(** X10: the white space around a segment does not show in its slide: the
    slide of a segment is the slide of its trimmed text, and a segment of
    white space only (as between two delimiters in a row) gives an empty
    section. *)
Theorem X10_slide_ignores_surrounding_space (slideContent : string) :
  slideHtml (trim slideContent) = slideHtml slideContent /\
  (forall_chars isWhiteSpace slideContent = true ->
   slideHtml slideContent = "<section></section>").
Proof.
  split.
  - unfold slideHtml. rewrite trim_idem. reflexivity.
  - intros H. unfold slideHtml, trim. rewrite (trimStart_ws _ H). vm_compute. reflexivity.
Qed.

Lemma X10_slide_ignores_surrounding_space_witness :
  forall_chars isWhiteSpace (lit " \n ") = true /\
  slideHtml (lit " \n ") = "<section></section>".
Proof.
  split; [reflexivity|].
  apply (proj2 (X10_slide_ignores_surrounding_space (lit " \n "))). reflexivity.
Defined.

(** ** The slide under the cursor *)

Lemma startsWith_length (p s : string) :
  startsWith p s = true -> String.length p <= String.length s.
Proof.
  revert s. induction p as [|a p IH]; intros s H; [simpl; lia|].
  destruct s as [|b s]; [discriminate|]. simpl in H.
  apply andb_prop in H as [_ H]. simpl. specialize (IH s H). lia.
Qed.

Lemma startsWith_take (p s : string) (n : nat) :
  startsWith p (take_str n s) = true -> startsWith p s = true.
Proof.
  revert s n. induction p as [|a p IH]; intros s n H; [reflexivity|].
  destruct n as [|n]; [destruct s; discriminate|].
  destruct s as [|b s]; [discriminate|]. simpl in *.
  apply andb_prop in H as [Hab H]. rewrite Hab. simpl. apply (IH s n H).
Qed.

Lemma startsWith_take_all (p s : string) (n : nat) :
  String.length p <= n -> startsWith p (take_str n s) = startsWith p s.
Proof.
  revert s n. induction p as [|a p IH]; intros s n H; [reflexivity|].
  destruct n as [|n]; [simpl in H; lia|].
  destruct s as [|b s]; [reflexivity|]. simpl in *.
  rewrite IH by lia. reflexivity.
Qed.

Lemma length_take_str (n : nat) (s : string) : String.length (take_str n s) <= n.
Proof.
  revert s. induction n as [|n IH]; intros s; [destruct s; simpl; lia|].
  destruct s as [|c s]; simpl; [lia|]. specialize (IH s). lia.
Qed.

Lemma take_str_all (n : nat) (s : string) : String.length s <= n -> take_str n s = s.
Proof.
  revert s. induction n as [|n IH]; intros s H.
  - destruct s; [reflexivity|simpl in H; lia].
  - destruct s as [|c s]; [reflexivity|]. simpl in *. rewrite IH by lia. reflexivity.
Qed.

Lemma take_take_str (n m : nat) (s : string) :
  n <= m -> take_str n (take_str m s) = take_str n s.
Proof.
  revert m s. induction n as [|n IH]; intros m s H.
  - destruct (take_str m s), s; reflexivity.
  - destruct m as [|m]; [lia|]. destruct s as [|c s]; [reflexivity|].
    simpl. rewrite IH by lia. reflexivity.
Qed.

Local Opaque delimiter.

Lemma matchAll_slide_short (s : string) :
  forall skip prev, String.length s < 5 -> matchAll_go false re_slide s skip prev = [].
Proof.
  induction s as [|c s IH]; intros skip prev H.
  - destruct skip; [|reflexivity]. cbn [matchAll_go]. rewrite exec_at_slide.
    destruct (startsWith delimiter "") eqn:E; [|reflexivity].
    apply startsWith_length in E. change (String.length delimiter) with 5 in E.
    simpl in E. lia.
  - destruct skip as [|k]; cbn [matchAll_go]; [|apply IH; simpl in H; lia].
    rewrite exec_at_slide.
    destruct (startsWith delimiter (String c s)) eqn:E.
    + apply startsWith_length in E. change (String.length delimiter) with 5 in E. lia.
    + apply IH. simpl in H. lia.
Qed.

Lemma matchAll_slide_prefix (rest : string) :
  forall n skip p1 p2,
    length (matchAll_go false re_slide (take_str n rest) skip p1) <=
    length (matchAll_go false re_slide rest skip p2).
Proof.
  induction rest as [|c rest IH]; intros n skip p1 p2.
  - assert (take_str n "" = "") as -> by (destruct n; reflexivity).
    destruct skip; cbn [matchAll_go]; [|lia]. rewrite !exec_at_slide. lia.
  - destruct n as [|n].
    { cbn [take_str]. rewrite matchAll_slide_short by (simpl; lia). simpl. lia. }
    cbn [take_str]. destruct skip as [|k]; cbn [matchAll_go]; [|apply IH].
    rewrite !exec_at_slide.
    destruct (startsWith delimiter (String c (take_str n rest))) eqn:E1.
    + rewrite (startsWith_take delimiter (String c rest) (S n) E1).
      cbn [length Nat.pred]. apply le_n_S, IH.
    + destruct (startsWith delimiter (String c rest)) eqn:E2.
      * destruct (Nat.lt_ge_cases (S n) 5) as [Hlt|Hge].
        -- rewrite matchAll_slide_short; [simpl; lia|].
           pose proof (length_take_str n rest). lia.
        -- rewrite <- (startsWith_take_all delimiter (String c rest) (S n)) in E2
             by exact Hge.
           cbn [take_str] in E2. congruence.
      * apply IH.
Qed.

Lemma split_matchAll_slide (rest : string) :
  forall skip cur fresh prev,
    length (split_go false re_slide rest skip cur fresh prev) =
    S (length (matchAll_go false re_slide rest skip prev)).
Proof.
  induction rest as [|c rest IH]; intros skip cur fresh prev.
  - destruct skip; cbn [split_go matchAll_go]; [|reflexivity].
    rewrite exec_at_slide.
    destruct (startsWith delimiter "") eqn:E; [|reflexivity].
    apply startsWith_length in E. change (String.length delimiter) with 5 in E.
    simpl in E. lia.
  - destruct skip as [|k]; cbn [split_go matchAll_go]; [|apply IH].
    rewrite exec_at_slide.
    destruct (startsWith delimiter (String c rest)); cbn [length Nat.pred]; rewrite IH; reflexivity.
Qed.

Local Transparent delimiter.

Lemma slides_count (markdown : string) :
  length (slides markdown) = S (length (matchAll false re_slide markdown)).
Proof.
  unfold slides. rewrite length_map. destruct markdown as [|c rest]; [reflexivity|].
  apply split_matchAll_slide.
Qed.

(** X11: the slide that the application asks the preview to show exists:
    [activeSlide] is always less than the number of slides that
    [markdownToSlides] makes of the same text. It does not decrease when
    the cursor moves forward, and with the cursor at the end of the text it
    is the last slide. *)
Theorem X11_active_slide_in_range (markdown : string) (cursorPos : nat) :
  activeSlide markdown cursorPos < length (slides markdown) /\
  (forall later, cursorPos <= later ->
     activeSlide markdown cursorPos <= activeSlide markdown later) /\
  (String.length markdown <= cursorPos ->
   S (activeSlide markdown cursorPos) = length (slides markdown)).
Proof.
  unfold activeSlide. rewrite slides_count. unfold matchAll. split; [|split].
  - apply Nat.lt_succ_r, matchAll_slide_prefix.
  - intros later Hle. rewrite <- (take_take_str cursorPos later markdown Hle).
    apply matchAll_slide_prefix.
  - intros Hend. rewrite take_str_all by exact Hend. reflexivity.
Qed.

Lemma X11_active_slide_in_range_witness :
  let markdown := lit "# A\n---\n# B\n---\n# C" in
  2 <= 9 /\
  activeSlide markdown 2 <= activeSlide markdown 9 /\
  String.length markdown <= 30 /\
  S (activeSlide markdown 30) = length (slides markdown).
Proof.
  cbn zeta. split; [lia|].
  split; [apply (proj1 (proj2 (X11_active_slide_in_range _ 2))); lia|].
  split; [vm_compute; lia|].
  apply (proj2 (proj2 (X11_active_slide_in_range _ 30))). vm_compute. lia.
Defined.

(** ** The shape of an image identifier *)

Lemma hexDigit_id_char (n : N) : isIdChar (hexDigit n) = true.
Proof.
  unfold hexDigit. generalize (N.to_nat n). intros k.
  do 16 (destruct k as [|k]; [reflexivity|]). reflexivity.
Qed.

Lemma hex_id_chars (bs : list N) : forall_chars isIdChar (hex bs) = true.
Proof.
  induction bs as [|b bs IH]; [reflexivity|].
  cbn [hex fold_right forall_chars]. fold (hex bs).
  rewrite !hexDigit_id_char, IH. reflexivity.
Qed.

Lemma length_hex (bs : list N) : String.length (hex bs) = 2 * length bs.
Proof.
  induction bs as [|b bs IH]; [reflexivity|].
  cbn [hex fold_right String.length length]. fold (hex bs). rewrite IH. lia.
Qed.

Lemma length_round (s : list N) (kw : N * N) :
  length (Sha256.round s kw) = length s.
Proof.
  unfold Sha256.round.
  destruct s as [|a [|b [|c [|d [|e [|f [|g [|h [|i s]]]]]]]]]; reflexivity.
Qed.

Lemma length_rounds (kws : list (N * N)) (s : list N) :
  length (fold_left Sha256.round kws s) = length s.
Proof.
  revert s. induction kws as [|kw kws IH]; intros s; [reflexivity|].
  cbn [fold_left]. rewrite IH. apply length_round.
Qed.

Lemma length_compress (h block : list N) :
  length (Sha256.compress h block) = length h.
Proof.
  unfold Sha256.compress. rewrite length_map, length_combine, length_rounds. lia.
Qed.

Lemma length_be_bytes (n : nat) (x : N) : length (Sha256.be_bytes n x) = n.
Proof. induction n as [|n IH]; [reflexivity|]. cbn [Sha256.be_bytes length]. rewrite IH. reflexivity. Qed.

Lemma length_flat_be (l : list N) : length (flat_map (Sha256.be_bytes 4) l) = 4 * length l.
Proof.
  induction l as [|x l IH]; [reflexivity|].
  cbn [flat_map]. rewrite length_app, length_be_bytes, IH. cbn [length]. lia.
Qed.

(** The digest has 32 bytes. *)
Lemma length_digest (msg : list N) : length (Sha256.digest msg) = 32.
Proof.
  unfold Sha256.digest. rewrite length_flat_be.
  assert (forall bs h, length (fold_left Sha256.compress bs h) = length h) as H.
  { induction bs as [|b bs IH]; intros h; [reflexivity|].
    cbn [fold_left]. rewrite IH. apply length_compress. }
  rewrite H. reflexivity.
Qed.

Lemma take_str_length (n : nat) (s : string) :
  n <= String.length s -> String.length (take_str n s) = n.
Proof.
  revert s. induction n as [|n IH]; intros s H; [destruct s; reflexivity|].
  destruct s as [|c s]; [simpl in H; lia|]. simpl in *. rewrite IH by lia. reflexivity.
Qed.

Lemma forall_chars_take (p : ascii -> bool) (n : nat) (s : string) :
  forall_chars p s = true -> forall_chars p (take_str n s) = true.
Proof.
  revert s. induction n as [|n IH]; intros s H; [destruct s; reflexivity|].
  destruct s as [|c s]; [reflexivity|]. simpl in *.
  apply andb_prop in H as [Hc Hs]. rewrite Hc, (IH s Hs). reflexivity.
Qed.

(** An exact repetition of a single-character matcher reads that many
    matching characters. *)
Lemma rep_exact_run (p : ascii -> bool) (k : mstate -> option mstate) (run : string) :
  forall (rest : string) (fuel pos : nat) (prev : option ascii) (caps : captures),
    forall_chars p run = true ->
    String.length run < fuel ->
    rep_loop (one p) [] true k fuel (String.length run) (Some (String.length run))
      (MState pos prev (run +:+ rest) caps) =
    k (MState (pos + String.length run) (last_prev run prev) rest caps).
Proof.
  induction run as [|c run IH]; intros rest fuel pos prev caps Hp Hfuel.
  - destruct fuel as [|fuel]; [simpl in Hfuel; lia|].
    cbn [rep_loop String.length last_prev]. rewrite app_nil_l, Nat.add_0_r. reflexivity.
  - destruct fuel as [|fuel]; [simpl in Hfuel; lia|].
    simpl in Hp. apply andb_prop in Hp as [Hc Hp].
    cbn [String.length rep_loop Nat.eqb negb andb option_map Nat.pred].
    rewrite clear_nil. cbn [ms_pos ms_prev ms_rest ms_caps].
    rewrite app_cons, one_cons, Hc.
    rewrite IH by (try assumption; simpl in Hfuel; lia).
    cbn [last_prev]. do 2 f_equal. lia.
Qed.

Lemma exec_image_id (prev : option ascii) (h rest : string) :
  String.length h = 16 -> forall_chars isIdChar h = true ->
  exec_at false imageIdRegex prev ("img-" +:+ h +:+ rest) = Some (20, []).
Proof.
  intros Hlen Hh. unfold exec_at, imageIdRegex, Times.
  rewrite rmatch_Seq, rmatch_Str.
  rewrite (eat_app "img-" (h +:+ rest)) by reflexivity.
  cbn [ms_pos ms_prev ms_rest ms_caps last_prev String.length Nat.add].
  rewrite rmatch_Rep_Cls. rewrite <- Hlen at 2 3.
  rewrite rep_exact_run.
  - cbn [ms_pos ms_caps]. rewrite Hlen. reflexivity.
  - exact Hh.
  - cbn [ms_rest]. rewrite length_app_str. lia.
Qed.

Lemma matchAll_go_skip m r (s : string) :
  forall prev, matchAll_go m r s (String.length s) prev =
               matchAll_go m r "" 0 (last_prev s prev).
Proof.
  induction s as [|c s IH]; intros prev; [reflexivity|].
  cbn [String.length matchAll_go last_prev]. apply IH.
Qed.

Lemma generateImageId_shape (blob : Blob) :
  exists h, generateImageId blob = "img-" +:+ h /\
            String.length h = 16 /\ forall_chars isIdChar h = true.
Proof.
  unfold generateImageId. eexists. split; [reflexivity|]. split.
  - apply take_str_length. rewrite length_hex, length_digest. lia.
  - apply forall_chars_take, hex_id_chars.
Qed.

(** X14: every identifier that the store generates is [img-] followed by
    exactly sixteen characters out of a-f and 0-9, and the pattern with
    which the preview looks for references finds it as one whole match. *)
Theorem X14_generated_id_is_recognised (blob : Blob) :
  startsWith "img-" (generateImageId blob) = true /\
  String.length (generateImageId blob) = 20 /\
  forall_chars isIdChar (drop_str 4 (generateImageId blob)) = true /\
  imageIds (generateImageId blob) = [generateImageId blob].
Proof.
  destruct (generateImageId_shape blob) as (h & -> & Hlen & Hh).
  assert (String.length ("img-" +:+ h) = 20) as Hid
    by (rewrite length_app_str, Hlen; reflexivity).
  split; [reflexivity|]. split; [exact Hid|]. split; [exact Hh|].
  unfold imageIds, matchAll.
  rewrite <- (app_nil_r ("img-" +:+ h)) at 1. rewrite app_assoc_str.
  change ("img-" +:+ h +:+ "") with (String "i" ("mg-" +:+ h +:+ "")).
  cbn [matchAll_go].
  change (String "i" ("mg-" +:+ h +:+ "")) with ("img-" +:+ h +:+ "").
  rewrite exec_image_id by assumption. rewrite app_nil_r.
  replace (Nat.pred 20) with (String.length ("mg-" +:+ h))
    by (rewrite length_app_str, Hlen; reflexivity).
  rewrite matchAll_go_skip. cbn [matchAll_go].
  rewrite take_str_all by lia.
  reflexivity.
Qed.

(** ** Passes that find nothing to replace *)

Lemma includes_cons (p : string) (c : ascii) (s : string) :
  includes p (String c s) = startsWith p (String c s) || includes p s.
Proof. reflexivity. Qed.

Lemma includes_startsWith (p s : string) :
  includes p s = false -> startsWith p s = false.
Proof. destruct s; cbn [includes]; intros H; apply orb_false_elim in H as [H _]; exact H. Qed.

Lemma forall_chars_app (p : ascii -> bool) (s t : string) :
  forall_chars p (s +:+ t) = forall_chars p s && forall_chars p t.
Proof.
  induction s as [|c s IH]; [reflexivity|].
  rewrite app_cons. cbn [forall_chars]. rewrite IH, andb_assoc. reflexivity.
Qed.

(** A literal whose first character does not occur in [s] is not found
    before the end of [s]. *)
Lemma includes_absent (a : ascii) (l s t : string) :
  forall_chars (fun c => negb (a =? c)%char) s = true ->
  includes (String a l) (s +:+ t) = includes (String a l) t.
Proof.
  induction s as [|c s IH]; intros H; [reflexivity|].
  cbn [forall_chars] in H. apply andb_prop in H as [Hc Hs].
  rewrite app_cons, includes_cons. cbn [startsWith].
  apply negb_true_iff in Hc. rewrite Hc. cbn [andb orb]. apply IH, Hs.
Qed.

(** The same for a literal whose second character occurs neither in [s]
    nor at the head of what follows. *)
Lemma includes_absent_second (a b : ascii) (l s t : string) :
  forall_chars (fun c => negb (b =? c)%char) s = true ->
  startsWith (String b "") t = false ->
  includes (String a (String b l)) (s +:+ t) = includes (String a (String b l)) t.
Proof.
  induction s as [|c s IH]; intros H Ht; [reflexivity|].
  cbn [forall_chars] in H. apply andb_prop in H as [Hc Hs].
  rewrite app_cons, includes_cons, (IH Hs Ht).
  replace (startsWith (String a (String b l)) (String c (s +:+ t))) with false;
    [reflexivity|].
  cbn [startsWith]. destruct (a =? c)%char; [|reflexivity]. cbn [andb].
  destruct s as [|d s].
  - rewrite app_nil_l. destruct t as [|e t]; [reflexivity|].
    cbn [startsWith] in Ht. rewrite andb_true_r in Ht. rewrite Ht. reflexivity.
  - rewrite app_cons. cbn [forall_chars] in Hs. apply andb_prop in Hs as [Hd _].
    apply negb_true_iff in Hd. rewrite Hd. reflexivity.
Qed.

Lemma exec_at_Str_miss m (l : string) (r' : regex) (prev : option ascii) (rest : string) :
  startsWith l rest = false -> exec_at m (Str l +> r') prev rest = None.
Proof.
  intros H. unfold exec_at. rewrite rmatch_Seq, rmatch_Str.
  pose proof (eat_startsWith l (MState 0 prev rest [])) as E.
  destruct (eat l (MState 0 prev rest [])); [|reflexivity].
  destruct E as [E _]. cbn [ms_rest] in E. congruence.
Qed.

Lemma replace_go_absent m (l : string) (r' : regex) (f : replacer) (str rest : string) :
  includes l rest = false ->
  forall pos prev, replace_go m (Str l +> r') f str rest 0 pos prev = rest.
Proof.
  induction rest as [|c rest IH]; intros H pos prev; cbn [replace_go];
    rewrite exec_at_Str_miss by (apply includes_startsWith, H); [reflexivity|].
  f_equal. apply IH. rewrite includes_cons in H. apply orb_false_elim in H as [_ H]. exact H.
Qed.

(** A pass whose pattern opens with a literal leaves a text without that
    literal as it is. *)
Lemma replace_absent m (l : string) (r' : regex) (template s : string) :
  includes l s = false -> replace m (Str l +> r') template s = s.
Proof. intros H. apply replace_go_absent, H. Qed.

Lemma replace_fn_absent m (l : string) (r' : regex) f (s : string) :
  includes l s = false -> replace_fn m (Str l +> r') f s = s.
Proof. intros H. apply replace_go_absent, H. Qed.

(** ** Patterns tied to the start of a line, on a single line *)

Lemma exec_at_Bol_miss (r' : regex) (p : ascii) (rest : string) :
  isLineTerminator p = false -> exec_at true (Bol +> r') (Some p) rest = None.
Proof.
  intros H. unfold exec_at. rewrite rmatch_Seq. cbn [rmatch at_bol ms_prev andb].
  rewrite H. reflexivity.
Qed.

Lemma exec_at_Plus_Bol_miss (r' : regex) (p : ascii) (rest : string) :
  isLineTerminator p = false -> exec_at true (Plus (Bol +> r')) (Some p) rest = None.
Proof.
  intros H. unfold exec_at, Plus. rewrite rmatch_Rep.
  replace (1 + String.length (ms_rest (MState 0 (Some p) rest [])) + 1)
    with (S (S (String.length rest))) by (cbn [ms_rest]; lia).
  cbn [rep_loop Nat.eqb negb]. rewrite rmatch_Seq.
  cbn [rmatch at_bol ms_prev andb]. rewrite H. reflexivity.
Qed.

Section SingleLine.
Variable m : bool.
Variable r : regex.
Hypothesis anchored :
  forall p rest, isLineTerminator p = false -> exec_at m r (Some p) rest = None.

Lemma replace_go_anchored (f : replacer) (str rest : string) :
  forall_chars isLineChar rest = true ->
  forall pos p, isLineTerminator p = false ->
    replace_go m r f str rest 0 pos (Some p) = rest.
Proof.
  induction rest as [|c rest IH]; intros H pos p Hp; cbn [replace_go];
    rewrite anchored by exact Hp; [reflexivity|].
  cbn [forall_chars] in H. apply andb_prop in H as [Hc Hs].
  f_equal. apply IH; [exact Hs|]. apply negb_true_iff. exact Hc.
Qed.

Lemma replace_go_skip_line (f : replacer) (str rest : string) :
  forall_chars isLineChar rest = true ->
  forall pos p, isLineTerminator p = false ->
    replace_go m r f str rest (String.length rest) pos (Some p) = "".
Proof.
  induction rest as [|c rest IH]; intros H pos p Hp; cbn [replace_go String.length].
  - rewrite anchored by exact Hp. reflexivity.
  - cbn [forall_chars] in H. apply andb_prop in H as [Hc Hs].
    apply IH; [exact Hs|]. apply negb_true_iff. exact Hc.
Qed.

(** No match at the start of the line: the line is left as it is. *)
Lemma replace_with_line_miss (f : replacer) (s : string) :
  exec_at m r None s = None ->
  forall_chars isLineChar s = true ->
  replace_with m r f s = s.
Proof.
  intros E H. unfold replace_with. destruct s as [|c s]; cbn [replace_go]; rewrite E;
    [reflexivity|].
  cbn [forall_chars] in H. apply andb_prop in H as [Hc Hs].
  f_equal. apply replace_go_anchored; [exact Hs|]. apply negb_true_iff. exact Hc.
Qed.

(** A match of the whole line: the line is replaced by what the replacer
    gives. *)
Lemma replace_with_line_whole (f : replacer) (s : string) (caps : captures) :
  s <> "" ->
  exec_at m r None s = Some (String.length s, caps) ->
  forall_chars isLineChar s = true ->
  replace_with m r f s = f s caps 0 s.
Proof.
  intros Hne E H. unfold replace_with. destruct s as [|c s]; [contradiction|].
  cbn [replace_go]. rewrite E. cbn [String.length].
  cbn [forall_chars] in H. apply andb_prop in H as [Hc Hs].
  rewrite replace_go_skip_line; [|exact Hs|apply negb_true_iff; exact Hc].
  rewrite app_nil_r. cbn [take_str]. rewrite take_str_all by lia. reflexivity.
Qed.
End SingleLine.

(** ** Trimmed texts *)

Lemma length_trimStart (s : string) :
  String.length (trimStart_go s) <= String.length s.
Proof.
  induction s as [|c s IH]; [reflexivity|]. cbn.
  destruct (isWhiteSpace c); cbn; lia.
Qed.

Lemma length_trimEnd (s : string) :
  String.length (trimEnd_go s) <= String.length s.
Proof.
  induction s as [|c s IH]; [reflexivity|]. cbn [trimEnd_go].
  destruct (trimEnd_go s) as [|a u]; [destruct (isWhiteSpace c)|]; cbn in *; lia.
Qed.

(** A text that [trim] leaves as it is starts with a character that is
    not white space and is left as it is by the trimming of its end. *)
Lemma trim_fixed (c : ascii) (s : string) :
  trim (String c s) = String c s ->
  isWhiteSpace c = false /\ trimEnd_go (String c s) = String c s.
Proof.
  intros H. destruct (isWhiteSpace c) eqn:Hc.
  - exfalso. unfold trim in H. cbn [trimStart_go] in H.
    change (trimStart_go (String c s)) with
      (if isWhiteSpace c then trimStart_go s else String c s) in H.
    rewrite Hc in H.
    pose proof (length_trimEnd (trimStart_go s)) as H1.
    pose proof (length_trimStart s) as H2.
    rewrite H in H1. cbn [String.length] in H1. lia.
  - split; [reflexivity|]. unfold trim in H.
    change (trimStart_go (String c s)) with
      (if isWhiteSpace c then trimStart_go s else String c s) in H.
    rewrite Hc in H. exact H.
Qed.

Lemma trimEnd_app (s t : string) :
  trimEnd_go t = t -> t <> "" -> trimEnd_go (s +:+ t) = s +:+ t.
Proof.
  intros Ht Hne. induction s as [|c s IH]; [exact Ht|].
  rewrite app_cons. cbn [trimEnd_go]. rewrite IH.
  destruct (s +:+ t) as [|a u] eqn:E; [|reflexivity].
  destruct s; [rewrite app_nil_l in E; contradiction|rewrite app_cons in E; discriminate].
Qed.

(** ** The rest of a line *)

Lemma rmatch_Rep_Any m min max greedy k st :
  rmatch m (Rep Any min max greedy) k st =
    rep_loop (one isLineChar) [] greedy k
      (min + String.length (ms_rest st) + 1) min max st.
Proof. reflexivity. Qed.

Lemma rmatch_Bol m k st :
  rmatch m Bol k st = if at_bol m st then k st else None.
Proof. reflexivity. Qed.

Lemma rmatch_Eol m k st :
  rmatch m Eol k st = if at_eol m st then k st else None.
Proof. reflexivity. Qed.

Lemma rmatch_Alt m r1 r2 k st :
  rmatch m (Alt r1 r2) k st =
    match rmatch m r1 k st with Some z => Some z | None => rmatch m r2 k st end.
Proof. reflexivity. Qed.

Lemma rmatch_NLook m r1 k st :
  rmatch m (NLook r1) k st =
    match rmatch m r1 Some st with Some _ => None | None => k st end.
Proof. reflexivity. Qed.

(** A group of one or more characters followed by the end of the line
    takes a line up to its end. *)
Lemma line_group_match (n pos : nat) (prev : option ascii) (caps : captures)
    (line : string) :
  forall_chars isLineChar line = true -> line <> "" ->
  rmatch true (Group n (Plus Any) +> Eol) Some (MState pos prev line caps) =
    Some (MState (pos + String.length line) (last_prev line prev) "" ((n, line) :: caps)).
Proof.
  intros H Hne. rewrite rmatch_Seq, rmatch_Group. unfold Plus.
  rewrite rmatch_Rep_Any. cbn [ms_rest ms_pos].
  pose proof (rep_greedy_run isLineChar
    (fun st' =>
       rmatch true Eol Some
         (MState (ms_pos st') (ms_prev st') (ms_rest st')
            ((n, take_str (ms_pos st' - pos) line) :: ms_caps st')))
    (MState (pos + String.length line) (last_prev line prev) "" ((n, line) :: caps))
    line "" (1 + String.length line + 1) 1 pos prev caps H I) as R.
  rewrite app_nil_r in R. apply R.
  - destruct line; [contradiction|]. cbn [String.length]. lia.
  - lia.
  - cbn [rmatch at_eol ms_rest ms_pos ms_prev ms_caps].
    replace (pos + String.length line - pos) with (String.length line) by lia.
    rewrite take_str_all by lia. reflexivity.
Qed.


Lemma exec_at_Bol_Str_miss (l : string) (r' : regex) (prev : option ascii) (rest : string) :
  startsWith l rest = false -> exec_at true (Bol +> Str l +> r') prev rest = None.
Proof.
  intros H. unfold exec_at. rewrite rmatch_Seq, rmatch_Bol.
  destruct (at_bol true (MState 0 prev rest [])); [|reflexivity].
  rewrite rmatch_Seq, rmatch_Str.
  pose proof (eat_startsWith l (MState 0 prev rest [])) as E.
  destruct (eat l (MState 0 prev rest [])); [|reflexivity].
  destruct E as [E _]. cbn [ms_rest] in E. congruence.
Qed.

(** The list pattern does not match at a line that starts neither with a
    space nor with a dash and a space. *)
Lemma exec_at_list_miss (prev : option ascii) (c : ascii) (s : string) :
  (" " =? c)%char = false -> startsWith "- " (String c s) = false ->
  exec_at true re_list prev (String c s) = None.
Proof.
  intros Hc Hd. unfold exec_at, re_list, Plus. rewrite rmatch_Rep.
  replace (1 + String.length (ms_rest (MState 0 prev (String c s) [])) + 1)
    with (S (S (S (String.length s)))) by (cbn [ms_rest String.length]; lia).
  cbn [rep_loop Nat.eqb negb]. rewrite rmatch_Seq, rmatch_Bol.
  match goal with |- context [at_bol true ?st] => destruct (at_bol true st) end;
    [|reflexivity].
  rewrite rmatch_Seq. unfold Star at 1. rewrite rmatch_Rep_Cls.
  cbn [ms_rest ms_pos ms_prev ms_caps groups app].
  replace (0 + String.length (String c s) + 1) with (S (S (String.length s)))
    by (cbn [String.length]; lia).
  cbn [rep_loop Nat.eqb negb andb ms_rest ms_pos ms_prev ms_caps clear List.filter].
  rewrite one_cons. cbn [class_has existsb citem_has]. rewrite Hc. cbn [orb].
  rewrite rmatch_Seq, rmatch_Str.
  match goal with |- context [eat ?l ?st] =>
    pose proof (eat_startsWith l st) as E; destruct (eat l st) end; [|reflexivity].
  destruct E as [E _]. cbn [ms_rest] in E. congruence.
Qed.

(** The paragraph pattern takes a whole line that does not start with an
    angle bracket. *)
Lemma exec_at_paragraph (c : ascii) (s : string) :
  forall_chars isLineChar (String c s) = true -> ("<" =? c)%char = false ->
  exec_at true re_paragraph None (String c s) =
    Some (String.length (String c s), [(1, String c s)]).
Proof.
  intros H Hc. unfold exec_at, re_paragraph. rewrite rmatch_Seq, rmatch_Bol.
  cbn [at_bol ms_prev]. rewrite rmatch_Seq, rmatch_NLook, rmatch_Alt.
  rewrite rmatch_Seq, rmatch_Str, rmatch_Eol. cbn [eat ms_rest]. rewrite Hc.
  pose proof H as H'. cbn [forall_chars] in H'. apply andb_prop in H' as [Hl _].
  unfold isLineChar in Hl. apply negb_true_iff in Hl.
  cbn [at_eol ms_rest andb]. rewrite Hl.
  rewrite (line_group_match 1 0 None [] (String c s) H) by discriminate.
  reflexivity.
Qed.

(** ** The passes on a line of running text *)

Lemma includes_absent_all (a : ascii) (l s : string) :
  forall_chars (fun c => negb (a =? c)%char) s = true ->
  includes (String a l) s = false.
Proof.
  intros H. rewrite <- (app_nil_r s), (includes_absent a l s "" H). reflexivity.
Qed.

Lemma includes_absent_second_all (a b : ascii) (l s : string) :
  forall_chars (fun c => negb (b =? c)%char) s = true ->
  includes (String a (String b l)) s = false.
Proof.
  intros H. rewrite <- (app_nil_r s), (includes_absent_second a b l s "" H); reflexivity.
Qed.

Lemma absent_of_inert (a : ascii) (s : string) :
  opensInline a = true ->
  forall_chars (fun c => negb (opensInline c)) s = true ->
  forall_chars (fun c => negb (a =? c)%char) s = true.
Proof.
  intros Ha. apply forall_chars_impl. intros c Hc.
  destruct (Ascii.eqb_spec a c) as [<-|]; [|reflexivity].
  rewrite Ha in Hc. discriminate.
Qed.

Lemma textChar_line (s : string) :
  forall_chars isTextChar s = true -> forall_chars isLineChar s = true.
Proof.
  apply forall_chars_impl. intros c H. unfold isTextChar in H.
  apply andb_prop in H as [H _]. apply andb_prop in H as [H _]. exact H.
Qed.

Lemma textChar_inert (s : string) :
  forall_chars isTextChar s = true ->
  forall_chars (fun c => negb (opensInline c)) s = true.
Proof.
  apply forall_chars_impl. intros c H. unfold isTextChar in H.
  apply andb_prop in H as [H _]. apply andb_prop in H as [_ H]. exact H.
Qed.

Lemma textChar_no_angle (s : string) :
  forall_chars isTextChar s = true ->
  forall_chars (fun c => negb ("<" =? c)%char) s = true.
Proof.
  apply forall_chars_impl. intros c H. unfold isTextChar in H.
  apply andb_prop in H as [_ H]. rewrite Ascii.eqb_sym. exact H.
Qed.

(** The passes for diagrams, code, emphasis, links and Markdown images
    leave a text without backtick, asterisk and opening square bracket as
    it is. *)
Lemma inline_passes_inert (html : string) :
  forall_chars (fun c => negb (opensInline c)) html = true ->
  mermaidDiagrams html = html /\ codeBlocks html = html /\ inlineCode html = html /\
  bold html = html /\ italic html = html /\ links html = html /\ images html = html.
Proof.
  intros H.
  pose proof (absent_of_inert "`" html eq_refl H) as Hb.
  pose proof (absent_of_inert "*" html eq_refl H) as Hs.
  pose proof (absent_of_inert "[" html eq_refl H) as Hl.
  repeat split.
  - apply replace_fn_absent, (includes_absent_all "`"), Hb.
  - apply replace_fn_absent, (includes_absent_all "`"), Hb.
  - apply replace_absent, (includes_absent_all "`"), Hb.
  - apply replace_absent, (includes_absent_all "*"), Hs.
  - apply replace_absent, (includes_absent_all "*"), Hs.
  - apply replace_absent, (includes_absent_all "["), Hl.
  - apply replace_absent, (includes_absent_second_all "!" "["), Hl.
Qed.

(** What is left of the passes for such a text once the headings are
    done, when it holds no list. *)
Lemma transforms_line (html : string) :
  forall_chars (fun c => negb (opensInline c)) (headers html) = true ->
  unorderedLists (headers html) = headers html ->
  transforms html = paragraphs (imgTags (headers html)).
Proof.
  intros H Hlist. unfold transforms.
  destruct (inline_passes_inert (headers html) H) as (-> & -> & -> & -> & -> & Hlk & Him).
  rewrite Hlist, Hlk, Him. reflexivity.
Qed.

Lemma line_no_delimiter (s : string) :
  forall_chars isLineChar s = true -> includes delimiter s = false.
Proof.
  intros H. apply (includes_absent_all LF). revert H. apply forall_chars_impl.
  intros c Hc. unfold isLineChar, isLineTerminator in Hc.
  destruct (Ascii.eqb_spec LF c) as [<-|]; [discriminate|reflexivity].
Qed.

(** A text without delimiter is one slide. *)
Lemma markdownToSlides_single (s : string) :
  s <> "" -> includes delimiter s = false -> markdownToSlides s = slideHtml s.
Proof.
  intros Hne H. unfold markdownToSlides, slides, split.
  destruct s as [|c s]; [contradiction|].
  rewrite (split_slide_none _ "" true None H). reflexivity.
Qed.

Lemma headers_anchored (l : string) (p : ascii) (rest : string) :
  isLineTerminator p = false ->
  exec_at true (Bol +> Str l +> Group 1 (Plus Any) +> Eol) (Some p) rest = None.
Proof. apply exec_at_Bol_miss. Qed.

(** A heading pass leaves a line that does not start with its marker as
    it is, and rewrites a line that is its marker and a text. *)
Lemma heading_miss (l template s : string) :
  startsWith l s = false -> forall_chars isLineChar s = true ->
  replace true (Bol +> Str l +> Group 1 (Plus Any) +> Eol) template s = s.
Proof.
  intros Hs H. apply replace_with_line_miss; [apply headers_anchored| |exact H].
  apply exec_at_Bol_Str_miss, Hs.
Qed.


Lemma list_miss (c : ascii) (s : string) :
  (" " =? c)%char = false -> startsWith "- " (String c s) = false ->
  forall_chars isLineChar (String c s) = true ->
  unorderedLists (String c s) = String c s.
Proof.
  intros Hc Hd H. apply replace_with_line_miss; [|apply exec_at_list_miss; assumption|exact H].
  intros p rest Hp. apply exec_at_Plus_Bol_miss, Hp.
Qed.

Lemma paragraph_miss (s : string) :
  exec_at true re_paragraph None s = None -> forall_chars isLineChar s = true ->
  paragraphs s = s.
Proof.
  intros E H. apply replace_with_line_miss; [|exact E|exact H].
  intros p rest Hp. apply exec_at_Bol_miss, Hp.
Qed.

Lemma paragraph_hit (c : ascii) (s : string) :
  forall_chars isLineChar (String c s) = true -> ("<" =? c)%char = false ->
  paragraphs (String c s) = "<p>" +:+ String c s +:+ "</p>".
Proof.
  intros H Hc. unfold paragraphs, replace.
  rewrite (replace_with_line_whole true re_paragraph) with (caps := [(1, String c s)]).
  - reflexivity.
  - intros p rest Hp. apply exec_at_Bol_miss, Hp.
  - discriminate.
  - apply exec_at_paragraph; assumption.
  - exact H.
Qed.

(** X15: a line of running text is a paragraph. A document that is one
    trimmed, non-empty line without backtick, asterisk, opening square
    bracket and opening angle bracket, and that does not start like a
    heading of level 1 to 3 or a list entry, compiles to one slide that
    holds the line as it is in a paragraph element; so does a line that
    starts with four hashes, which is no heading. *)
Theorem X15_text_line_is_a_paragraph (line : string) :
  line <> "" ->
  trim line = line ->
  forall_chars isTextChar line = true ->
  opensBlock line = false ->
  markdownToSlides line = "<section><p>" +:+ line +:+ "</p></section>".
Proof.
  intros Hne Htrim Htext Hblock.
  destruct line as [|c s]; [contradiction|].
  destruct (trim_fixed c s Htrim) as [Hws _].
  pose proof (textChar_line _ Htext) as Hline.
  unfold opensBlock in Hblock.
  apply orb_false_elim in Hblock as [Hblock Hdash].
  apply orb_false_elim in Hblock as [Hblock Hh3].
  apply orb_false_elim in Hblock as [Hh1 Hh2].
  assert ((" " =? c)%char = false) as Hsp.
  { destruct (Ascii.eqb_spec " " c) as [<-|]; [discriminate|reflexivity]. }
  assert (("<" =? c)%char = false) as Hlt.
  { pose proof (textChar_no_angle _ Htext) as H. cbn [forall_chars] in H.
    apply andb_prop in H as [H _]. apply negb_true_iff in H. exact H. }
  assert (headers (String c s) = String c s) as Hhead.
  { unfold headers, re_h1, re_h2, re_h3.
    rewrite (heading_miss "### ") by assumption.
    rewrite (heading_miss "## ") by assumption.
    apply heading_miss; assumption. }
  rewrite markdownToSlides_single by (try discriminate; apply line_no_delimiter, Hline).
  unfold slideHtml. rewrite Htrim, transforms_line; rewrite Hhead.
  - unfold imgTags, re_img_tag.
    rewrite replace_absent
      by (apply (includes_absent_all "<"), textChar_no_angle, Htext).
    rewrite paragraph_hit by assumption.
    rewrite !app_assoc_str. reflexivity.
  - apply textChar_inert, Htext.
  - apply list_miss; assumption.
Qed.

Lemma X15_text_line_is_a_paragraph_witness :
  markdownToSlides "#### Deep heading" =
    "<section><p>" +:+ "#### Deep heading" +:+ "</p></section>".
Proof.
  apply X15_text_line_is_a_paragraph; [discriminate|reflexivity|reflexivity|reflexivity].
Defined.

(** ** Heading lines *)






(** ** Image tags *)

Lemma rmatch_Rep_NCls m cs min max greedy k st :
  rmatch m (Rep (NCls cs) min max greedy) k st =
    rep_loop (one (fun c => negb (class_has cs c))) [] greedy k
      (min + String.length (ms_rest st) + 1) min max st.
Proof. reflexivity. Qed.

(** A repetition of single characters followed by a literal fails when
    the literal does not occur in the input. *)
Lemma rep_loop_absent (p : ascii -> bool) (l : string) (k : mstate -> option mstate) :
  (forall st, startsWith l (ms_rest st) = false -> k st = None) ->
  forall fuel greedy min max st,
    includes l (ms_rest st) = false ->
    rep_loop (one p) [] greedy k fuel min max st = None.
Proof.
  intros Hk. induction fuel as [|fuel IH]; intros greedy min max st H; [reflexivity|].
  pose proof (Hk st (includes_startsWith _ _ H)) as Hst.
  cbn [rep_loop].
  assert (one p
            (fun st' =>
               if (min =? 0)%nat && (ms_pos st' =? ms_pos st)%nat then None
               else rep_loop (one p) [] greedy k fuel (Nat.pred min)
                      (option_map Nat.pred max) st')
            (MState (ms_pos st) (ms_prev st) (ms_rest st) (clear [] (ms_caps st))) = None)
    as Hone.
  { unfold one. cbn [ms_rest]. destruct (ms_rest st) as [|c rest] eqn:E; [reflexivity|].
    destruct (p c); [|reflexivity].
    destruct ((min =? 0)%nat && _); [reflexivity|].
    apply IH. cbn [advance ms_rest]. rewrite includes_cons in H.
    apply orb_false_elim in H as [_ H]. exact H. }
  destruct max as [[|n]|]; [exact Hst| |];
    (destruct (negb (min =? 0)%nat); [exact Hone|]);
    (destruct greedy; rewrite Hone, Hst; reflexivity).
Qed.

Lemma attrChar_text (s : string) :
  forall_chars isAttrChar s = true -> forall_chars isTextChar s = true.
Proof.
  apply forall_chars_impl. intros c H. unfold isAttrChar in H.
  apply andb_prop in H as [H _]. exact H.
Qed.

Lemma attrChar_in_tag (s : string) :
  forall_chars isAttrChar s = true ->
  forall_chars (fun c => negb (class_has [One ">"] c)) s = true.
Proof.
  apply forall_chars_impl. intros c H. unfold isAttrChar in H.
  apply andb_prop in H as [_ H]. cbn [class_has existsb citem_has].
  rewrite orb_false_r, Ascii.eqb_sym. exact H.
Qed.

Lemma img_tag_line (attrs : string) :
  forall_chars isAttrChar attrs = true ->
  forall_chars isLineChar ("<img" +:+ attrs +:+ ">") = true.
Proof.
  intros H. rewrite (forall_chars_app _ "<img"), (forall_chars_app _ attrs ">").
  rewrite (textChar_line _ (attrChar_text _ H)). reflexivity.
Qed.

(** The pattern of the image-tag pass takes a tag without class attribute
    as a whole, its attributes as group 1. *)
Lemma exec_at_img_tag (prev : option ascii) (attrs : string) :
  forall_chars isAttrChar attrs = true ->
  includes (lit "class='") (attrs +:+ ">") = false ->
  exec_at false re_img_tag prev ("<img" +:+ attrs +:+ ">") =
    Some (String.length ("<img" +:+ attrs +:+ ">"), [(1, attrs)]).
Proof.
  intros Hattrs Hclass. unfold exec_at, re_img_tag.
  rewrite rmatch_Seq, rmatch_Str, (eat_app "<img" (attrs +:+ ">")) by reflexivity.
  cbn [ms_pos ms_prev ms_caps last_prev String.length Nat.add].
  rewrite rmatch_Seq, rmatch_NLook, rmatch_Seq. unfold Star at 1.
  rewrite rmatch_Rep_NCls, rep_loop_absent with (l := lit "class='"); [|clear|exact Hclass].
  - rewrite rmatch_Seq, rmatch_Group. unfold Star. rewrite rmatch_Rep_NCls.
    cbn [ms_rest ms_pos].
    rewrite (rep_greedy_run _ _
               (MState (4 + String.length attrs + 1) (Some ">"%char) "" [(1, attrs)])).
    + cbn [ms_pos ms_caps].
      replace (String.length ("<img" +:+ attrs +:+ ">")) with (4 + String.length attrs + 1);
        [reflexivity|].
      rewrite !length_app_str. cbn [String.length]. lia.
    + apply attrChar_in_tag, Hattrs.
    + reflexivity.
    + lia.
    + rewrite length_app_str. cbn [String.length]. lia.
    + cbn [ms_pos ms_prev ms_rest ms_caps]. rewrite rmatch_Str.
      cbn [eat ms_rest Ascii.eqb Bool.eqb advance ms_pos ms_caps].
      replace (4 + String.length attrs - 4) with (String.length attrs) by lia.
      rewrite take_str_app. unfold advance. cbn [ms_pos ms_caps].
      replace (S (4 + String.length attrs)) with (4 + String.length attrs + 1) by lia.
      reflexivity.
  - intros st H. rewrite rmatch_Seq, rmatch_Str.
    pose proof (eat_startsWith (lit "class='") st) as E.
    destruct (eat (lit "class='") st); [|reflexivity].
    destruct E as [E _]. congruence.
Qed.

(** The image-tag pass writes the fragment class into such a tag. *)
Lemma imgTags_tag (attrs : string) :
  forall_chars isAttrChar attrs = true ->
  includes (lit "class='") (attrs +:+ ">") = false ->
  imgTags ("<img" +:+ attrs +:+ ">") = lit "<img class='fragment'" +:+ attrs +:+ ">".
Proof.
  intros Hattrs Hclass. unfold imgTags, replace, replace_with.
  change ("<img" +:+ attrs +:+ ">") with (String "<" ("img" +:+ attrs +:+ ">")) at 2.
  cbn [replace_go].
  change (String "<" ("img" +:+ attrs +:+ ">")) with ("<img" +:+ attrs +:+ ">").
  rewrite exec_at_img_tag by assumption.
  rewrite take_str_all by lia.
  change (String.length ("<img" +:+ attrs +:+ ">"))
    with (S (String.length ("img" +:+ attrs +:+ ">"))).
  cbv beta iota.
  match goal with
  | |- context [replace_go ?m ?r ?f ?str ?rest (String.length ?rest) ?pos ?prev] =>
      pose proof (replace_go_skip m r f str rest "" "" (fun _ _ => eq_refl) pos prev) as Hs
  end.
  rewrite app_nil_r in Hs. rewrite Hs, app_nil_r. reflexivity.
Qed.

(** The passes of a slide on a line that is one image tag. *)
Lemma transforms_img_tag (attrs : string) :
  forall_chars isAttrChar attrs = true ->
  includes (lit "class='") (attrs +:+ ">") = false ->
  transforms ("<img" +:+ attrs +:+ ">") = lit "<img class='fragment'" +:+ attrs +:+ ">".
Proof.
  intros Hattrs Hclass.
  pose proof (attrChar_text _ Hattrs) as Htext.
  assert (forall_chars isLineChar ("<img" +:+ attrs +:+ ">") = true) as Hline
    by (rewrite !forall_chars_app, (textChar_line _ Htext); reflexivity).
  assert (headers ("<img" +:+ attrs +:+ ">") = "<img" +:+ attrs +:+ ">") as Hhead.
  { unfold headers, re_h1, re_h2, re_h3.
    rewrite (heading_miss "### ") by (try reflexivity; exact Hline).
    rewrite (heading_miss "## ") by (try reflexivity; exact Hline).
    apply heading_miss; [reflexivity|exact Hline]. }
  rewrite transforms_line; rewrite Hhead.
  - rewrite imgTags_tag by assumption. apply paragraph_miss; [reflexivity|].
    rewrite !forall_chars_app, (textChar_line _ Htext). reflexivity.
  - rewrite !forall_chars_app, (textChar_inert _ Htext). reflexivity.
  - change ("<img" +:+ attrs +:+ ">") with (String "<" ("img" +:+ attrs +:+ ">")).
    apply list_miss; [reflexivity|reflexivity|exact Hline].
Qed.

Lemma slideHtml_img_tag (attrs : string) :
  forall_chars isAttrChar attrs = true ->
  includes (lit "class='") (attrs +:+ ">") = false ->
  slideHtml ("<img" +:+ attrs +:+ ">") =
    "<section>" +:+ (lit "<img class='fragment'" +:+ attrs +:+ ">") +:+ "</section>".
Proof.
  intros Hattrs Hclass. unfold slideHtml, trim.
  change (trimStart_go ("<img" +:+ attrs +:+ ">")) with ("<img" +:+ attrs +:+ ">").
  rewrite <- (app_assoc_str "<img" attrs ">"), trimEnd_app
    by (try reflexivity; discriminate).
  rewrite (app_assoc_str "<img" attrs ">"), transforms_img_tag by assumption.
  reflexivity.
Qed.

(** X17: an image tag on a slide of its own. A document that is one img
    tag whose attributes hold no angle bracket, backtick, asterisk, opening
    square bracket or line break and no class attribute compiles to one
    slide that holds the tag with [class="fragment"] written right after
    [<img], the attributes as they are, and no paragraph around it. *)
Theorem X17_image_tag_gets_fragment_class (attrs : string) :
  forall_chars isAttrChar attrs = true ->
  includes (lit "class='") (attrs +:+ ">") = false ->
  markdownToSlides ("<img" +:+ attrs +:+ ">") =
    "<section>" +:+ lit "<img class='fragment'" +:+ attrs +:+ "></section>".
Proof.
  intros Hattrs Hclass.
  rewrite markdownToSlides_single.
  - rewrite slideHtml_img_tag by assumption. rewrite !app_assoc_str. reflexivity.
  - discriminate.
  - apply line_no_delimiter, img_tag_line, Hattrs.
Qed.

Lemma X17_image_tag_gets_fragment_class_witness :
  markdownToSlides (lit "<img src='logo.png' width='200'>") =
    lit "<section><img class='fragment' src='logo.png' width='200'></section>".
Proof.
  apply (X17_image_tag_gets_fragment_class (lit " src='logo.png' width='200'"));
    reflexivity.
Defined.

(** ** An imported image, from the dialog to the preview *)

Lemma startsWith_take_rest (l s rest : string) (n : nat) :
  String.length l <= String.length s + n ->
  startsWith l (s +:+ take_str n rest) = startsWith l (s +:+ rest).
Proof.
  revert s. induction l as [|a l IH]; intros s H; [reflexivity|].
  destruct s as [|c s].
  - rewrite !app_nil_l. apply startsWith_take_all. exact H.
  - rewrite !app_cons. cbn [startsWith]. rewrite IH; [reflexivity|].
    cbn [String.length] in H. lia.
Qed.

(** When [l] is not found in [pre] followed by the first characters of
    [rest], one less than [l] has, no occurrence of [l] begins inside
    [pre]. *)
Lemma includes_prefix_step (l : string) (c : ascii) (pre rest : string) :
  includes l (String c pre +:+ take_str (String.length l - 1) rest) = false ->
  startsWith l (String c pre +:+ rest) = false /\
  includes l (pre +:+ take_str (String.length l - 1) rest) = false.
Proof.
  intros H. rewrite app_cons, includes_cons in H. apply orb_false_elim in H as [H1 H2].
  split; [|exact H2].
  rewrite <- H1, <- app_cons. symmetry. apply startsWith_take_rest.
  cbn [String.length]. lia.
Qed.

Lemma matchAll_go_prefix m (l : string) (r' : regex) (pre rest : string) :
  includes l (pre +:+ take_str (String.length l - 1) rest) = false ->
  forall prev,
    matchAll_go m (Str l +> r') (pre +:+ rest) 0 prev =
    matchAll_go m (Str l +> r') rest 0 (last_prev pre prev).
Proof.
  induction pre as [|c pre IH]; intros H prev; [reflexivity|].
  apply includes_prefix_step in H as [H1 H2].
  rewrite app_cons. cbn [matchAll_go]. rewrite <- app_cons.
  rewrite exec_at_Str_miss by exact H1. apply IH, H2.
Qed.

Lemma matchAll_go_absent m (l : string) (r' : regex) (s : string) :
  includes l s = false ->
  forall prev, matchAll_go m (Str l +> r') s 0 prev = [].
Proof.
  induction s as [|c s IH]; intros H prev; cbn [matchAll_go];
    rewrite exec_at_Str_miss by (apply includes_startsWith, H); [reflexivity|].
  apply IH. rewrite includes_cons in H. apply orb_false_elim in H as [_ H]. exact H.
Qed.

Lemma matchAll_go_skip_app m r (s t : string) :
  forall prev,
    matchAll_go m r (s +:+ t) (String.length s) prev =
    matchAll_go m r t 0 (last_prev s prev).
Proof.
  induction s as [|c s IH]; intros prev; [reflexivity|].
  rewrite app_cons. cbn [String.length matchAll_go last_prev]. apply IH.
Qed.

Lemma startsWith_trans (l sep s : string) :
  startsWith l sep = true -> startsWith sep s = true -> startsWith l s = true.
Proof.
  revert sep s. induction l as [|a l IH]; intros sep s H1 H2; [reflexivity|].
  destruct sep as [|b sep]; [discriminate|]. destruct s as [|c s]; [discriminate|].
  cbn [startsWith] in *. apply andb_prop in H1 as [Hab H1]. apply andb_prop in H2 as [Hbc H2].
  apply Ascii.eqb_eq in Hab, Hbc. subst. rewrite Ascii.eqb_refl. apply (IH sep s H1 H2).
Qed.

Lemma startsWith_refl_app (s t : string) : startsWith s (s +:+ t) = true.
Proof.
  induction s as [|c s IH]; [reflexivity|].
  rewrite app_cons. cbn [startsWith]. rewrite Ascii.eqb_refl. exact IH.
Qed.

Lemma split_str_go_skip (sep s t cur : string) :
  split_str_go sep (s +:+ t) (String.length s) cur = split_str_go sep t 0 cur.
Proof.
  induction s as [|c s IH]; [reflexivity|].
  rewrite app_cons. cbn [String.length split_str_go]. exact IH.
Qed.

Lemma split_str_go_hit (sep post cur : string) :
  sep <> "" ->
  split_str_go sep (sep +:+ post) 0 cur = cur :: split_str_go sep post 0 "".
Proof.
  intros Hne. pose proof (startsWith_refl_app sep post) as Hs.
  destruct sep as [|a sep']; [contradiction|].
  rewrite app_cons in Hs |- *. cbn [split_str_go]. rewrite Hs.
  replace (String.length (String a sep') - 1) with (String.length sep')
    by (cbn [String.length]; lia).
  rewrite split_str_go_skip. reflexivity.
Qed.

Section SplitAtOne.
Variables l sep : string.
Hypothesis l_prefix : startsWith l sep = true.

Lemma split_str_go_prefix (pre rest : string) :
  includes l (pre +:+ take_str (String.length l - 1) rest) = false ->
  forall cur, split_str_go sep (pre +:+ rest) 0 cur = split_str_go sep rest 0 (cur +:+ pre).
Proof.
  induction pre as [|c pre IH]; intros H cur; [rewrite app_nil_l, app_nil_r; reflexivity|].
  apply includes_prefix_step in H as [H1 H2].
  assert (startsWith sep (String c pre +:+ rest) = false) as Hsep.
  { destruct (startsWith sep (String c pre +:+ rest)) eqn:E; [|reflexivity].
    rewrite (startsWith_trans _ _ _ l_prefix E) in H1. discriminate. }
  rewrite app_cons in Hsep |- *. cbn [split_str_go]. rewrite Hsep, (IH H2).
  rewrite app_assoc_str, app_cons, app_nil_l. reflexivity.
Qed.

Lemma split_str_go_absent (s cur : string) :
  includes l s = false -> split_str_go sep s 0 cur = [cur +:+ s].
Proof.
  intros H. rewrite <- (app_nil_r s) at 1. rewrite split_str_go_prefix; [reflexivity|].
  destruct (String.length l - 1); rewrite app_nil_r; exact H.
Qed.

(** A text that holds the separator once, with nothing around it that
    starts like the separator, splits in two. *)
Lemma split_str_once (pre post : string) :
  sep <> "" ->
  includes l (pre +:+ take_str (String.length l - 1) (sep +:+ post)) = false ->
  includes l post = false ->
  split_str sep (pre +:+ sep +:+ post) = [pre; post].
Proof.
  intros Hne Hpre Hpost. unfold split_str.
  rewrite split_str_go_prefix by exact Hpre. rewrite app_nil_l.
  rewrite split_str_go_hit by exact Hne.
  rewrite split_str_go_absent by exact Hpost. reflexivity.
Qed.
End SplitAtOne.

Lemma idChar_attr (c : ascii) : isIdChar c = true -> isAttrChar c = true.
Proof.
  destruct c as [[] [] [] [] [] [] [] []]; intros H; try reflexivity;
    vm_compute in H; discriminate.
Qed.

Lemma idChar_not_l (c : ascii) : isIdChar c = true -> negb ("l" =? c)%char = true.
Proof.
  destruct c as [[] [] [] [] [] [] [] []]; intros H; try reflexivity;
    vm_compute in H; discriminate.
Qed.

(** The identifiers that the preview finds in a markup that holds one
    identifier and nothing else that starts like one. *)
Lemma imageIds_single (pre h post : string) :
  String.length h = 16 -> forall_chars isIdChar h = true ->
  includes "img-" (pre +:+ "img") = false ->
  includes "img-" post = false ->
  imageIds (pre +:+ ("img-" +:+ h) +:+ post) = ["img-" +:+ h].
Proof.
  intros Hlen Hh Hpre Hpost. unfold imageIds, matchAll, imageIdRegex.
  rewrite matchAll_go_prefix by exact Hpre.
  rewrite app_assoc_str.
  change ("img-" +:+ h +:+ post) with (String "i" ("mg-" +:+ h +:+ post)).
  cbn [matchAll_go].
  change (String "i" ("mg-" +:+ h +:+ post)) with ("img-" +:+ h +:+ post).
  rewrite exec_image_id by assumption.
  replace (Nat.pred 20) with (String.length ("mg-" +:+ h))
    by (rewrite length_app_str, Hlen; reflexivity).
  rewrite <- (app_assoc_str "mg-" h post), matchAll_go_skip_app.
  rewrite matchAll_go_absent by exact Hpost.
  rewrite <- (app_assoc_str "img-" h post).
  replace 20 with (String.length ("img-" +:+ h))
    by (rewrite length_app_str, Hlen; reflexivity).
  rewrite take_str_app. reflexivity.
Qed.

(** [resolveImages] on such a markup, with the image in the store. *)
Lemma resolveImages_single (pre h post : string) (db : database) (image : StoredImage) :
  String.length h = 16 -> forall_chars isIdChar h = true ->
  includes "img-" (pre +:+ "img") = false ->
  includes "img-" post = false ->
  db !! ("img-" +:+ h) = Some image ->
  resolveImages (pre +:+ ("img-" +:+ h) +:+ post) db =
    (pre +:+ readAsDataURL (img_blob image) +:+ post, db).
Proof.
  intros Hlen Hh Hpre Hpost Hdb. unfold resolveImages.
  rewrite imageIds_single by assumption.
  cbn [resolve_loop]. unfold mbind, async_bind. rewrite getImage_eq, Hdb.
  unfold substitute.
  change (truthy (Some (readAsDataURL (img_blob image))))
    with (Some (readAsDataURL (img_blob image))).
  rewrite (split_str_once "img-" ("img-" +:+ h)); try assumption; try reflexivity.
  rewrite app_cons. discriminate.
Qed.

Lemma drop_img (x : string) : drop_str 4 ("<img" +:+ x) = x.
Proof. reflexivity. Qed.

Lemma imageTag_attrs (id : string) (size : SizePreset) (alignment : Alignment) :
  imageTag id size alignment =
    "<img" +:+ (lit " src='" +:+ id +:+ importAttrs size alignment) +:+ ">".
Proof. unfold imageTag, importAttrs. rewrite !app_assoc_str. reflexivity. Qed.

Lemma importAttrs_ok (h : string) (size : SizePreset) (alignment : Alignment) :
  forall_chars isIdChar h = true ->
  let attrs := lit " src='" +:+ ("img-" +:+ h) +:+ importAttrs size alignment in
  forall_chars isAttrChar attrs = true /\
  includes (lit "class='") (attrs +:+ ">") = false.
Proof.
  intros Hh attrs. unfold attrs. split.
  - rewrite !forall_chars_app, (forall_chars_impl _ _ h idChar_attr Hh).
    destruct size, alignment; reflexivity.
  - rewrite !app_assoc_str.
    change (includes (String "c" (String "l" (lit "ass='")))
              (h +:+ importAttrs size alignment +:+ ">") = false).
    rewrite includes_absent_second.
    + destruct size, alignment; reflexivity.
    + exact (forall_chars_impl _ _ h idChar_not_l Hh).
    + destruct size, alignment; reflexivity.
Qed.

(** X18: an imported image reaches the preview. For the tag that the
    import dialog inserts for a stored image, whatever the size and the
    alignment chosen: the document that is this tag compiles to one slide
    that holds the tag with the fragment class written into it, and
    [resolveImages], run on that slide with the store as [storeImage] left
    it, returns the same slide with the identifier replaced by the data URL
    of the image, the store unchanged. *)
Theorem X18_imported_image_in_preview (db : database) (blob : Blob) (now : N)
    (size : SizePreset) (alignment : Alignment) :
  let stored := storeImage blob now db in
  let shown := fun src =>
    "<section>" +:+ lit "<img class='fragment'" +:+
    drop_str 4 (imageTag src size alignment) +:+ "</section>" in
  markdownToSlides (imageTag stored.1 size alignment) = shown stored.1 /\
  resolveImages (shown stored.1) stored.2 = (shown (readAsDataURL blob), stored.2).
Proof.
  cbn zeta. rewrite storeImage_eq. cbn [fst snd].
  destruct (generateImageId_shape blob) as (h & Hid & Hlen & Hh).
  set (image := mkStoredImage (generateImageId blob) blob (blob_type blob) now).
  rewrite Hid. rewrite !imageTag_attrs, !drop_img.
  destruct (importAttrs_ok h size alignment Hh) as [Hattrs Hclass].
  split.
  - rewrite markdownToSlides_single.
    + rewrite slideHtml_img_tag by assumption. rewrite !app_assoc_str. reflexivity.
    + discriminate.
    + apply line_no_delimiter, img_tag_line, Hattrs.
  - pose proof (resolveImages_single (lit "<section><img class='fragment' src='") h
                  (importAttrs size alignment +:+ "></section>")
                  (<["img-" +:+ h := image]> db) image Hlen Hh eq_refl) as R.
    rewrite lookup_insert_eq in R.
    rewrite !app_assoc_str in R. rewrite !app_assoc_str. apply R; [|reflexivity].
    destruct size, alignment; reflexivity.
Qed.

(** ** An imported image, from the dialog to the exported text *)

Lemma b64Digit_no_dollar (n : N) : negb ("$" =? b64Digit n)%char = true.
Proof.
  unfold b64Digit. generalize (N.to_nat n). intros k.
  do 64 (destruct k as [|k]; [reflexivity|]). reflexivity.
Qed.

Lemma base64_no_dollar (bs : list N) :
  forall_chars (fun c => negb ("$" =? c)%char) (base64 bs) = true.
Proof.
  assert (forall n bs, length bs <= n ->
            forall_chars (fun c => negb ("$" =? c)%char) (base64 bs) = true) as H.
  { induction n as [|n IH]; intros [|a [|b [|c l]]] Hn; cbn [length] in Hn;
      try lia; try reflexivity; cbn [base64 forall_chars];
      rewrite ?b64Digit_no_dollar; try reflexivity.
    rewrite IH by lia. reflexivity. }
  apply (H (length bs)). lia.
Qed.

(** A data URL holds a dollar sign only when the type of the blob does. *)
Lemma dataURL_no_dollar (blob : Blob) :
  includes "$" (blob_type blob) = false ->
  forall_chars (fun c => negb ("$" =? c)%char) (readAsDataURL blob) = true.
Proof.
  intros H. unfold readAsDataURL. rewrite !forall_chars_app, base64_no_dollar.
  destruct (blob_type blob) as [|c t]; [reflexivity|].
  assert (forall s, includes "$" s = false ->
            forall_chars (fun c => negb ("$" =? c)%char) s = true) as Hs.
  { induction s as [|d s IH]; [reflexivity|]. intros Hd.
    rewrite includes_cons in Hd. apply orb_false_elim in Hd as [Hd1 Hd2].
    cbn [startsWith] in Hd1. rewrite andb_true_r in Hd1.
    cbn [forall_chars]. rewrite Hd1, (IH Hd2). reflexivity. }
  rewrite (Hs _ H). reflexivity.
Qed.

(** A replacement text without dollar sign is inserted as it is. *)
Lemma getSubstitution_plain (matched str : string) (position : nat) (caps : captures)
    (m : nat) (template : string) :
  forall_chars (fun c => negb ("$" =? c)%char) template = true ->
  getSubstitution matched str position caps m template = template.
Proof.
  induction template as [|c t IH]; [reflexivity|]. intros H.
  cbn [forall_chars] in H. apply andb_prop in H as [Hc Ht].
  specialize (IH Ht).
  destruct c as [[] [] [] [] [] [] [] []];
    try (cbn [getSubstitution]; rewrite IH; reflexivity).
  discriminate.
Qed.

Lemma replace_first_go_prefix (l pattern template str pre rest : string) :
  startsWith l pattern = true ->
  includes l (pre +:+ take_str (String.length l - 1) rest) = false ->
  forall pos,
    replace_first_go pattern template str (pre +:+ rest) pos =
    pre +:+ replace_first_go pattern template str rest (pos + String.length pre).
Proof.
  intros Hl. induction pre as [|c pre IH]; intros H pos.
  - rewrite !app_nil_l. cbn [String.length]. rewrite Nat.add_0_r. reflexivity.
  - apply includes_prefix_step in H as [H1 H2].
    assert (startsWith pattern (String c pre +:+ rest) = false) as Hp.
    { destruct (startsWith pattern (String c pre +:+ rest)) eqn:E; [|reflexivity].
      rewrite (startsWith_trans _ _ _ Hl E) in H1. discriminate. }
    rewrite app_cons in Hp |- *.
    change (replace_first_go pattern template str (String c (pre +:+ rest)) pos)
      with (if startsWith pattern (String c (pre +:+ rest))
            then getSubstitution pattern str pos [] 0 template +:+
                 drop_str (String.length pattern) (String c (pre +:+ rest))
            else String c (replace_first_go pattern template str (pre +:+ rest) (S pos))).
    rewrite Hp, (IH H2), app_cons. cbn [String.length].
    replace (S pos + String.length pre) with (pos + S (String.length pre)) by lia.
    reflexivity.
Qed.

Lemma drop_str_app (s t : string) : drop_str (String.length s) (s +:+ t) = t.
Proof. induction s as [|c s IH]; [destruct t; reflexivity|]. rewrite app_cons. exact IH. Qed.

Lemma replace_first_go_hit (pattern template str rest : string) (pos : nat) :
  replace_first_go pattern template str (pattern +:+ rest) pos =
    getSubstitution pattern str pos [] 0 template +:+ rest.
Proof.
  pose proof (startsWith_refl_app pattern rest) as H.
  destruct (pattern +:+ rest) as [|c u] eqn:E.
  - cbn [replace_first_go]. rewrite H, <- E, drop_str_app. reflexivity.
  - cbn [replace_first_go]. rewrite H, <- E, drop_str_app. reflexivity.
Qed.

(** The pattern for the src attribute takes the attribute of an
    identifier, the identifier as group 1. *)
Lemma exec_html_ref (prev : option ascii) (h rest : string) :
  forall_chars isIdChar h = true -> h <> "" ->
  exec_at false htmlImageRefRegex prev
    (lit "src='" +:+ "img-" +:+ h +:+ String DQ rest) =
    Some (String.length (lit "src='" +:+ "img-" +:+ h +:+ lit "'"), [(1, "img-" +:+ h)]).
Proof.
  intros Hh Hne. unfold exec_at, htmlImageRefRegex.
  rewrite rmatch_Seq, rmatch_Str,
    (eat_app (lit "src='") ("img-" +:+ h +:+ String DQ rest)) by reflexivity.
  cbn [ms_pos ms_prev ms_caps].
  rewrite rmatch_Seq, rmatch_Group, rmatch_Seq, rmatch_Str,
    (eat_app "img-" (h +:+ String DQ rest)) by reflexivity.
  cbn [ms_pos ms_prev ms_caps ms_rest]. unfold Plus. rewrite rmatch_Rep_Cls.
  cbn [ms_rest].
  change (String.length (lit "src='")) with 5. change (String.length "img-") with 4.
  rewrite (rep_greedy_run _ _
             (MState (0 + 5 + 4 + String.length h + 1) (Some DQ) rest
                [(1, "img-" +:+ h)])).
  - cbn [ms_pos ms_caps].
    replace (String.length (lit "src='" +:+ "img-" +:+ h +:+ lit "'"))
      with (0 + 5 + 4 + String.length h + 1); [reflexivity|].
    rewrite !length_app_str. cbn. lia.
  - exact Hh.
  - reflexivity.
  - destruct h; [contradiction|]. cbn [String.length]. lia.
  - rewrite length_app_str. cbn [String.length]. lia.
  - cbn [ms_pos ms_prev ms_rest ms_caps].
    rewrite rmatch_Str, (eat_app (lit "'") rest) by reflexivity.
    cbn [ms_pos ms_prev ms_caps].
    change (String.length (lit "'")) with 1.
    change (last_prev (lit "'") (last_prev h (last_prev "img-" (last_prev (lit "src='") prev))))
      with (Some DQ).
    replace (0 + 5 + 4 + String.length h - (0 + 5)) with (String.length ("img-" +:+ h))
      by (rewrite length_app_str; cbn [String.length]; lia).
    rewrite <- (app_assoc_str "img-" h), take_str_app. reflexivity.
Qed.

Lemma idChar_not (a c : ascii) :
  isIdChar a = false -> isIdChar c = true -> negb (a =? c)%char = true.
Proof.
  intros Ha Hc. destruct (Ascii.eqb_spec a c) as [<-|]; [congruence|reflexivity].
Qed.

(** What [matchAll] finds for the src pattern in a text that holds one
    such attribute of an identifier. *)
Lemma matchAll_html_ref (pre h rest : string) :
  forall_chars isIdChar h = true -> h <> "" ->
  includes (lit "src='") (pre +:+ "src=") = false ->
  includes (lit "src='") rest = false ->
  matchAll false htmlImageRefRegex
    (pre +:+ (lit "src='" +:+ ("img-" +:+ h) +:+ lit "'") +:+ rest) =
    [(lit "src='" +:+ ("img-" +:+ h) +:+ lit "'", [(1, "img-" +:+ h)])].
Proof.
  intros Hh Hne Hpre Hrest. unfold matchAll.
  pose proof (exec_html_ref (last_prev pre None) h rest Hh Hne) as E.
  unfold htmlImageRefRegex in *.
  rewrite matchAll_go_prefix by exact Hpre.
  rewrite !app_assoc_str.
  change (lit "src='" +:+ "img-" +:+ h +:+ lit "'" +:+ rest)
    with (String "s" (lit "rc='" +:+ "img-" +:+ h +:+ lit "'" +:+ rest)).
  cbn [matchAll_go].
  change (String "s" (lit "rc='" +:+ "img-" +:+ h +:+ lit "'" +:+ rest))
    with (lit "src='" +:+ "img-" +:+ h +:+ String DQ rest).
  rewrite E.
  change (lit "src='" +:+ "img-" +:+ h +:+ String DQ rest)
    with (lit "src='" +:+ "img-" +:+ h +:+ lit "'" +:+ rest).
  rewrite <- !app_assoc_str, take_str_app.
  change (String.length (((lit "src='" +:+ "img-") +:+ h) +:+ lit "'"))
    with (S (String.length (((lit "rc='" +:+ "img-") +:+ h) +:+ lit "'"))).
  cbn [Nat.pred].
  change (lit "rc='" +:+ "img-" +:+ h +:+ lit "'" +:+ rest)
    with (lit "rc='" +:+ "img-" +:+ h +:+ lit "'" +:+ rest).
  rewrite !app_assoc_str.
  rewrite <- (app_assoc_str h (lit "'") rest), <- (app_assoc_str "img-" (h +:+ lit "'") rest),
    <- (app_assoc_str (lit "rc='") ("img-" +:+ h +:+ lit "'") rest).
  rewrite matchAll_go_skip_app, matchAll_go_absent by exact Hrest.
  reflexivity.
Qed.

(** X19: an imported image is exported inline. For the tag that the import
    dialog inserts for a stored image whose type holds no dollar sign,
    whatever the size and the alignment chosen, [exportWithInlinedImages]
    returns the same tag with the identifier replaced by the data URL of
    the image, and leaves the store as it is. *)
Theorem X19_imported_image_is_exported (db : database) (blob : Blob) (now : N)
    (size : SizePreset) (alignment : Alignment) :
  includes "$" (blob_type blob) = false ->
  let stored := storeImage blob now db in
  exportWithInlinedImages (imageTag stored.1 size alignment) stored.2 =
    (imageTag (readAsDataURL blob) size alignment, stored.2).
Proof.
  intros Hdollar. cbn zeta. rewrite storeImage_eq. cbn [fst snd].
  destruct (generateImageId_shape blob) as (h & Hid & Hlen & Hh).
  set (image := mkStoredImage (generateImageId blob) blob (blob_type blob) now).
  rewrite Hid.
  set (rest := lit " alt='image' style='" +:+ imageStyle size alignment +:+ lit "' />").
  assert (forall id, imageTag id size alignment =
            "<img " +:+ (lit "src='" +:+ id +:+ lit "'") +:+ rest) as Htag
    by (intros id; unfold imageTag, rest; rewrite !app_assoc_str; reflexivity).
  assert (h <> "") as Hne by (destruct h; [discriminate|discriminate]).
  assert (includes (lit "src='") rest = false) as Hrest
    by (unfold rest; destruct size, alignment; reflexivity).
  rewrite !Htag. unfold exportWithInlinedImages. cbn zeta.
  rewrite (matchAll_html_ref "<img " h rest Hh Hne eq_refl Hrest).
  assert (matchAll false imageRefRegex
            ("<img " +:+ (lit "src='" +:+ ("img-" +:+ h) +:+ lit "'") +:+ rest) = []) as ->.
  { apply matchAll_go_absent, (includes_absent_all "!").
    rewrite !forall_chars_app.
    rewrite (forall_chars_impl _ _ h (fun c => idChar_not "!" c eq_refl) Hh).
    unfold rest. destruct size, alignment; reflexivity. }
  unfold mbind, async_bind. cbn [export_md_loop export_html_loop].
  unfold mret, async_ret, mbind, async_bind.
  change (capture_text 1 [(1, "img-" +:+ h)]) with ("img-" +:+ h).
  rewrite getImage_eq, lookup_insert_eq.
  change (truthy (Some (readAsDataURL (img_blob image))))
    with (Some (readAsDataURL blob)).
  cbv beta iota. f_equal. unfold replace_first.
  rewrite (replace_first_go_prefix (lit "src='")) by reflexivity.
  rewrite replace_first_go_hit, getSubstitution_plain; [reflexivity|].
  rewrite !forall_chars_app, (dataURL_no_dollar blob Hdollar). reflexivity.
Qed.

Lemma X19_imported_image_is_exported_witness :
  let blob := mkBlob (list_byte_of_string "abc") "image/png" in
  includes "$" (blob_type blob) = false /\
  exportWithInlinedImages (imageTag (storeImage blob 1 ∅).1 half left)
    (storeImage blob 1 ∅).2 =
    (imageTag (readAsDataURL blob) half left, (storeImage blob 1 ∅).2).
Proof.
  cbn zeta. split; [reflexivity|].
  apply (X19_imported_image_is_exported ∅ (mkBlob (list_byte_of_string "abc") "image/png")).
  reflexivity.
Defined.

(** ** A diagram, from the dialog to the diagram pass *)

Lemma trimEnd_app_ws (s w : string) :
  forall_chars isWhiteSpace w = true -> trimEnd_go (s +:+ w) = trimEnd_go s.
Proof.
  intros Hw. induction s as [|c s IH].
  - rewrite app_nil_l. induction w as [|d w IHw]; [reflexivity|].
    cbn [forall_chars] in Hw. apply andb_prop in Hw as [Hd Hw].
    cbn [trimEnd_go]. rewrite (IHw Hw), Hd. reflexivity.
  - rewrite app_cons. cbn [trimEnd_go]. rewrite IH. reflexivity.
Qed.

(** White space added at the end of a text does not show after [trim]. *)
Lemma trim_app_ws (s w : string) :
  forall_chars isWhiteSpace w = true -> trim (s +:+ w) = trim s.
Proof.
  intros Hw. unfold trim. induction s as [|c s IH].
  - rewrite app_nil_l, (trimStart_ws w Hw). reflexivity.
  - rewrite app_cons.
    change (trimStart_go (String c (s +:+ w)))
      with (if isWhiteSpace c then trimStart_go (s +:+ w) else String c (s +:+ w)).
    change (trimStart_go (String c s))
      with (if isWhiteSpace c then trimStart_go s else String c s).
    destruct (isWhiteSpace c); [exact IH|].
    rewrite <- app_cons. apply trimEnd_app_ws, Hw.
Qed.

(** The diagram pattern takes a fence that is opened by the word mermaid
    and whose body holds no backtick, the body as group 1. *)
Lemma exec_mermaid_fence (prev : option ascii) (body post : string) :
  forall_chars not_backtick body = true ->
  exec_at false re_mermaid prev (lit "```mermaid\n" +:+ body +:+ "```" +:+ post) =
    Some (String.length (lit "```mermaid\n" +:+ body +:+ "```"), [(1, body)]).
Proof.
  intros Hb. unfold exec_at, re_mermaid, StarLazy.
  rewrite rmatch_Seq, rmatch_Str,
    (eat_app (lit "```mermaid\n") (body +:+ "```" +:+ post)) by reflexivity.
  cbn [ms_pos ms_prev ms_caps].
  change (String.length (lit "```mermaid\n")) with 11.
  rewrite rmatch_Seq, rmatch_Group, rmatch_Rep_Cls.
  rewrite (rep_lazy_run _ not_backtick _
             (MState (0 + 11 + String.length body + 3) (Some "`"%char) post [(1, body)])).
  - cbn [ms_pos ms_caps].
    replace (String.length (lit "```mermaid\n" +:+ body +:+ "```"))
      with (0 + 11 + String.length body + 3); [reflexivity|].
    rewrite !length_app_str. cbn. lia.
  - intros pos' prev' c r caps' Hc. rewrite rmatch_Str.
    cbn [eat ms_rest ms_pos ms_prev ms_caps].
    unfold not_backtick in Hc. apply negb_true_iff in Hc.
    rewrite Ascii.eqb_sym, Hc. reflexivity.
  - apply forall_chars_any.
  - exact Hb.
  - cbn [ms_rest Nat.add]. rewrite length_app_str. lia.
  - cbn [ms_pos ms_prev ms_rest ms_caps].
    rewrite rmatch_Str, (eat_app "```" post) by reflexivity.
    cbn [ms_pos ms_prev ms_rest ms_caps last_prev String.length].
    replace (0 + 11 + String.length body - (0 + 11)) with (String.length body) by lia.
    rewrite take_str_app. reflexivity.
Qed.

(** X20: a diagram from the dialog is recognised by the diagram pass. For
    every code without backtick, the diagram pass turns the block that the
    diagram dialog inserts (the code between a mermaid fence) into one div
    element of the classes mermaid and fragment that holds the trimmed
    code, with nothing left of the fence. *)
Theorem X20_diagram_block_becomes_a_div (code : string) :
  forall_chars not_backtick code = true ->
  mermaidDiagrams (DiagramModal.mermaidBlock code) =
    lit "<div class='mermaid fragment'>" +:+ trim code +:+ "</div>".
Proof.
  intros Hcode. unfold DiagramModal.mermaidBlock.
  change (lit "```mermaid\n" +:+ code +:+ lit "\n```")
    with (lit "```mermaid\n" +:+ code +:+ lit "\n" +:+ "```").
  rewrite <- (app_assoc_str code (lit "\n") "```").
  assert (forall_chars not_backtick (code +:+ lit "\n") = true) as Hbody
    by (rewrite forall_chars_app, Hcode; reflexivity).
  pose proof (exec_mermaid_fence None (code +:+ lit "\n") "" Hbody) as E.
  rewrite app_nil_r in E.
  unfold mermaidDiagrams, replace_fn, replace_with.
  change (lit "```mermaid\n" +:+ (code +:+ lit "\n") +:+ "```")
    with (String "`" (lit "``mermaid\n" +:+ (code +:+ lit "\n") +:+ "```")) at 2.
  cbn [replace_go].
  change (String "`" (lit "``mermaid\n" +:+ (code +:+ lit "\n") +:+ "```"))
    with (lit "```mermaid\n" +:+ (code +:+ lit "\n") +:+ "```").
  rewrite E.
  change (String.length (lit "```mermaid\n" +:+ (code +:+ lit "\n") +:+ "```"))
    with (S (String.length (lit "``mermaid\n" +:+ (code +:+ lit "\n") +:+ "```"))).
  cbv beta iota.
  match goal with
  | |- context [replace_go ?m ?r ?f ?str ?rest (String.length ?rest) ?pos ?prev] =>
      pose proof (replace_go_skip m r f str rest "" "" (fun _ _ => eq_refl) pos prev) as Hs
  end.
  rewrite app_nil_r in Hs. rewrite Hs, app_nil_r.
  unfold convert_mermaid.
  change (capture_text 1 [(1, code +:+ lit "\n")]) with (code +:+ lit "\n").
  rewrite trim_app_ws by reflexivity. reflexivity.
Qed.

Lemma X20_diagram_block_becomes_a_div_witness :
  forall_chars not_backtick (lit "graph TD\n  A[Start] --> B[End]") = true /\
  mermaidDiagrams (DiagramModal.mermaidBlock (lit "graph TD\n  A[Start] --> B[End]")) =
    lit "<div class='mermaid fragment'>graph TD\n  A[Start] --> B[End]</div>".
Proof.
  split; [reflexivity|].
  apply (X20_diagram_block_becomes_a_div (lit "graph TD\n  A[Start] --> B[End]")).
  reflexivity.
Defined.

(** ** Inline markup on a line of its own *)

(** A lazy repetition of at least one character stops at the first place
    where what follows matches, when what follows cannot match at a
    character of the run. *)
Lemma rep_lazy_plus_run (q : ascii -> bool) (k : mstate -> option mstate)
    (z : mstate) (run rest : string) (fuel pos : nat) (prev : option ascii)
    (caps : captures) :
  (forall pos prev c r caps, q c = true -> k (MState pos prev (String c r) caps) = None) ->
  run <> "" ->
  forall_chars isLineChar run = true ->
  forall_chars q run = true ->
  S (String.length run) < fuel ->
  k (MState (pos + String.length run) (last_prev run prev) rest caps) = Some z ->
  rep_loop (one isLineChar) [] false k fuel 1 None (MState pos prev (run +:+ rest) caps) =
    Some z.
Proof.
  intros Hk Hne Hline Hq Hfuel Hend.
  destruct run as [|c run]; [contradiction|].
  destruct fuel as [|fuel]; [lia|].
  cbn [forall_chars] in Hline, Hq.
  apply andb_prop in Hline as [Hc Hline]. apply andb_prop in Hq as [_ Hq].
  cbn [rep_loop Nat.eqb negb andb option_map Nat.pred ms_pos ms_prev ms_rest ms_caps].
  rewrite clear_nil, app_cons, one_cons, Hc.
  apply (rep_lazy_run isLineChar q k z run Hk rest fuel (S pos) (Some c) caps Hline Hq).
  - cbn [String.length] in Hfuel. lia.
  - cbn [String.length last_prev] in Hend.
    replace (S pos + String.length run) with (pos + S (String.length run)) by lia.
    exact Hend.
Qed.

Lemma rmatch_Str_miss m (l : string) (k : mstate -> option mstate) (a c : ascii)
    (pos : nat) (prev : option ascii) (r : string) (caps : captures) :
  negb (a =? c)%char = true ->
  rmatch m (Str (String a l)) k (MState pos prev (String c r) caps) = None.
Proof.
  intros H. apply negb_true_iff in H. rewrite rmatch_Str. cbn [eat ms_rest].
  rewrite H. reflexivity.
Qed.

(** A pattern of the shape: opening literal, a group of one or more
    characters taken lazily, closing literal, on a text that is the opening
    literal, a line without the first character of the closing literal,
    and the closing literal. *)
Lemma exec_delimited (open : string) (d : ascii) (close inner post : string)
    (prev : option ascii) :
  inner <> "" ->
  forall_chars isLineChar inner = true ->
  forall_chars (fun c => negb (d =? c)%char) inner = true ->
  exec_at false (Str open +> Group 1 (PlusLazy Any) +> Str (String d close)) prev
    (open +:+ inner +:+ String d close +:+ post) =
    Some (String.length (open +:+ inner +:+ String d close), [(1, inner)]).
Proof.
  intros Hne Hline Hd. unfold exec_at, PlusLazy.
  rewrite rmatch_Seq, rmatch_Str,
    (eat_app open (inner +:+ String d close +:+ post)) by reflexivity.
  cbn [ms_pos ms_prev ms_caps]. rewrite rmatch_Seq, rmatch_Group, rmatch_Rep_Any.
  rewrite (rep_lazy_plus_run (fun c => negb (d =? c)%char) _
             (MState (0 + String.length open + String.length inner +
                      String.length (String d close))
                (last_prev (String d close) (last_prev inner (last_prev open prev)))
                post [(1, inner)])).
  - cbn [ms_pos ms_caps]. rewrite !length_app_str. do 2 f_equal. lia.
  - intros pos' prev' c r caps' Hc. apply rmatch_Str_miss, Hc.
  - exact Hne.
  - exact Hline.
  - exact Hd.
  - cbn [ms_rest]. rewrite length_app_str. cbn [String.length]. lia.
  - cbn [ms_pos ms_prev ms_rest ms_caps].
    rewrite rmatch_Str, (eat_app (String d close) post) by reflexivity.
    cbn [ms_pos ms_prev ms_caps].
    replace (0 + String.length open + String.length inner - (0 + String.length open))
      with (String.length inner) by lia.
    rewrite take_str_app. reflexivity.
Qed.

Lemma replace_go_whole m (a : ascii) (l : string) (r' : regex) (f : replacer)
    (str rest : string) (caps : captures) (pos : nat) (prev : option ascii) :
  rest <> "" ->
  exec_at m (Str (String a l) +> r') prev rest = Some (String.length rest, caps) ->
  replace_go m (Str (String a l) +> r') f str rest 0 pos prev = f rest caps pos str.
Proof.
  intros Hne E. destruct rest as [|c rest]; [contradiction|].
  cbn [replace_go]. rewrite E. cbn [String.length take_str].
  rewrite take_str_all by lia.
  pose proof (replace_go_skip m (Str (String a l) +> r') f str rest "" ""
                (fun _ _ => eq_refl) (S pos) (Some c)) as Hs.
  rewrite app_nil_r in Hs. rewrite Hs, app_nil_r. reflexivity.
Qed.

Lemma replace_go_prefix m (l : string) (r' : regex) (f : replacer) (str pre rest : string) :
  includes l (pre +:+ take_str (String.length l - 1) rest) = false ->
  forall pos prev,
    replace_go m (Str l +> r') f str (pre +:+ rest) 0 pos prev =
    pre +:+ replace_go m (Str l +> r') f str rest 0 (pos + String.length pre)
              (last_prev pre prev).
Proof.
  induction pre as [|c pre IH]; intros H pos prev.
  - rewrite !app_nil_l. cbn [String.length last_prev]. rewrite Nat.add_0_r. reflexivity.
  - apply includes_prefix_step in H as [H1 H2].
    rewrite app_cons. cbn [replace_go]. rewrite <- app_cons.
    rewrite exec_at_Str_miss by exact H1. rewrite (IH H2), app_cons.
    cbn [String.length last_prev].
    replace (S pos + String.length pre) with (pos + S (String.length pre)) by lia.
    reflexivity.
Qed.

(** The paragraph pattern takes a whole line at whose start the lookahead
    of the pattern finds nothing. *)
Lemma exec_at_paragraph_line (s : string) :
  s <> "" -> forall_chars isLineChar s = true ->
  rmatch true
    (Alt (Str "<" +> Cls [One "h"; One "u"; One "p"; One "o"; One "l"; One "i"]) Eol)
    Some (MState 0 None s []) = None ->
  exec_at true re_paragraph None s = Some (String.length s, [(1, s)]).
Proof.
  intros Hne H Hlook. unfold exec_at, re_paragraph. rewrite rmatch_Seq, rmatch_Bol.
  cbn [at_bol ms_prev]. rewrite rmatch_Seq, rmatch_NLook, Hlook.
  rewrite (line_group_match 1 0 None [] s H Hne). reflexivity.
Qed.

Lemma paragraph_hit_line (s : string) :
  s <> "" -> forall_chars isLineChar s = true ->
  rmatch true
    (Alt (Str "<" +> Cls [One "h"; One "u"; One "p"; One "o"; One "l"; One "i"]) Eol)
    Some (MState 0 None s []) = None ->
  paragraphs s = "<p>" +:+ s +:+ "</p>".
Proof.
  intros Hne H Hlook. unfold paragraphs, replace.
  rewrite (replace_with_line_whole true re_paragraph) with (caps := [(1, s)]).
  - reflexivity.
  - intros p rest Hp. apply exec_at_Bol_miss, Hp.
  - exact Hne.
  - apply exec_at_paragraph_line; assumption.
  - exact H.
Qed.

(** The last three passes on a line that holds no opening square bracket
    and no image tag and does not open with a block element: the line
    becomes a paragraph. *)
Lemma final_passes (html : string) :
  html <> "" ->
  forall_chars isLineChar html = true ->
  forall_chars (fun c => negb ("[" =? c)%char) html = true ->
  includes "<img" html = false ->
  rmatch true
    (Alt (Str "<" +> Cls [One "h"; One "u"; One "p"; One "o"; One "l"; One "i"]) Eol)
    Some (MState 0 None html []) = None ->
  paragraphs (imgTags (images html)) = "<p>" +:+ html +:+ "</p>".
Proof.
  intros Hne Hline Hbr Himg Hlook.
  unfold images, re_image.
  rewrite replace_absent by (apply (includes_absent_second_all "!" "["), Hbr).
  unfold imgTags, re_img_tag. rewrite replace_absent by exact Himg.
  apply paragraph_hit_line; assumption.
Qed.

(** The passes before the one for emphasis on a text without backtick. *)
Lemma code_passes_inert (html : string) :
  forall_chars (fun c => negb ("`" =? c)%char) html = true ->
  mermaidDiagrams html = html /\ codeBlocks html = html /\ inlineCode html = html.
Proof.
  intros H. repeat split.
  - apply replace_fn_absent, (includes_absent_all "`"), H.
  - apply replace_fn_absent, (includes_absent_all "`"), H.
  - apply replace_absent, (includes_absent_all "`"), H.
Qed.

Lemma emphasis_passes_inert (html : string) :
  forall_chars (fun c => negb ("*" =? c)%char) html = true ->
  bold html = html /\ italic html = html.
Proof.
  intros H. split; apply replace_absent, (includes_absent_all "*"), H.
Qed.

Lemma headers_miss (s : string) :
  startsWith "#" s = false -> forall_chars isLineChar s = true -> headers s = s.
Proof.
  intros Hs H.
  assert (forall l, startsWith (String "#" l) s = false) as Hl.
  { intros l. destruct s as [|c s]; [reflexivity|]. cbn [startsWith] in *.
    rewrite andb_true_r in Hs. rewrite Hs. reflexivity. }
  unfold headers, re_h1, re_h2, re_h3.
  rewrite (heading_miss "### ") by (try apply Hl; exact H).
  rewrite (heading_miss "## ") by (try apply Hl; exact H).
  apply heading_miss; [apply Hl|exact H].
Qed.

(** A text between two markers whose first character the text does not
    hold does not hold the doubled marker. *)
Lemma includes_wrapped (a : ascii) (l text : string) :
  text <> "" ->
  forall_chars (fun c => negb (a =? c)%char) text = true ->
  includes (String a (String a l)) (String a (text +:+ String a "")) = false.
Proof.
  intros Hne H. rewrite includes_cons, (includes_absent a _ text _ H).
  destruct text as [|c t]; [contradiction|].
  cbn [forall_chars] in H. apply andb_prop in H as [Hc _]. apply negb_true_iff in Hc.
  rewrite app_cons. cbn [startsWith includes]. rewrite Hc, !andb_false_r. reflexivity.
Qed.

Lemma textChar_absent (a : ascii) (s : string) :
  isTextChar a = false ->
  forall_chars isTextChar s = true ->
  forall_chars (fun c => negb (a =? c)%char) s = true.
Proof.
  intros Ha. apply forall_chars_impl. intros c Hc.
  destruct (Ascii.eqb_spec a c) as [<-|]; [congruence|reflexivity].
Qed.

(** The pattern for inline code takes a span without backtick between two
    backticks, the span as group 1. *)
Lemma exec_inline_span (prev : option ascii) (span post : string) :
  span <> "" ->
  forall_chars (fun c => negb ("`" =? c)%char) span = true ->
  exec_at false re_inline prev ("`" +:+ span +:+ "`" +:+ post) =
    Some (String.length ("`" +:+ span +:+ "`"), [(1, span)]).
Proof.
  intros Hne Hs. unfold exec_at, re_inline, Plus.
  rewrite rmatch_Seq, rmatch_Str, (eat_app "`" (span +:+ "`" +:+ post)) by reflexivity.
  cbn [ms_pos ms_prev ms_caps]. rewrite rmatch_Seq, rmatch_Group, rmatch_Rep_NCls.
  rewrite (rep_greedy_run _ _
             (MState (0 + 1 + String.length span + 1) (Some "`"%char) post [(1, span)])).
  - cbn [ms_pos ms_caps].
    replace (String.length ("`" +:+ span +:+ "`")) with (0 + 1 + String.length span + 1);
      [reflexivity|].
    rewrite !length_app_str. cbn [String.length]. lia.
  - revert Hs. apply forall_chars_impl. intros c Hc. cbn [class_has existsb citem_has].
    rewrite orb_false_r. exact Hc.
  - reflexivity.
  - destruct span; [contradiction|]. cbn [String.length]. lia.
  - cbn [ms_rest]. rewrite length_app_str. cbn [String.length]. lia.
  - cbn [ms_pos ms_prev ms_rest ms_caps].
    rewrite rmatch_Str, (eat_app "`" post) by reflexivity.
    cbn [ms_pos ms_prev ms_caps last_prev String.length].
    replace (0 + 1 + String.length span - (0 + 1)) with (String.length span) by lia.
    rewrite take_str_app. reflexivity.
Qed.

Section InlineMarkup.
Variable text : string.
Hypothesis text_ne : text <> "".
Hypothesis text_ok : forall_chars isTextChar text = true.

Lemma marked_line (open close : string) :
  forall_chars isLineChar open = true -> forall_chars isLineChar close = true ->
  forall_chars isLineChar (open +:+ text +:+ close) = true.
Proof.
  intros Ho Hc. rewrite !forall_chars_app, Ho, Hc, (textChar_line _ text_ok). reflexivity.
Qed.

Lemma marked_absent (a : ascii) (open close : string) :
  isTextChar a = false ->
  forall_chars (fun c => negb (a =? c)%char) open = true ->
  forall_chars (fun c => negb (a =? c)%char) close = true ->
  forall_chars (fun c => negb (a =? c)%char) (open +:+ text +:+ close) = true.
Proof.
  intros Ha Ho Hc. rewrite !forall_chars_app, Ho, Hc, (textChar_absent a _ Ha text_ok).
  reflexivity.
Qed.

Lemma marked_slide (open close : string) :
  open <> "" -> close <> "" ->
  trimStart_go (open +:+ text +:+ close) = open +:+ text +:+ close ->
  trimEnd_go close = close ->
  forall_chars isLineChar open = true -> forall_chars isLineChar close = true ->
  markdownToSlides (open +:+ text +:+ close) =
    "<section>" +:+ transforms (open +:+ text +:+ close) +:+ "</section>".
Proof.
  intros Ho Hc Hstart Hend Hlo Hlc. rewrite markdownToSlides_single.
  - unfold slideHtml, trim. rewrite Hstart.
    rewrite <- (app_assoc_str open text close), trimEnd_app by assumption.
    rewrite app_assoc_str. reflexivity.
  - destruct open; [contradiction|]. rewrite app_cons. discriminate.
  - apply line_no_delimiter, marked_line; assumption.
Qed.

(** What is left to do for an element that one of the inline passes has
    written around the text. *)
Lemma element_passes (open close : string) :
  open <> "" ->
  forall_chars isLineChar open = true -> forall_chars isLineChar close = true ->
  forall_chars (fun c => negb ("[" =? c)%char) open = true ->
  forall_chars (fun c => negb ("[" =? c)%char) close = true ->
  includes "<img" (open +:+ text +:+ close) = false ->
  unorderedLists (open +:+ text +:+ close) = open +:+ text +:+ close ->
  rmatch true
    (Alt (Str "<" +> Cls [One "h"; One "u"; One "p"; One "o"; One "l"; One "i"]) Eol)
    Some (MState 0 None (open +:+ text +:+ close) []) = None ->
  paragraphs (imgTags (images (links (unorderedLists (open +:+ text +:+ close))))) =
    "<p>" +:+ (open +:+ text +:+ close) +:+ "</p>".
Proof.
  intros Ho Hlo Hlc Hbo Hbc Himg Hlist Hlook. rewrite Hlist.
  pose proof (marked_absent "[" open close eq_refl Hbo Hbc) as Hbr.
  unfold links, re_link. rewrite replace_absent by (apply (includes_absent_all "["), Hbr).
  apply final_passes; try assumption.
  - destruct open; [contradiction|]. rewrite app_cons. discriminate.
  - apply marked_line; assumption.
Qed.

Lemma strong_transforms :
  transforms ("**" +:+ text +:+ "**") = "<p><strong>" +:+ text +:+ "</strong></p>".
Proof.
  unfold transforms.
  rewrite headers_miss by (try reflexivity; apply marked_line; reflexivity).
  destruct (code_passes_inert ("**" +:+ text +:+ "**")
              (marked_absent "`" "**" "**" eq_refl eq_refl eq_refl)) as (-> & -> & ->).
  assert (bold ("**" +:+ text +:+ "**") = "<strong>" +:+ text +:+ "</strong>") as ->.
  { unfold bold, replace, replace_with, re_bold.
    rewrite (replace_go_whole _ "*" "*" _ _ _ _ [(1, text)]); [reflexivity|discriminate|].
    exact (exec_delimited "**" "*" "*" text "" None text_ne (textChar_line _ text_ok)
             (textChar_absent "*" _ eq_refl text_ok)). }
  destruct (emphasis_passes_inert ("<strong>" +:+ text +:+ "</strong>")
              (marked_absent "*" "<strong>" "</strong>" eq_refl eq_refl eq_refl)) as [_ ->].
  rewrite element_passes; try reflexivity; try discriminate.
  - rewrite !app_assoc_str. reflexivity.
  - change (includes "<img" (text +:+ "</strong>") = false).
    rewrite (includes_absent "<" _ text _ (textChar_absent "<" _ eq_refl text_ok)).
    reflexivity.
  - apply (list_miss "<"); [reflexivity|reflexivity|]. apply (marked_line "<strong>"); reflexivity.
Qed.

Lemma em_transforms :
  transforms ("*" +:+ text +:+ "*") = "<p><em>" +:+ text +:+ "</em></p>".
Proof.
  unfold transforms.
  rewrite headers_miss by (try reflexivity; apply marked_line; reflexivity).
  destruct (code_passes_inert ("*" +:+ text +:+ "*")
              (marked_absent "`" "*" "*" eq_refl eq_refl eq_refl)) as (-> & -> & ->).
  assert (bold ("*" +:+ text +:+ "*") = "*" +:+ text +:+ "*") as ->.
  { apply replace_absent.
    exact (includes_wrapped "*" "" text text_ne (textChar_absent "*" _ eq_refl text_ok)). }
  assert (italic ("*" +:+ text +:+ "*") = "<em>" +:+ text +:+ "</em>") as ->.
  { unfold italic, replace, replace_with, re_italic.
    rewrite (replace_go_whole _ "*" "" _ _ _ _ [(1, text)]); [reflexivity|discriminate|].
    exact (exec_delimited "*" "*" "" text "" None text_ne (textChar_line _ text_ok)
             (textChar_absent "*" _ eq_refl text_ok)). }
  rewrite element_passes; try reflexivity; try discriminate.
  - rewrite !app_assoc_str. reflexivity.
  - change (includes "<img" (text +:+ "</em>") = false).
    rewrite (includes_absent "<" _ text _ (textChar_absent "<" _ eq_refl text_ok)).
    reflexivity.
  - apply (list_miss "<"); [reflexivity|reflexivity|]. apply (marked_line "<em>"); reflexivity.
Qed.

Lemma code_transforms :
  transforms ("`" +:+ text +:+ "`") = "<p><code>" +:+ text +:+ "</code></p>".
Proof.
  pose proof (textChar_absent "`" _ eq_refl text_ok) as Hbt.
  unfold transforms.
  rewrite headers_miss by (try reflexivity; apply marked_line; reflexivity).
  assert (mermaidDiagrams ("`" +:+ text +:+ "`") = "`" +:+ text +:+ "`") as ->.
  { apply replace_fn_absent. exact (includes_wrapped "`" (lit "`mermaid\n") text text_ne Hbt). }
  assert (codeBlocks ("`" +:+ text +:+ "`") = "`" +:+ text +:+ "`") as ->.
  { apply replace_fn_absent. exact (includes_wrapped "`" "`" text text_ne Hbt). }
  assert (inlineCode ("`" +:+ text +:+ "`") = "<code>" +:+ text +:+ "</code>") as ->.
  { unfold inlineCode, replace, replace_with, re_inline.
    rewrite (replace_go_whole _ "`" "" _ _ _ _ [(1, text)]); [reflexivity|discriminate|].
    exact (exec_inline_span None text "" text_ne Hbt). }
  destruct (emphasis_passes_inert ("<code>" +:+ text +:+ "</code>")
              (marked_absent "*" "<code>" "</code>" eq_refl eq_refl eq_refl)) as [-> ->].
  rewrite element_passes; try reflexivity; try discriminate.
  - rewrite !app_assoc_str. reflexivity.
  - change (includes "<img" (text +:+ "</code>") = false).
    rewrite (includes_absent "<" _ text _ (textChar_absent "<" _ eq_refl text_ok)).
    reflexivity.
  - apply (list_miss "<"); [reflexivity|reflexivity|]. apply (marked_line "<code>"); reflexivity.
Qed.
End InlineMarkup.

(** X21: inline markup on a line of its own. For a non-empty text without
    line break, backtick, asterisk, opening square bracket and opening
    angle bracket, the document that is the text between two pairs of
    asterisks compiles to one slide with the text in a strong element, the
    text between two asterisks to the text in an em element, and the text
    between two backticks to the text in a code element; each time the
    element stands in a paragraph. *)
Theorem X21_inline_markup (text : string) :
  text <> "" ->
  forall_chars isTextChar text = true ->
  markdownToSlides ("**" +:+ text +:+ "**") =
    "<section><p><strong>" +:+ text +:+ "</strong></p></section>" /\
  markdownToSlides ("*" +:+ text +:+ "*") =
    "<section><p><em>" +:+ text +:+ "</em></p></section>" /\
  markdownToSlides ("`" +:+ text +:+ "`") =
    "<section><p><code>" +:+ text +:+ "</code></p></section>".
Proof.
  intros Hne Htext. repeat split.
  - rewrite (marked_slide text Htext "**" "**") by (try reflexivity; discriminate).
    rewrite (strong_transforms text Hne Htext), !app_assoc_str. reflexivity.
  - rewrite (marked_slide text Htext "*" "*") by (try reflexivity; discriminate).
    rewrite (em_transforms text Hne Htext), !app_assoc_str. reflexivity.
  - rewrite (marked_slide text Htext "`" "`") by (try reflexivity; discriminate).
    rewrite (code_transforms text Hne Htext), !app_assoc_str. reflexivity.
Qed.

Lemma X21_inline_markup_witness :
  markdownToSlides "**very important**" =
    "<section><p><strong>very important</strong></p></section>" /\
  markdownToSlides "*very important*" =
    "<section><p><em>very important</em></p></section>" /\
  markdownToSlides "`very important`" =
    "<section><p><code>very important</code></p></section>".
Proof.
  apply (X21_inline_markup "very important"); [discriminate|reflexivity].
Defined.

(** ** Links, and images in Markdown syntax *)

(** The link pattern takes a link whose text holds no closing square
    bracket and whose target holds no closing parenthesis, the text as
    group 1 and the target as group 2. *)
Lemma exec_link (prev : option ascii) (text url post : string) :
  text <> "" -> url <> "" ->
  forall_chars isLineChar text = true -> forall_chars isLineChar url = true ->
  lacks "]" text = true -> lacks ")" url = true ->
  exec_at false re_link prev ("[" +:+ text +:+ "](" +:+ url +:+ ")" +:+ post) =
    Some (String.length ("[" +:+ text +:+ "](" +:+ url +:+ ")"), [(2, url); (1, text)]).
Proof.
  intros Ht Hu Hlt Hlu Hbt Hpu. unfold exec_at, re_link, PlusLazy.
  rewrite rmatch_Seq, rmatch_Str,
    (eat_app "[" (text +:+ "](" +:+ url +:+ ")" +:+ post)) by reflexivity.
  cbn [ms_pos ms_prev ms_caps String.length].
  rewrite rmatch_Seq, rmatch_Group, rmatch_Rep_Any.
  rewrite (rep_lazy_plus_run (fun c => negb ("]" =? c)%char) _
             (MState (0 + 1 + String.length text + 2 + String.length url + 1)
                (Some ")"%char) post [(2, url); (1, text)])).
  - cbn [ms_pos ms_caps].
    replace (String.length ("[" +:+ text +:+ "](" +:+ url +:+ ")"))
      with (0 + 1 + String.length text + 2 + String.length url + 1); [reflexivity|].
    rewrite !length_app_str. cbn [String.length]. lia.
  - intros pos' prev' c r caps' Hc. rewrite rmatch_Seq. apply rmatch_Str_miss, Hc.
  - exact Ht.
  - exact Hlt.
  - exact Hbt.
  - cbn [ms_rest]. rewrite length_app_str. cbn [String.length]. lia.
  - cbn [ms_pos ms_prev ms_rest ms_caps].
    rewrite rmatch_Seq, rmatch_Str, (eat_app "](" (url +:+ ")" +:+ post)) by reflexivity.
    cbn [ms_pos ms_prev ms_caps String.length].
    rewrite rmatch_Seq, rmatch_Group, rmatch_Rep_Any.
    apply (rep_lazy_plus_run (fun c => negb (")" =? c)%char)).
    + intros pos' prev' c r caps' Hc. apply rmatch_Str_miss, Hc.
    + exact Hu.
    + exact Hlu.
    + exact Hpu.
    + cbn [ms_rest]. rewrite length_app_str. cbn [String.length]. lia.
    + cbn [ms_pos ms_prev ms_rest ms_caps].
      rewrite rmatch_Str, (eat_app ")" post) by reflexivity.
      cbn [ms_pos ms_prev ms_caps String.length last_prev].
      replace (0 + 1 + String.length text + 2 + String.length url -
               (0 + 1 + String.length text + 2))
        with (String.length url) by lia.
      replace (0 + 1 + String.length text - (0 + 1)) with (String.length text) by lia.
      rewrite !take_str_app. reflexivity.
Qed.

Section Links.
Variables text url : string.
Hypothesis text_ne : text <> "".
Hypothesis url_ne : url <> "".
Hypothesis text_ok : forall_chars isTextChar text = true.
Hypothesis url_ok : forall_chars isTextChar url = true.
Hypothesis text_bracket : lacks "]" text = true.
Hypothesis url_paren : lacks ")" url = true.

Lemma link_absent (a : ascii) (pre : string) :
  isTextChar a = false ->
  forall_chars (fun c => negb (a =? c)%char) pre = true ->
  negb (a =? "]")%char && negb (a =? "(")%char && negb (a =? ")")%char = true ->
  forall_chars (fun c => negb (a =? c)%char)
    (pre +:+ text +:+ "](" +:+ url +:+ ")") = true.
Proof.
  intros Ha Hpre Hp. apply andb_prop in Hp as [Hp H3]. apply andb_prop in Hp as [H1 H2].
  rewrite !forall_chars_app, Hpre.
  rewrite (textChar_absent a _ Ha text_ok), (textChar_absent a _ Ha url_ok).
  cbn [forall_chars]. rewrite H1, H2, H3. reflexivity.
Qed.

Lemma link_line (pre : string) :
  forall_chars isLineChar pre = true ->
  forall_chars isLineChar (pre +:+ text +:+ "](" +:+ url +:+ ")") = true.
Proof.
  intros Hpre. rewrite !forall_chars_app, Hpre.
  rewrite (textChar_line _ text_ok), (textChar_line _ url_ok). reflexivity.
Qed.

(** The anchor element that the link pass writes. *)
Lemma anchor_final (pre : string) :
  forall_chars isLineChar pre = true ->
  forall_chars (fun c => negb ("[" =? c)%char) pre = true ->
  (forall x, includes "<img" (pre +:+ lit "<a href='" +:+ x) = includes "<img" x) ->
  rmatch true
    (Alt (Str "<" +> Cls [One "h"; One "u"; One "p"; One "o"; One "l"; One "i"]) Eol)
    Some (MState 0 None (pre +:+ lit "<a href='" +:+ url +:+ lit "'>" +:+ text +:+ "</a>") [])
    = None ->
  paragraphs (imgTags (images
    (pre +:+ lit "<a href='" +:+ url +:+ lit "'>" +:+ text +:+ "</a>"))) =
  "<p>" +:+ (pre +:+ lit "<a href='" +:+ url +:+ lit "'>" +:+ text +:+ "</a>") +:+ "</p>".
Proof.
  intros Hlp Hbp Himg Hlook. apply final_passes.
  - destruct pre; [rewrite app_nil_l|rewrite app_cons]; discriminate.
  - rewrite !forall_chars_app, Hlp, (textChar_line _ text_ok), (textChar_line _ url_ok).
    reflexivity.
  - rewrite !forall_chars_app, Hbp.
    rewrite (textChar_absent "[" _ eq_refl text_ok), (textChar_absent "[" _ eq_refl url_ok).
    reflexivity.
  - rewrite Himg.
    rewrite (includes_absent "<" _ url _ (textChar_absent "<" _ eq_refl url_ok)).
    change (includes "<img" (text +:+ "</a>") = false).
    rewrite (includes_absent "<" _ text _ (textChar_absent "<" _ eq_refl text_ok)).
    reflexivity.
  - exact Hlook.
Qed.

Lemma early_passes (pre : string) :
  startsWith "#" (pre +:+ "[") = false ->
  forall_chars isLineChar pre = true ->
  forall_chars (fun c => negb ("`" =? c)%char) pre = true ->
  forall_chars (fun c => negb ("*" =? c)%char) pre = true ->
  let s := pre +:+ "[" +:+ text +:+ "](" +:+ url +:+ ")" in
  italic (bold (inlineCode (codeBlocks (mermaidDiagrams (headers s))))) = s.
Proof.
  intros Hh Hl Hb Hs s.
  assert (forall_chars isLineChar s = true) as Hline.
  { unfold s. rewrite <- (app_assoc_str pre "[").
    apply link_line. rewrite forall_chars_app, Hl. reflexivity. }
  rewrite headers_miss; [| |exact Hline].
  - assert (forall_chars (fun c => negb ("`" =? c)%char) s = true) as H1.
    { unfold s. rewrite <- (app_assoc_str pre "[").
      apply link_absent; [reflexivity| |reflexivity].
      rewrite forall_chars_app, Hb. reflexivity. }
    assert (forall_chars (fun c => negb ("*" =? c)%char) s = true) as H2.
    { unfold s. rewrite <- (app_assoc_str pre "[").
      apply link_absent; [reflexivity| |reflexivity].
      rewrite forall_chars_app, Hs. reflexivity. }
    destruct (code_passes_inert s H1) as (-> & -> & ->).
    destruct (emphasis_passes_inert s H2) as (-> & ->). reflexivity.
  - unfold s. destruct pre as [|c pre']; [reflexivity|].
    rewrite app_cons in Hh |- *. cbn [startsWith] in *.
    rewrite andb_true_r in *. exact Hh.
Qed.

Lemma link_transforms :
  transforms ("[" +:+ text +:+ "](" +:+ url +:+ ")") =
    "<p>" +:+ (lit "<a href='" +:+ url +:+ lit "'>" +:+ text +:+ "</a>") +:+ "</p>".
Proof.
  unfold transforms. cbv zeta.
  pose proof (early_passes "" eq_refl eq_refl eq_refl eq_refl) as E.
  cbv zeta in E. rewrite !app_nil_l in E. rewrite E.
  change ("[" +:+ text +:+ "](" +:+ url +:+ ")")
    with (String "[" (text +:+ "](" +:+ url +:+ ")")).
  rewrite (list_miss "["); [|reflexivity|reflexivity|apply (link_line "["); reflexivity].
  change (String "[" (text +:+ "](" +:+ url +:+ ")"))
    with ("[" +:+ text +:+ "](" +:+ url +:+ ")").
  assert (links ("[" +:+ text +:+ "](" +:+ url +:+ ")") =
          lit "<a href='" +:+ url +:+ lit "'>" +:+ text +:+ "</a>") as ->.
  { unfold links, replace, replace_with, re_link.
    rewrite (replace_go_whole _ "[" "" _ _ _ _ [(2, url); (1, text)]);
      [reflexivity|discriminate|].
    exact (exec_link None text url "" text_ne url_ne (textChar_line _ text_ok)
             (textChar_line _ url_ok) text_bracket url_paren). }
  pose proof (anchor_final "" eq_refl eq_refl (fun x => eq_refl) eq_refl) as F.
  rewrite !app_nil_l in F. exact F.
Qed.

Lemma image_transforms :
  transforms ("![" +:+ text +:+ "](" +:+ url +:+ ")") =
    "<p>" +:+ ("!" +:+ lit "<a href='" +:+ url +:+ lit "'>" +:+ text +:+ "</a>") +:+ "</p>".
Proof.
  unfold transforms. cbv zeta.
  pose proof (early_passes "!" eq_refl eq_refl eq_refl eq_refl) as E.
  cbv zeta in E.
  change ("![" +:+ text +:+ "](" +:+ url +:+ ")")
    with ("!" +:+ "[" +:+ text +:+ "](" +:+ url +:+ ")").
  rewrite E.
  change ("!" +:+ "[" +:+ text +:+ "](" +:+ url +:+ ")")
    with (String "!" ("[" +:+ text +:+ "](" +:+ url +:+ ")")).
  rewrite (list_miss "!"); [|reflexivity|reflexivity|apply (link_line "!["); reflexivity].
  assert (links (String "!" ("[" +:+ text +:+ "](" +:+ url +:+ ")")) =
          "!" +:+ lit "<a href='" +:+ url +:+ lit "'>" +:+ text +:+ "</a>") as ->.
  { unfold links, replace, replace_with, re_link.
    change (String "!" ("[" +:+ text +:+ "](" +:+ url +:+ ")"))
      with ("!" +:+ ("[" +:+ text +:+ "](" +:+ url +:+ ")")) at 2.
    rewrite replace_go_prefix by reflexivity.
    rewrite (replace_go_whole _ "[" "" _ _ _ _ [(2, url); (1, text)]);
      [reflexivity|discriminate|].
    exact (exec_link (Some "!"%char) text url "" text_ne url_ne (textChar_line _ text_ok)
             (textChar_line _ url_ok) text_bracket url_paren). }
  exact (anchor_final "!" eq_refl eq_refl (fun x => eq_refl) eq_refl).
Qed.
End Links.

(** X22: links, and images written in Markdown syntax. For a non-empty
    text and a non-empty target without line break, backtick, asterisk,
    opening square bracket and opening angle bracket, the text without
    closing square bracket and the target without closing parenthesis: the
    document that is the link compiles to one slide with a paragraph that
    holds the anchor element of that target around the text; and the same
    with an exclamation mark in front, the Markdown syntax of an image,
    compiles to the exclamation mark followed by the same anchor element:
    the link pass has taken it before the image pass runs, and no img
    element is written. *)
Theorem X22_links_and_markdown_images (text url : string) :
  text <> "" -> url <> "" ->
  forall_chars isTextChar text = true -> forall_chars isTextChar url = true ->
  lacks "]" text = true -> lacks ")" url = true ->
  markdownToSlides ("[" +:+ text +:+ "](" +:+ url +:+ ")") =
    "<section><p>" +:+ lit "<a href='" +:+ url +:+ lit "'>" +:+ text +:+
    "</a></p></section>" /\
  markdownToSlides ("![" +:+ text +:+ "](" +:+ url +:+ ")") =
    "<section><p>!" +:+ lit "<a href='" +:+ url +:+ lit "'>" +:+ text +:+
    "</a></p></section>".
Proof.
  intros Ht Hu Htext Hurl Hb Hp.
  assert (forall pre, pre <> "" -> forall_chars isLineChar pre = true ->
            trimStart_go (pre +:+ text +:+ "](" +:+ url +:+ ")") =
              pre +:+ text +:+ "](" +:+ url +:+ ")" ->
            markdownToSlides (pre +:+ text +:+ "](" +:+ url +:+ ")") =
              "<section>" +:+ transforms (pre +:+ text +:+ "](" +:+ url +:+ ")") +:+
              "</section>") as Hslide.
  { intros pre Hpre Hline Hstart. rewrite markdownToSlides_single.
    - unfold slideHtml, trim. rewrite Hstart.
      replace (pre +:+ text +:+ "](" +:+ url +:+ ")")
        with ((pre +:+ text +:+ "](" +:+ url) +:+ ")") at 1
        by (rewrite !app_assoc_str; reflexivity).
      rewrite trimEnd_app by (try reflexivity; discriminate).
      rewrite !app_assoc_str. reflexivity.
    - destruct pre; [contradiction|]. rewrite app_cons. discriminate.
    - apply line_no_delimiter, link_line; assumption. }
  split.
  - rewrite (Hslide "[") by (try reflexivity; discriminate).
    rewrite (link_transforms text url) by assumption.
    rewrite !app_assoc_str. reflexivity.
  - rewrite (Hslide "![") by (try reflexivity; discriminate).
    rewrite (image_transforms text url) by assumption.
    rewrite !app_assoc_str. reflexivity.
Qed.

Lemma X22_links_and_markdown_images_witness :
  markdownToSlides "[docs](https://example.org)" =
    lit "<section><p><a href='https://example.org'>docs</a></p></section>" /\
  markdownToSlides "![logo](logo.png)" =
    lit "<section><p>!<a href='logo.png'>logo</a></p></section>".
Proof.
  split.
  - apply (X22_links_and_markdown_images "docs" "https://example.org");
      (discriminate || reflexivity).
  - apply (X22_links_and_markdown_images "logo" "logo.png");
      (discriminate || reflexivity).
Defined.

(** ** List blocks: from the text to the items *)

Lemma spaces_run (n : nat) : forall_chars (class_has [One " "]) (spaces n) = true.
Proof. induction n as [|n IH]; [reflexivity|]. cbn [spaces forall_chars]. rewrite IH. reflexivity. Qed.

Lemma length_spaces (n : nat) : String.length (spaces n) = n.
Proof. induction n as [|n IH]; [reflexivity|]. cbn [spaces String.length]. rewrite IH. reflexivity. Qed.

Lemma rmatch_Opt_Str m (a : ascii) (l : string) (k : mstate -> option mstate)
    (st : mstate) :
  rmatch m (Opt (Str (String a l))) k st =
    match
      match eat (String a l) st with
      | Some st' => if (ms_pos st' =? ms_pos st)%nat then None else k st'
      | None => None
      end
    with
    | Some z => Some z
    | None => k st
    end.
Proof.
  unfold Opt. rewrite rmatch_Rep.
  replace (0 + String.length (ms_rest st) + 1) with (S (String.length (ms_rest st))) by lia.
  cbn [rep_loop Nat.eqb negb andb groups Nat.pred option_map]. rewrite rmatch_Str.
  assert (MState (ms_pos st) (ms_prev st) (ms_rest st) (clear [] (ms_caps st)) = st) as ->
    by (rewrite clear_nil; destruct st; reflexivity).
  destruct st as [pos prev [|c rest] caps]; [reflexivity|].
  destruct (eat (String a l) (MState pos prev (String c rest) caps)) as [st'|];
    [|reflexivity].
  destruct (ms_pos st' =? ms_pos (MState pos prev (String c rest) caps))%nat; reflexivity.
Qed.

Lemma last_prev_app (s t : string) (prev : option ascii) :
  last_prev (s +:+ t) prev = last_prev t (last_prev s prev).
Proof.
  revert prev. induction s as [|c s IH]; intros prev; [reflexivity|].
  rewrite app_cons. cbn [last_prev]. apply IH.
Qed.

(** One line of a list block, up to the end of the line. *)
Lemma list_entry_to_eol (it : item) (tail : string) (k : mstate -> option mstate)
    (z : mstate) (pos : nat) (prev : option ascii) (caps : captures) :
  at_bol true (MState pos prev "" []) = true ->
  forall_chars isLineChar (text it) = true ->
  match tail with "" => True | String c _ => isLineChar c = false end ->
  rmatch true (Eol +> Opt (Str (lit "\n"))) k
    (MState (pos + String.length (itemLine it)) (last_prev (itemLine it) prev) tail caps) =
    Some z ->
  rmatch true re_list_entry k (MState pos prev (itemLine it +:+ tail) caps) = Some z.
Proof.
  intros Hbol Htext Htail Hk. unfold re_list_entry.
  rewrite rmatch_Seq, rmatch_Bol.
  change (at_bol true (MState pos prev (itemLine it +:+ tail) caps))
    with (at_bol true (MState pos prev "" [])).
  rewrite Hbol, rmatch_Seq. unfold Star at 1. rewrite rmatch_Rep_Cls.
  unfold itemLine in *. rewrite !app_assoc_str.
  apply rep_greedy_run.
  - apply spaces_run.
  - reflexivity.
  - lia.
  - cbn [ms_rest]. rewrite length_app_str. lia.
  - rewrite rmatch_Seq, rmatch_Str, (eat_app "- " (text it +:+ tail)) by reflexivity.
    cbn [ms_pos ms_prev ms_caps]. rewrite rmatch_Seq. unfold Star. rewrite rmatch_Rep_Any.
    apply rep_greedy_run.
    + exact Htext.
    + exact Htail.
    + lia.
    + cbn [ms_rest]. rewrite length_app_str. lia.
    + rewrite !length_app_str, !last_prev_app in Hk.
      rewrite !Nat.add_assoc in Hk. exact Hk.
Qed.

(** The last line of a block. *)
Lemma list_entry_last (it : item) (k : mstate -> option mstate) (z : mstate)
    (pos : nat) (prev : option ascii) (caps : captures) :
  at_bol true (MState pos prev "" []) = true ->
  forall_chars isLineChar (text it) = true ->
  k (MState (pos + String.length (itemLine it)) (last_prev (itemLine it) prev) "" caps) =
    Some z ->
  rmatch true re_list_entry k (MState pos prev (itemLine it) caps) = Some z.
Proof.
  intros Hbol Htext Hk. rewrite <- (app_nil_r (itemLine it)) at 1.
  apply list_entry_to_eol; [exact Hbol|exact Htext|exact I|].
  rewrite rmatch_Seq, rmatch_Eol. cbn [at_eol ms_rest].
  change (lit "\n") with (String LF "").
  rewrite rmatch_Opt_Str. cbn [eat ms_rest]. exact Hk.
Qed.

(** A line that is followed by a line feed. *)
Lemma list_entry_next (it : item) (more : string) (k : mstate -> option mstate)
    (z : mstate) (pos : nat) (prev : option ascii) (caps : captures) :
  at_bol true (MState pos prev "" []) = true ->
  forall_chars isLineChar (text it) = true ->
  k (MState (S (pos + String.length (itemLine it))) (Some LF) more caps) = Some z ->
  rmatch true re_list_entry k (MState pos prev (itemLine it +:+ String LF more) caps) =
    Some z.
Proof.
  intros Hbol Htext Hk.
  apply list_entry_to_eol; [exact Hbol|exact Htext|reflexivity|].
  rewrite rmatch_Seq, rmatch_Eol. cbn [at_eol ms_rest andb].
  change (isLineTerminator LF) with true. cbv iota.
  change (lit "\n") with (String LF "").
  rewrite rmatch_Opt_Str. cbn [eat ms_rest].
  change (LF =? LF)%char with true. cbv iota. unfold advance. cbn [ms_pos ms_caps].
  replace (S (pos + String.length (itemLine it)) =? pos + String.length (itemLine it))%nat
    with false by (symmetry; apply Nat.eqb_neq; lia).
  rewrite Hk. reflexivity.
Qed.

Lemma last_prev_line (s : string) (prev : option ascii) :
  s <> "" -> forall_chars isLineChar s = true ->
  at_bol true (MState 0 (last_prev s prev) "" []) = false.
Proof.
  revert prev. induction s as [|c s IH]; intros prev Hne H; [contradiction|].
  cbn [forall_chars] in H. apply andb_prop in H as [Hc Hs].
  cbn [last_prev]. destruct s as [|d s].
  - cbn [last_prev at_bol ms_prev andb]. unfold isLineChar in Hc.
    apply negb_true_iff in Hc. exact Hc.
  - apply IH; [discriminate|exact Hs].
Qed.

Lemma itemLine_line (it : item) :
  forall_chars isLineChar (text it) = true ->
  itemLine it <> "" /\ forall_chars isLineChar (itemLine it) = true /\
  2 <= String.length (itemLine it).
Proof.
  intros H. unfold itemLine. repeat split.
  - destruct (spaces (indent it)); [rewrite app_nil_l|rewrite app_cons]; discriminate.
  - rewrite !forall_chars_app, H, andb_true_r.
    apply (forall_chars_impl (class_has [One " "])); [|apply spaces_run].
    intros c Hc. cbn [class_has existsb citem_has] in Hc. rewrite orb_false_r in Hc.
    apply Ascii.eqb_eq in Hc. subst c. reflexivity.
  - rewrite !length_app_str. cbn [String.length]. lia.
Qed.

(** The repetition of the list pattern stops where no line starts. *)
Lemma list_loop_end (pos : nat) (prev : option ascii) (caps : captures) :
  at_bol true (MState 0 prev "" []) = false ->
  rmatch true (Rep re_list_entry 0 None true) Some (MState pos prev "" caps) =
    Some (MState pos prev "" caps).
Proof.
  intros H. rewrite rmatch_Rep. cbn [ms_rest String.length Nat.add rep_loop Nat.eqb negb].
  unfold re_list_entry at 1. rewrite rmatch_Seq, rmatch_Bol.
  unfold at_bol in H |- *. cbn [ms_prev] in H |- *. rewrite H. reflexivity.
Qed.

(** The repetition of the list pattern takes a block of list lines as a
    whole. *)
Lemma list_block_match (items : list item) :
  items <> [] ->
  Forall (fun it => forall_chars isLineChar (text it) = true) items ->
  forall (min pos : nat) (prev : option ascii) (caps : captures),
    min <= 1 ->
    at_bol true (MState 0 prev "" []) = true ->
    rmatch true (Rep re_list_entry min None true) Some
      (MState pos prev (listBlockOf items) caps) =
    Some (MState (pos + String.length (listBlockOf items))
            (last_prev (listBlockOf items) prev) "" caps).
Proof.
  induction items as [|it items IH]; [contradiction|].
  intros _ Hall min pos prev caps Hmin Hbol.
  apply Forall_cons in Hall as [Hit Hall].
  destruct (itemLine_line it Hit) as (Hne & Hline & Hlen).
  assert (Nat.pred min = 0) as Hpred by lia.
  assert (exists tail, listBlockOf (it :: items) = itemLine it +:+ tail /\
            (items = [] /\ tail = "" \/
             items <> [] /\ tail = String LF (listBlockOf items))) as (tail & Hblock & Htail).
  { destruct items as [|it2 more].
    - exists "". rewrite app_nil_r. split; [reflexivity|]. left. split; reflexivity.
    - exists (String LF (listBlockOf (it2 :: more))). split; [|right; split; [discriminate|reflexivity]].
      unfold listBlockOf. cbn [map]. rewrite join_cons by discriminate. reflexivity. }
  rewrite Hblock, rmatch_Rep. cbn [ms_rest].
  replace (min + String.length (itemLine it +:+ tail) + 1)
    with (S (min + String.length (itemLine it +:+ tail))) by lia.
  cbn [rep_loop ms_pos ms_prev ms_rest ms_caps option_map].
  change (groups re_list_entry) with (@nil nat). rewrite clear_nil.
  match goal with
  | |- (if _ then ?m else match ?m with Some z => Some z | None => _ end) = ?r =>
      assert (m = r) as Hm; [|destruct (negb (min =? 0)%nat); rewrite Hm; reflexivity]
  end.
  destruct Htail as [[-> ->]|[Hitems ->]].
  - rewrite app_nil_r.
    apply list_entry_last; [exact Hbol|exact Hit|].
    cbn [ms_pos].
    replace (pos + String.length (itemLine it) =? pos)%nat with false
      by (symmetry; apply Nat.eqb_neq; lia).
    rewrite andb_false_r, Hpred.
    rewrite rmatch_Rep_fuel by (cbn [ms_rest String.length]; lia).
    apply list_loop_end, last_prev_line; assumption.
  - apply list_entry_next; [exact Hbol|exact Hit|].
    cbn [ms_pos].
    replace (S (pos + String.length (itemLine it)) =? pos)%nat with false
      by (symmetry; apply Nat.eqb_neq; lia).
    rewrite andb_false_r, Hpred.
    rewrite rmatch_Rep_fuel
      by (cbn [ms_rest]; rewrite length_app_str; cbn [String.length]; lia).
    rewrite (IH Hitems Hall 0 _ (Some LF) caps) by (try lia; reflexivity).
    rewrite !last_prev_app, !length_app_str. cbn [String.length last_prev].
    do 2 f_equal. lia.
Qed.

Lemma exec_list_block (items : list item) :
  items <> [] ->
  Forall (fun it => forall_chars isLineChar (text it) = true) items ->
  exec_at true re_list None (listBlockOf items) =
    Some (String.length (listBlockOf items), []).
Proof.
  intros Hne Hall. unfold exec_at.
  change re_list with (Rep re_list_entry 1 None true).
  rewrite (list_block_match items Hne Hall 1 0 None []) by (try lia; reflexivity).
  reflexivity.
Qed.

Lemma line_lacks_LF (s : string) :
  forall_chars isLineChar s = true -> includes (lit "\n") s = false.
Proof.
  intros H. apply (includes_absent_all LF). revert H. apply forall_chars_impl.
  intros c Hc. unfold isLineChar, isLineTerminator in Hc.
  destruct (Ascii.eqb_spec LF c) as [<-|]; [discriminate|reflexivity].
Qed.

(** Splitting at line feeds gives back the lines that were joined. *)
Lemma split_join_lines (lines : list string) :
  lines <> [] ->
  Forall (fun l => forall_chars isLineChar l = true) lines ->
  split_str (lit "\n") (join (lit "\n") lines) = lines.
Proof.
  intros Hne Hall. unfold split_str.
  assert (forall cur,
            split_str_go (lit "\n") (join (lit "\n") lines) 0 cur =
            match lines with x :: rest => (cur +:+ x) :: rest | [] => [] end) as H.
  { induction lines as [|x lines IH]; [contradiction|]. intros cur.
    apply Forall_cons in Hall as [Hx Hall].
    destruct lines as [|y rest].
    - apply (split_str_go_absent (lit "\n") (lit "\n") eq_refl), line_lacks_LF, Hx.
    - rewrite join_cons by discriminate.
      rewrite (split_str_go_prefix (lit "\n") (lit "\n") eq_refl)
        by (cbn [String.length Nat.sub take_str]; rewrite app_nil_r;
            apply line_lacks_LF, Hx).
      rewrite split_str_go_hit by discriminate.
      rewrite (IH ltac:(discriminate) Hall ""). reflexivity. }
  rewrite H. destruct lines; [contradiction|reflexivity].
Qed.

Lemma match_go_hit m r (rest : string) (prev : option ascii) (n : nat) (caps : captures) :
  exec_at m r prev rest = Some (n, caps) ->
  match_go m r rest prev = Some (take_str n rest, caps).
Proof. intros E. destruct rest; cbn [match_go]; rewrite E; reflexivity. Qed.

(** The two patterns of the callback on the line of an entry. *)
Lemma exec_list_line (it : item) :
  exec_at false re_list_line None (itemLine it) =
    Some (String.length (spaces (indent it)) + 2, []).
Proof.
  unfold exec_at, re_list_line, itemLine.
  rewrite rmatch_Seq, rmatch_Bol. cbn [at_bol ms_prev].
  rewrite rmatch_Seq. unfold Star. rewrite rmatch_Rep_Cls.
  rewrite (rep_greedy_run _ _
             (MState (0 + String.length (spaces (indent it)) + 2) (Some " "%char)
                (text it) [])).
  - reflexivity.
  - apply spaces_run.
  - reflexivity.
  - lia.
  - cbn [ms_rest]. rewrite length_app_str. lia.
  - rewrite rmatch_Str, (eat_app "- " (text it)) by reflexivity. reflexivity.
Qed.

Lemma exec_list_item (it : item) :
  forall_chars isLineChar (text it) = true ->
  exec_at false re_list_item None (itemLine it) =
    Some (String.length (itemLine it), [(2, text it); (1, spaces (indent it))]).
Proof.
  intros Htext. unfold exec_at, re_list_item, itemLine.
  rewrite rmatch_Seq, rmatch_Bol. cbn [at_bol ms_prev].
  rewrite rmatch_Seq, rmatch_Group. unfold Star. rewrite rmatch_Rep_Cls.
  rewrite (rep_greedy_run _ _
             (MState (0 + String.length (spaces (indent it)) + 2 + String.length (text it))
                (last_prev (text it) (Some " "%char)) ""
                [(2, text it); (1, spaces (indent it))])).
  - cbn [ms_pos ms_caps]. rewrite !length_app_str. cbn [String.length].
    do 2 f_equal. lia.
  - apply spaces_run.
  - reflexivity.
  - lia.
  - cbn [ms_rest]. rewrite length_app_str. lia.
  - cbn [ms_pos ms_prev ms_rest ms_caps].
    rewrite rmatch_Seq, rmatch_Str, (eat_app "- " (text it)) by reflexivity.
    cbn [ms_pos ms_prev ms_caps String.length last_prev].
    rewrite rmatch_Seq, rmatch_Group, rmatch_Rep_Any.
    pose proof (rep_greedy_run isLineChar
      (fun st' =>
         rmatch false Eol Some
           (MState (ms_pos st') (ms_prev st') (ms_rest st')
              ((2, take_str
                     (ms_pos st' - (0 + String.length (spaces (indent it)) + 2))
                     (text it)) :: ms_caps st')))
      (MState (0 + String.length (spaces (indent it)) + 2 + String.length (text it))
         (last_prev (text it) (Some " "%char)) ""
         [(2, text it); (1, spaces (indent it))])
      (text it) "" (0 + String.length (text it) + 1) 0
      (0 + String.length (spaces (indent it)) + 2) (Some " "%char)
      [(1, take_str (0 + String.length (spaces (indent it)) - 0)
             (spaces (indent it) +:+ "- " +:+ text it))]
      Htext I) as R.
    rewrite app_nil_r in R. apply R; [lia|lia|].
    cbn [ms_pos ms_prev ms_rest ms_caps]. rewrite rmatch_Eol. cbn [at_eol ms_rest].
    replace (0 + String.length (spaces (indent it)) + 2 + String.length (text it) -
             (0 + String.length (spaces (indent it)) + 2))
      with (String.length (text it)) by lia.
    replace (0 + String.length (spaces (indent it)) - 0)
      with (String.length (spaces (indent it))) by lia.
    rewrite take_str_all by lia. rewrite take_str_app. reflexivity.
Qed.

(** The callback reads the items back from the lines of a block. *)
Lemma list_items_block (items : list item) :
  items <> [] ->
  Forall (fun it => forall_chars isLineChar (text it) = true) items ->
  list_items (listBlockOf items) = items.
Proof.
  intros Hne Hall. unfold list_items, listBlockOf.
  rewrite split_join_lines.
  - set (P := fun line =>
               match match_first false re_list_line line with
               | Some _ => true
               | None => false
               end).
    set (F := fun line =>
               match match_first false re_list_item line with
               | Some (_, caps) =>
                   Item (String.length (capture_text 1 caps)) (capture_text 2 caps)
               | None => Item 0 ""
               end).
    assert (forall it, P (itemLine it) = true) as HP.
    { intros it. unfold P, match_first.
      rewrite (match_go_hit _ _ _ _ _ _ (exec_list_line it)). reflexivity. }
    assert (forall it, forall_chars isLineChar (text it) = true -> F (itemLine it) = it)
      as HF.
    { intros it Hit. unfold F, match_first.
      rewrite (match_go_hit _ _ _ _ _ _ (exec_list_item it Hit)).
      change (capture_text 1 [(2, text it); (1, spaces (indent it))])
        with (spaces (indent it)).
      change (capture_text 2 [(2, text it); (1, spaces (indent it))]) with (text it).
      rewrite length_spaces. destruct it; reflexivity. }
    clear Hne. induction Hall as [|it items Hit _ IH]; [reflexivity|].
    cbn [map List.filter]. rewrite HP. cbn [map]. rewrite (HF it Hit), IH. reflexivity.
  - destruct items; [contradiction|discriminate].
  - clear Hne. induction Hall as [|it items Hit _ IH]; [constructor|].
    cbn [map]. constructor; [|exact IH]. apply (itemLine_line it Hit).
Qed.

Lemma replace_with_whole m r (f : replacer) (s : string) (caps : captures) :
  s <> "" ->
  exec_at m r None s = Some (String.length s, caps) ->
  (forall prev, exec_at m r prev "" = None) ->
  replace_with m r f s = f s caps 0 s.
Proof.
  intros Hne E Hend. unfold replace_with. destruct s as [|c s]; [contradiction|].
  cbn [replace_go]. rewrite E. cbn [String.length take_str].
  rewrite take_str_all by lia.
  assert (forall pos prev, replace_go m r f (String c s) "" 0 pos prev = "") as H0
    by (intros pos prev; cbn [replace_go]; rewrite Hend; reflexivity).
  pose proof (replace_go_skip m r f (String c s) s "" "" H0 1 (Some c)) as Hs.
  rewrite app_nil_r in Hs. rewrite Hs, app_nil_r. reflexivity.
Qed.

Lemma exec_list_empty (prev : option ascii) : exec_at true re_list prev "" = None.
Proof.
  unfold exec_at. change re_list with (Rep re_list_entry 1 None true).
  rewrite rmatch_Rep. cbn [ms_rest String.length Nat.add rep_loop Nat.eqb negb].
  unfold re_list_entry at 1. rewrite rmatch_Seq, rmatch_Bol.
  destruct (at_bol true _); reflexivity.
Qed.

(** X23: the list pass reads a block of list lines as the items they
    spell. For every non-empty list of items whose texts hold no line
    break, the list pass turns the block whose lines are, for each item,
    its indentation in spaces, a dash, a space and its text, into what
    [parseList] writes for these very items from depth 0: the pattern takes
    the block as a whole, and the callback recovers each indentation and
    text. *)
Theorem X23_list_block_is_parsed (items : list item) :
  items <> [] ->
  Forall (fun it => forall_chars isLineChar (text it) = true) items ->
  unorderedLists (listBlockOf items) = parseList items 0.
Proof.
  intros Hne Hall. unfold unorderedLists, replace_fn.
  rewrite (replace_with_whole true re_list _ _ []).
  - unfold convert_list. rewrite list_items_block by assumption. reflexivity.
  - destruct items as [|it items]; [contradiction|].
    apply Forall_cons in Hall as [Hit _].
    destruct (itemLine_line it Hit) as (Hl & _ & _).
    unfold listBlockOf. cbn [map]. destruct items as [|it2 more].
    + exact Hl.
    + rewrite join_cons by discriminate.
      destruct (itemLine it); [contradiction|]. rewrite app_cons. discriminate.
  - apply exec_list_block; assumption.
  - apply exec_list_empty.
Qed.

Lemma X23_list_block_is_parsed_witness :
  unorderedLists (lit "- A\n  - B\n    - C\n- D") =
    parseList [Item 0 "A"; Item 2 "B"; Item 4 "C"; Item 0 "D"] 0.
Proof.
  apply (X23_list_block_is_parsed [Item 0 "A"; Item 2 "B"; Item 4 "C"; Item 0 "D"]).
  - discriminate.
  - repeat constructor.
Defined.

(** ** Several lines, none of which the pattern matches *)

Lemma unlines_cons (l : string) (lines : list string) :
  unlines (l :: lines) = l +:+ String LF (unlines lines).
Proof. unfold unlines. cbn [map concat_str fold_right]. rewrite app_assoc_str. reflexivity. Qed.

Lemma join_snoc (lines : list string) (last : string) :
  join (lit "\n") (lines ++ [last]) = unlines lines +:+ last.
Proof.
  induction lines as [|l lines IH]; [reflexivity|].
  cbn [app]. rewrite join_cons by (destruct lines; discriminate).
  rewrite IH, unlines_cons, !app_assoc_str. reflexivity.
Qed.

Section Lines.
Variable m : bool.
Variable r : regex.
Variable f : replacer.
Variable str : string.
Hypothesis anchored :
  forall p rest, isLineTerminator p = false -> exec_at m r (Some p) rest = None.

Lemma replace_go_line_then (line more : string) :
  forall_chars isLineChar line = true ->
  forall pos p, isLineTerminator p = false ->
    replace_go m r f str (line +:+ String LF more) 0 pos (Some p) =
    line +:+ String LF (replace_go m r f str more 0 (S (pos + String.length line)) (Some LF)).
Proof.
  induction line as [|c line IH]; intros H pos p Hp.
  - rewrite !app_nil_l. cbn [replace_go String.length]. rewrite anchored by exact Hp.
    rewrite Nat.add_0_r. reflexivity.
  - cbn [forall_chars] in H. apply andb_prop in H as [Hc Hl].
    rewrite !app_cons. cbn [replace_go]. rewrite <- app_cons, anchored by exact Hp.
    rewrite IH by (try exact Hl; apply negb_true_iff, Hc).
    cbn [String.length]. rewrite Nat.add_succ_r. reflexivity.
Qed.

Lemma replace_go_missed_then (line more : string) :
  missed m r line ->
  forall pos prev,
    replace_go m r f str (line +:+ String LF more) 0 pos prev =
    line +:+ String LF (replace_go m r f str more 0 (S (pos + String.length line)) (Some LF)).
Proof.
  intros (Hne & Hline & Hmiss) pos prev.
  destruct line as [|c line]; [contradiction|].
  cbn [forall_chars] in Hline. apply andb_prop in Hline as [Hc Hl].
  pose proof (Hmiss prev (String LF more)) as E.
  rewrite !app_cons in E |- *. cbn [replace_go]. rewrite E.
  rewrite replace_go_line_then by (try exact Hl; apply negb_true_iff, Hc).
  cbn [String.length]. rewrite Nat.add_succ_r. reflexivity.
Qed.

Lemma replace_go_missed_last (line : string) :
  missed m r line ->
  forall pos prev, replace_go m r f str line 0 pos prev = line.
Proof.
  intros (Hne & Hline & Hmiss) pos prev.
  destruct line as [|c line]; [contradiction|].
  cbn [forall_chars] in Hline. apply andb_prop in Hline as [Hc Hl].
  pose proof (Hmiss prev "") as E. rewrite app_nil_r in E.
  cbn [replace_go]. rewrite E.
  rewrite (replace_go_anchored m r anchored) by (try exact Hl; apply negb_true_iff, Hc).
  reflexivity.
Qed.

(** The pass copies lines that it misses and goes on after them. *)
Lemma replace_go_unlines (lines : list string) :
  Forall (missed m r) lines ->
  forall more pos prev,
    exists pos' prev',
      replace_go m r f str (unlines lines +:+ more) 0 pos prev =
      unlines lines +:+ replace_go m r f str more 0 pos' prev' /\
      (lines <> [] -> prev' = Some LF) /\ (lines = [] -> prev' = prev).
Proof.
  induction 1 as [|l lines Hl _ IH]; intros more pos prev.
  - exists pos, prev. rewrite !app_nil_l. split; [reflexivity|].
    split; [intros H; contradiction|reflexivity].
  - rewrite unlines_cons, app_assoc_str, app_cons.
    rewrite replace_go_missed_then by exact Hl.
    destruct (IH more (S (pos + String.length l)) (Some LF)) as (pos' & prev' & E & H1 & H2).
    exists pos', prev'. rewrite E, app_assoc_str, app_cons. split; [reflexivity|].
    split; [|discriminate]. intros _. destruct lines; [apply H2; reflexivity|apply H1; discriminate].
Qed.
End Lines.

Lemma replace_with_all_missed m r (f : replacer) (lines : list string) (last : string) :
  (forall p rest, isLineTerminator p = false -> exec_at m r (Some p) rest = None) ->
  Forall (missed m r) lines -> missed m r last ->
  replace_with m r f (unlines lines +:+ last) = unlines lines +:+ last.
Proof.
  intros Ha Hlines Hlast. unfold replace_with.
  destruct (replace_go_unlines m r f (unlines lines +:+ last) Ha lines Hlines last 0 None)
    as (pos' & prev' & -> & _).
  rewrite (replace_go_missed_last m r f _ Ha last Hlast). reflexivity.
Qed.

(** ** A flat list, from the text to the slide *)

Lemma flat_itemLine (it : item) : indent it = 0 -> itemLine it = "- " +:+ text it.
Proof. intros H. unfold itemLine. rewrite H. reflexivity. Qed.

Lemma bullet_missed_heading (mark t : string) :
  forall_chars isLineChar t = true ->
  missed true (Bol +> Str (String "#" mark) +> Group 1 (Plus Any) +> Eol) ("- " +:+ t).
Proof.
  intros H. split; [discriminate|]. split; [rewrite forall_chars_app, H; reflexivity|].
  intros prev tail. apply exec_at_Bol_Str_miss. reflexivity.
Qed.

Lemma flat_block_lines (items : list item) :
  items <> [] -> Forall flatEntry items ->
  exists front last,
    listBlockOf items = unlines (map (fun it => "- " +:+ text it) front) +:+ "- " +:+ last /\
    Forall (fun t => forall_chars isTextChar t = true) (map text front) /\
    last <> "" /\ trim last = last /\ forall_chars isTextChar last = true.
Proof.
  intros Hne Hall. destruct (exists_last Hne) as (front & it & ->).
  apply Forall_app in Hall as [Hfront Hit]. apply Forall_cons in Hit as [Hit _].
  destruct Hit as (Hind & Htne & Htrim & Htext).
  exists front, (text it). repeat split; try assumption.
  - unfold listBlockOf. rewrite map_app. cbn [map]. rewrite join_snoc, (flat_itemLine it Hind).
    f_equal. f_equal. clear Hne. induction Hfront as [|x l Hx _ IH]; [reflexivity|].
    cbn [map]. rewrite IH, (flat_itemLine x (proj1 Hx)). reflexivity.
  - clear Hne. induction Hfront as [|x l Hx _ IH]; [constructor|].
    cbn [map]. constructor; [apply Hx|exact IH].
Qed.

Lemma forall_chars_unlines (p : ascii -> bool) (lines : list string) :
  p LF = true -> Forall (fun l => forall_chars p l = true) lines ->
  forall_chars p (unlines lines) = true.
Proof.
  intros Hp. induction 1 as [|l lines Hl _ IH]; [reflexivity|].
  rewrite unlines_cons, forall_chars_app, Hl. cbn [forall_chars]. rewrite Hp, IH. reflexivity.
Qed.

Lemma Forall_map_lines {A} (g : A -> string) (P : string -> Prop) (l : list A) :
  Forall (fun x => P (g x)) l -> Forall P (map g l).
Proof. induction 1; cbn [map]; constructor; assumption. Qed.

Section FlatBlock.
Variable front : list string.
Variable last : string.
Hypothesis front_ok : Forall (fun t => forall_chars isTextChar t = true) front.
Hypothesis last_ne : last <> "".
Hypothesis last_trim : trim last = last.
Hypothesis last_ok : forall_chars isTextChar last = true.

Lemma flatDoc_chars (p : ascii -> bool) :
  p LF = true -> p "-"%char = true -> p " "%char = true ->
  (forall c, isTextChar c = true -> p c = true) ->
  forall_chars p (flatDoc front last) = true.
Proof.
  intros H1 H2 H3 Hp. unfold flatDoc.
  rewrite !forall_chars_app, (forall_chars_impl _ _ last Hp last_ok).
  cbn [forall_chars]. rewrite H2, H3.
  rewrite forall_chars_unlines; [reflexivity|exact H1|].
  apply Forall_map_lines. eapply Forall_impl; [exact front_ok|].
  intros t Ht. cbn beta. rewrite forall_chars_app, (forall_chars_impl _ _ t Hp Ht).
  cbn [forall_chars]. rewrite H2, H3. reflexivity.
Qed.

Lemma flatDoc_headers : headers (flatDoc front last) = flatDoc front last.
Proof.
  assert (forall mark f,
            replace_with true (Bol +> Str (String "#" mark) +> Group 1 (Plus Any) +> Eol) f
              (flatDoc front last) = flatDoc front last) as H.
  { intros mark f. unfold flatDoc. apply replace_with_all_missed.
    - intros p rest Hp. apply exec_at_Bol_miss, Hp.
    - apply Forall_map_lines. eapply Forall_impl; [exact front_ok|].
      intros t Ht. apply bullet_missed_heading, textChar_line, Ht.
    - apply bullet_missed_heading, textChar_line, last_ok. }
  unfold headers, replace, re_h1, re_h2, re_h3. rewrite !H. reflexivity.
Qed.
End FlatBlock.

Lemma flatDoc_cons (t : string) (front : list string) (last : string) :
  flatDoc (t :: front) last = ("- " +:+ t) +:+ String LF (flatDoc front last).
Proof.
  unfold flatDoc. cbn [map]. rewrite unlines_cons, !app_assoc_str. reflexivity.
Qed.

Lemma flatDoc_head (front : list string) (last : string) :
  exists x, flatDoc front last = "- " +:+ x.
Proof.
  destruct front as [|t front].
  - exists last. reflexivity.
  - rewrite flatDoc_cons, app_assoc_str. eexists. reflexivity.
Qed.

Lemma flatDoc_no_delimiter (front : list string) (last : string) :
  Forall (fun t => forall_chars isTextChar t = true) front ->
  forall_chars isTextChar last = true ->
  includes delimiter (flatDoc front last) = false.
Proof.
  intros Hfront Hlast. induction Hfront as [|t front Ht _ IH].
  - apply line_no_delimiter. unfold flatDoc.
    rewrite !forall_chars_app, (textChar_line _ Hlast). reflexivity.
  - rewrite flatDoc_cons.
    change delimiter with (String LF (lit "---\n")).
    rewrite includes_absent.
    + rewrite includes_cons. change (String LF (lit "---\n")) with delimiter. rewrite IH.
      destruct (flatDoc_head front last) as [x ->]. reflexivity.
    + rewrite forall_chars_app. cbn [forall_chars].
      revert Ht. apply forall_chars_impl. intros c Hc.
      destruct (Ascii.eqb_spec LF c) as [<-|]; [discriminate|reflexivity].
Qed.

Lemma flatDoc_trim (front : list string) (last : string) :
  last <> "" -> trim last = last -> trim (flatDoc front last) = flatDoc front last.
Proof.
  intros Hne Htrim. unfold trim.
  destruct (flatDoc_head front last) as [x Hx].
  assert (trimStart_go (flatDoc front last) = flatDoc front last) as ->
    by (rewrite Hx; reflexivity).
  unfold flatDoc. rewrite <- !app_assoc_str. apply trimEnd_app; [|exact Hne].
  destruct last as [|c s]; [contradiction|]. apply (trim_fixed c s Htrim).
Qed.

Lemma entries_unlines (items : list item) :
  concat_str (map plainEntry items) = unlines (map entryLine items).
Proof.
  induction items as [|it items IH]; [reflexivity|].
  cbn [map]. rewrite unlines_cons, <- IH. unfold plainEntry, entryLine.
  cbn [concat_str fold_right]. fold (concat_str (map plainEntry items)).
  rewrite !app_assoc_str. reflexivity.
Qed.

Lemma paragraph_missed (c : ascii) (x : string) :
  class_has [One "h"; One "u"; One "p"; One "o"; One "l"; One "i"] c = true ->
  forall_chars isLineChar (String c x) = true ->
  missed true re_paragraph (String "<" (String c x)).
Proof.
  intros Hc Hx. split; [discriminate|]. split; [exact Hx|].
  intros prev tail. unfold exec_at, re_paragraph. rewrite rmatch_Seq, rmatch_Bol.
  destruct (at_bol true _); [|reflexivity].
  rewrite rmatch_Seq, rmatch_NLook, rmatch_Alt, rmatch_Seq, rmatch_Str.
  rewrite !app_cons. cbn [eat ms_rest Ascii.eqb Bool.eqb andb].
  change (rmatch true (Cls [One "h"; One "u"; One "p"; One "o"; One "l"; One "i"]) Some)
    with (one (class_has [One "h"; One "u"; One "p"; One "o"; One "l"; One "i"]) Some).
  unfold advance. rewrite one_cons, Hc. reflexivity.
Qed.

Lemma entries_no_img (items : list item) (tail : string) :
  Forall flatEntry items ->
  includes "<img" tail = false ->
  includes "<img" (unlines (map entryLine items) +:+ tail) = false.
Proof.
  intros Hall Htail. induction Hall as [|it l Hit _ IH]; [exact Htail|].
  destruct Hit as (_ & _ & _ & Ht).
  cbn [map]. rewrite unlines_cons. unfold entryLine. rewrite !app_assoc_str.
  change (includes "<img"
            (text it +:+ "</li>" +:+ String LF (unlines (map entryLine l)) +:+ tail) = false).
  rewrite (includes_absent "<" _ (text it) _ (textChar_absent "<" _ eq_refl Ht)).
  change (includes "<img" (unlines (map entryLine l) +:+ tail) = false).
  exact IH.
Qed.

Section FlatHtml.
Variable items : list item.
Hypothesis items_ok : Forall flatEntry items.

Lemma entries_absent (a : ascii) :
  isTextChar a = false -> negb (a =? LF)%char = true ->
  forall_chars (fun c => negb (a =? c)%char) (lit "<li class='fragment'>") = true ->
  forall_chars (fun c => negb (a =? c)%char) "</li>" = true ->
  forall_chars (fun c => negb (a =? c)%char) (unlines (map entryLine items)) = true.
Proof.
  intros Ha Hlf Ho Hc. apply forall_chars_unlines; [exact Hlf|].
  apply Forall_map_lines. eapply Forall_impl; [exact items_ok|].
  intros it (_ & _ & _ & Ht). unfold entryLine.
  rewrite !forall_chars_app, Ho, Hc, (textChar_absent a _ Ha Ht). reflexivity.
Qed.


Lemma entries_missed : Forall (missed true re_paragraph) (map entryLine items).
Proof.
  apply Forall_map_lines. eapply Forall_impl; [exact items_ok|].
  intros it (_ & _ & _ & Ht). unfold entryLine.
  change (lit "<li class='fragment'>" +:+ text it +:+ "</li>")
    with (String "<" (String "l" (lit "i class='fragment'>" +:+ text it +:+ "</li>"))).
  apply paragraph_missed; [reflexivity|].
  change (forall_chars isLineChar (lit "li class='fragment'>" +:+ text it +:+ "</li>") = true).
  rewrite !forall_chars_app, (textChar_line _ Ht). reflexivity.
Qed.

(** The last passes on the markup of a flat list: the entries stay, the
    line that closes the list becomes a paragraph. *)
Lemma flat_html_final :
  paragraphs (imgTags (images (links
    (lit "<ul>\n" +:+ concat_str (map plainEntry items) +:+ "</ul>")))) =
  lit "<ul>\n" +:+ concat_str (map plainEntry items) +:+ "<p></ul></p>".
Proof.
  rewrite entries_unlines.
  assert (forall_chars (fun c => negb ("[" =? c)%char)
            (lit "<ul>\n" +:+ unlines (map entryLine items) +:+ "</ul>") = true) as Hbr.
  { rewrite !forall_chars_app, (entries_absent "[") by reflexivity. reflexivity. }
  unfold links, re_link. rewrite replace_absent by (apply (includes_absent_all "["), Hbr).
  unfold images, re_image.
  rewrite replace_absent by (apply (includes_absent_second_all "!" "["), Hbr).
  unfold imgTags, re_img_tag. rewrite replace_absent.
  - unfold paragraphs, replace, replace_with.
    change (lit "<ul>\n" +:+ unlines (map entryLine items) +:+ "</ul>")
      with (unlines ("<ul>" :: map entryLine items) +:+ "</ul>") at 2.
    destruct (replace_go_unlines true re_paragraph
                (fun matched caps position s =>
                   getSubstitution matched s position caps (length (groups re_paragraph))
                     "<p>$1</p>")
                (lit "<ul>\n" +:+ unlines (map entryLine items) +:+ "</ul>")
                (fun p rest Hp => exec_at_Bol_miss _ p rest Hp)
                ("<ul>" :: map entryLine items)
                ltac:(constructor;
                        [exact (paragraph_missed "u" "l>" eq_refl eq_refl)
                        |exact entries_missed])
                "</ul>" 0 None) as (pos' & prev' & -> & Hprev & _).
    rewrite (Hprev ltac:(discriminate)). reflexivity.
  - change (includes "<img" (unlines (map entryLine items) +:+ "</ul>") = false).
    apply entries_no_img; [exact items_ok|reflexivity].
Qed.
End FlatHtml.

Lemma listBlockOf_nonempty (items : list item) :
  items <> [] -> listBlockOf items <> "".
Proof.
  intros Hne. destruct items as [|it items]; [contradiction|].
  assert (itemLine it <> "") as Hl.
  { unfold itemLine. destruct (spaces (indent it)); [rewrite app_nil_l|rewrite app_cons];
      discriminate. }
  unfold listBlockOf. cbn [map]. destruct items as [|it2 more]; [exact Hl|].
  rewrite join_cons by discriminate.
  destruct (itemLine it); [contradiction|]. rewrite app_cons. discriminate.
Qed.

(** X24: a flat list, from the text to the slide. For every non-empty
    list of entries without indentation whose texts are trimmed, non-empty
    and free of line break, backtick, asterisk, opening square bracket and
    opening angle bracket, the document whose lines are a dash, a space and
    the text of each entry compiles to one slide: the opening tag of the
    list on a line, then one fragment entry per line in the order of the
    text, and then the closing tag of the list inside a paragraph element,
    because the paragraph pass takes the line that closes the list for
    text. *)
Theorem X24_flat_list_slide (items : list item) :
  items <> [] ->
  Forall flatEntry items ->
  markdownToSlides (listBlockOf items) =
    "<section>" +:+ lit "<ul>\n" +:+ concat_str (map plainEntry items) +:+
    "<p></ul></p></section>".
Proof.
  intros Hne Hall.
  assert (Forall (fun it => forall_chars isLineChar (text it) = true) items) as Hlines.
  { eapply Forall_impl; [exact Hall|]. intros it (_ & _ & _ & Ht). apply textChar_line, Ht. }
  assert (exists front last,
            listBlockOf items = flatDoc front last /\
            Forall (fun t => forall_chars isTextChar t = true) front /\
            last <> "" /\ trim last = last /\ forall_chars isTextChar last = true)
    as (front & last & Hdoc & Hfront & Hlne & Htrim & Hlast).
  { destruct (flat_block_lines items Hne Hall) as (fr & la & E & H1 & H2 & H3 & H4).
    exists (map text fr), la. repeat split; try assumption.
    rewrite E. unfold flatDoc. rewrite map_map. reflexivity. }
  rewrite markdownToSlides_single;
    [|apply listBlockOf_nonempty, Hne
     |rewrite Hdoc; apply flatDoc_no_delimiter; assumption].
  unfold slideHtml.
  assert (trim (listBlockOf items) = listBlockOf items) as ->
    by (rewrite Hdoc; apply flatDoc_trim; assumption).
  unfold transforms.
  assert (headers (listBlockOf items) = listBlockOf items) as ->
    by (rewrite Hdoc; apply flatDoc_headers; assumption).
  assert (forall a, isTextChar a = false ->
            negb (a =? LF)%char && negb (a =? "-")%char && negb (a =? " ")%char = true ->
            forall_chars (fun c => negb (a =? c)%char) (listBlockOf items) = true) as Habs.
  { intros a Ha Hp. apply andb_prop in Hp as [Hp H3]. apply andb_prop in Hp as [H1 H2].
    rewrite Hdoc. apply flatDoc_chars; try assumption.
    intros c Hc. destruct (Ascii.eqb_spec a c) as [<-|]; [congruence|reflexivity]. }
  destruct (code_passes_inert _ (Habs "`"%char eq_refl eq_refl)) as (-> & -> & ->).
  destruct (emphasis_passes_inert _ (Habs "*"%char eq_refl eq_refl)) as (-> & ->).
  assert (unorderedLists (listBlockOf items) =
          lit "<ul>\n" +:+ concat_str (map plainEntry items) +:+ "</ul>") as ->.
  { unfold unorderedLists, replace_fn.
    rewrite (replace_with_whole true re_list _ _ []);
      [|apply listBlockOf_nonempty, Hne|apply exec_list_block; assumption
       |apply exec_list_empty].
    unfold convert_list. rewrite list_items_block by assumption.
    rewrite parseList_unfold, (listBody_flat 0 items); [reflexivity|].
    eapply Forall_impl; [exact Hall|]. intros it (Hi & _). exact Hi. }
  rewrite (flat_html_final items Hall), !app_assoc_str. reflexivity.
Qed.

Lemma X24_flat_list_slide_witness :
  markdownToSlides (lit "- Markdown editor\n- Live preview") =
    lit "<section><ul>\n<li class='fragment'>Markdown editor</li>\n<li class='fragment'>Live preview</li>\n<p></ul></p></section>".
Proof.
  apply (X24_flat_list_slide [Item 0 "Markdown editor"; Item 0 "Live preview"]).
  - discriminate.
  - repeat constructor; discriminate.
Defined.

(** ** An imported image in the editor *)

Lemma exec_widget_tag (prev : option ascii) (h after : string) :
  forall_chars isIdChar h = true -> h <> "" ->
  forall_chars (fun c => negb (class_has [One ">"] c)) after = true ->
  exec_at false ImageWidget.imgRegex prev
    ("<img " +:+ lit "src='" +:+ "img-" +:+ h +:+ String DQ (after +:+ ">")) =
    Some (String.length ("<img " +:+ lit "src='" +:+ "img-" +:+ h +:+ String DQ (after +:+ ">")),
          [(1, "img-" +:+ h)]).
Proof.
  intros Hh Hne Hafter. unfold exec_at, ImageWidget.imgRegex.
  set (z := MState (0 + 4 + 1 + 5 + 4 + String.length h + 1 + String.length after + 1)
              (Some ">"%char) "" [(1, "img-" +:+ h)]).
  rewrite rmatch_Seq, rmatch_Str,
    (eat_app "<img" (" " +:+ lit "src='" +:+ "img-" +:+ h +:+ String DQ (after +:+ ">")))
    by reflexivity.
  cbn [ms_pos ms_prev ms_caps]. change (String.length "<img") with 4.
  rewrite rmatch_Seq. unfold Plus at 1. rewrite rmatch_Rep_Cls.
  rewrite (rep_greedy_run _ _ z " ").
  - unfold z. cbn [ms_pos ms_caps]. rewrite !length_app_str. cbn [String.length lit].
    rewrite !length_app_str. cbn [String.length]. do 2 f_equal. lia.
  - reflexivity.
  - reflexivity.
  - cbn [String.length]. lia.
  - cbn [ms_rest String.length]. lia.
  - cbn [ms_pos ms_prev ms_rest ms_caps String.length last_prev].
    rewrite rmatch_Seq, rmatch_Str,
      (eat_app (lit "src='") ("img-" +:+ h +:+ String DQ (after +:+ ">"))) by reflexivity.
    cbn [ms_pos ms_prev ms_caps]. change (String.length (lit "src='")) with 5.
    rewrite rmatch_Seq, rmatch_Group, rmatch_Seq, rmatch_Str,
      (eat_app "img-" (h +:+ String DQ (after +:+ ">"))) by reflexivity.
    cbn [ms_pos ms_prev ms_caps ms_rest]. change (String.length "img-") with 4.
    unfold Plus. rewrite rmatch_Rep_Cls.
    apply rep_greedy_run.
    + exact Hh.
    + reflexivity.
    + destruct h; [contradiction|]. cbn [String.length]. lia.
    + cbn [ms_rest]. rewrite length_app_str. lia.
    + cbn [ms_pos ms_prev ms_rest ms_caps].
      rewrite rmatch_Seq, rmatch_Str, (eat_app (lit "'") (after +:+ ">")) by reflexivity.
      cbn [ms_pos ms_prev ms_caps]. change (String.length (lit "'")) with 1.
      rewrite rmatch_Seq. unfold Star. rewrite rmatch_Rep_NCls.
      apply rep_greedy_run.
      * exact Hafter.
      * reflexivity.
      * lia.
      * cbn [ms_rest]. rewrite length_app_str. lia.
      * rewrite rmatch_Seq, rmatch_Opt_Str. cbn [eat ms_rest Ascii.eqb Bool.eqb].
        rewrite rmatch_Str. cbn [eat ms_rest Ascii.eqb Bool.eqb]. unfold advance, z.
        cbn [ms_pos ms_caps].
        replace (0 + 4 + 1 + 5 + 4 + String.length h - (0 + 4 + 1 + 5))
          with (String.length ("img-" +:+ h)) by (rewrite length_app_str; cbn [String.length]; lia).
        rewrite <- (app_assoc_str "img-" h), take_str_app.
        do 2 f_equal. lia.
Qed.

Lemma exec_loop_skip (s : string) (index : nat) (prev : option ascii) :
  ImageWidget.exec_loop s (String.length s) index prev = [].
Proof.
  revert index prev. induction s as [|c s IH]; intros index prev; [reflexivity|].
  cbn [String.length ImageWidget.exec_loop]. apply IH.
Qed.

(** X25: the editor collapses the tag of an imported image. For every
    blob, size preset and alignment, on a line that is the tag that the
    import dialog inserts for the identifier of the blob, the image widget
    of the editor finds exactly one tag, which spans the whole line and
    carries that identifier: it is replaced by the placeholder unless the
    selection lies within the tag, in which case nothing is replaced. *)
Theorem X25_imported_tag_is_collapsed (blob : Blob) (size : SizePreset)
    (alignment : Alignment) (lineFrom : nat) (selection : ImageWidget.Selection) :
  let id := generateImageId blob in
  let tag := imageTag id size alignment in
  let to := lineFrom + String.length tag in
  ImageWidget.lineDecorations lineFrom tag selection =
    if (lineFrom <=? ImageWidget.sel_from selection)%nat &&
       (ImageWidget.sel_to selection <=? to)%nat
    then []
    else [ImageWidget.mkDecoration lineFrom to id].
Proof.
  cbn zeta. destruct (generateImageId_shape blob) as (h & -> & Hlen & Hh).
  set (after := lit " alt='image' style='" +:+ imageStyle size alignment +:+ lit "' /").
  assert (imageTag ("img-" +:+ h) size alignment =
          "<img " +:+ lit "src='" +:+ "img-" +:+ h +:+ String DQ (after +:+ ">")) as ->
    by (unfold imageTag, after; rewrite !app_assoc_str; reflexivity).
  assert (forall_chars (fun c => negb (class_has [One ">"] c)) after = true) as Hafter
    by (unfold after; destruct size, alignment; reflexivity).
  assert (h <> "") as Hne by (destruct h; discriminate).
  pose proof (exec_widget_tag None h after Hh Hne Hafter) as E.
  unfold ImageWidget.lineDecorations.
  set (tag := "<img " +:+ lit "src='" +:+ "img-" +:+ h +:+ String DQ (after +:+ ">")) in *.
  assert (ImageWidget.exec_loop tag 0 0 None = [(0, String.length tag, [(1, "img-" +:+ h)])])
    as ->.
  { change tag with (String "<" (drop_str 1 tag)) in E |- *.
    cbn [ImageWidget.exec_loop]. rewrite E. cbn [String.length Nat.pred].
    rewrite exec_loop_skip. reflexivity. }
  cbn [flat_map]. change (capture_text 1 [(1, "img-" +:+ h)]) with ("img-" +:+ h).
  rewrite !Nat.add_0_r, List.app_nil_r.
  destruct ((lineFrom <=? ImageWidget.sel_from selection)%nat &&
            (ImageWidget.sel_to selection <=? lineFrom + String.length tag)%nat);
    reflexivity.
Qed.

(** ** The document is cut at the leftmost delimiter *)

Local Opaque delimiter.

(** The slide pattern never matches the empty text and does not look
    behind, so the cut does not depend on the character before nor on
    whether the segment in hand is fresh. *)
Lemma split_slide_prev (rest : string) (skip : nat) (cur : string)
    (fresh fresh' : bool) (prev prev' : option ascii) :
  split_go false re_slide rest skip cur fresh prev =
  split_go false re_slide rest skip cur fresh' prev'.
Proof.
  revert skip cur fresh fresh' prev prev'.
  induction rest as [|c rest IH]; intros; [destruct skip; reflexivity|].
  destruct skip as [|k]; cbn [split_go]; [|apply IH].
  rewrite !exec_at_slide. destruct (startsWith delimiter (String c rest)); reflexivity.
Qed.

Lemma split_slide_after (post cur : string) (fresh : bool) (prev : option ascii) :
  split_go false re_slide (delimiter +:+ post) 0 cur fresh prev =
    cur :: split false re_slide post.
Proof.
  pose proof (startsWith_refl_app delimiter post) as Hs.
  change (delimiter +:+ post)
    with (String LF (String "-" (String "-" (String "-" (String LF post))))) in *.
  cbn [split_go]. rewrite exec_at_slide, Hs. f_equal.
  destruct post as [|c post]; [reflexivity|].
  unfold split. apply split_slide_prev.
Qed.

Lemma split_slide_leftmost (pre post cur : string) (fresh : bool) (prev : option ascii) :
  includes delimiter (pre +:+ take_str 4 delimiter) = false ->
  split_go false re_slide (pre +:+ delimiter +:+ post) 0 cur fresh prev =
    (cur +:+ pre) :: split false re_slide post.
Proof.
  revert cur fresh prev. induction pre as [|c pre IH]; intros cur fresh prev H.
  - rewrite app_nil_l, app_nil_r. apply split_slide_after.
  - change (take_str 4 delimiter)
      with (take_str (String.length delimiter - 1) (delimiter +:+ post)) in H.
    apply includes_prefix_step in H as [H1 H2].
    rewrite app_cons in H1 |- *. cbn [split_go]. rewrite exec_at_slide, H1.
    rewrite IH by exact H2.
    rewrite app_assoc_str, app_cons, app_nil_l. reflexivity.
Qed.

(** The first segment is the text before the leftmost delimiter, and the
    other segments are those of the text after that delimiter. *)
Lemma split_slide_first (pre post : string) :
  includes delimiter (pre +:+ take_str 4 delimiter) = false ->
  split false re_slide (pre +:+ delimiter +:+ post) =
    pre :: split false re_slide post.
Proof.
  intros H.
  assert (exists c s, pre +:+ delimiter +:+ post = String c s) as (c & s & E).
  { destruct pre as [|c pre]; [|exists c; eexists; apply app_cons].
    exists LF. eexists. reflexivity. }
  unfold split at 1. rewrite E, <- E.
  rewrite split_slide_leftmost by exact H. rewrite app_nil_l. reflexivity.
Qed.

(** A text that holds the delimiter has a leftmost occurrence of it. *)
Lemma includes_delimiter_leftmost (s : string) :
  includes delimiter s = true ->
  exists pre post,
    s = pre +:+ delimiter +:+ post /\
    includes delimiter (pre +:+ take_str 4 delimiter) = false.
Proof.
  induction s as [|c s IH]; intros H; [discriminate|].
  destruct (startsWith delimiter (String c s)) eqn:Hs.
  - exists "", (drop_str (String.length delimiter) (String c s)).
    split; [|reflexivity]. rewrite app_nil_l. apply startsWith_drop, Hs.
  - rewrite includes_cons, Hs in H. cbn [orb] in H.
    destruct (IH H) as (pre & post & -> & Hpre).
    exists (String c pre), post. split; [symmetry; apply app_cons|].
    rewrite app_cons, includes_cons, Hpre, orb_false_r.
    rewrite <- app_cons.
    change (take_str 4 delimiter) with (take_str 4 (delimiter +:+ post)).
    rewrite startsWith_take_rest; [rewrite app_cons; exact Hs|].
    change (String.length delimiter) with 5. cbn [String.length]. lia.
Qed.

Local Transparent delimiter.

(** The two equations of the cut determine it. *)
Lemma split_slide_unique (cut : string -> list string) :
  (forall s, includes delimiter s = false -> cut s = [s]) ->
  (forall pre post,
     includes delimiter (pre +:+ take_str 4 delimiter) = false ->
     cut (pre +:+ delimiter +:+ post) = pre :: cut post) ->
  forall s, cut s = split false re_slide s.
Proof.
  intros H0 H1 s.
  remember (String.length s) as n eqn:Hn. revert s Hn.
  induction n as [n IH] using lt_wf_ind. intros s Hn.
  destruct (includes delimiter s) eqn:Hi.
  - destruct (includes_delimiter_leftmost s Hi) as (pre & post & -> & Hpre).
    rewrite H1, split_slide_first by exact Hpre. f_equal.
    apply (IH (String.length post)); [|reflexivity].
    subst n. rewrite !length_app_str. change (String.length delimiter) with 5. lia.
  - rewrite H0 by exact Hi. symmetry. apply split_slide_spec, Hi.
Qed.

(** C2, as the source has it: the document is cut at every occurrence of a
    line feed, three dashes and a line feed, found from left to right
    without overlap, whether or not blank lines surround the rule. Joining
    the segments with that delimiter gives the document back and no segment
    contains it; the first segment is the text before the leftmost
    occurrence and the other segments are those of the text after that
    occurrence, which, with the segment of a text without delimiter being
    the text itself, determines the cut: any function with these two
    properties gives the same segments. Every segment gives one slide,
    rendered from its trimmed text, so there is always at least one slide,
    and exactly one when the delimiter does not occur. *)
Theorem C2_split_at_rule_lines (markdown : string) :
  let segments := split false re_slide markdown in
  join delimiter segments = markdown /\
  Forall (fun seg => includes delimiter seg = false) segments /\
  (forall pre post,
     markdown = pre +:+ delimiter +:+ post ->
     includes delimiter (pre +:+ lit "\n---") = false ->
     segments = pre :: split false re_slide post /\
     slides markdown = slideHtml pre :: slides post) /\
  (forall cut : string -> list string,
     (forall s, includes delimiter s = false -> cut s = [s]) ->
     (forall pre post,
        includes delimiter (pre +:+ lit "\n---") = false ->
        cut (pre +:+ delimiter +:+ post) = pre :: cut post) ->
     cut markdown = segments) /\
  slides markdown =
    map (fun seg => "<section>" +:+ transforms (trim seg) +:+ "</section>") segments /\
  1 <= length (slides markdown) /\
  (includes delimiter markdown = false ->
   slides markdown = [slideHtml markdown]).
Proof.
  destruct (split_slide_spec markdown) as (Hne & Hj & Hc & H1).
  cbn zeta in *.
  split; [exact Hj|]. split; [exact Hc|].
  split; [|split; [|split; [reflexivity|split]]].
  - intros pre post -> Hpre.
    assert (split false re_slide (pre +:+ delimiter +:+ post) =
            pre :: split false re_slide post) as E
      by (apply split_slide_first; exact Hpre).
    split; [exact E|]. unfold slides. rewrite E. reflexivity.
  - intros cut Hnone Hfirst. apply split_slide_unique; assumption.
  - unfold slides. rewrite length_map.
    destruct (split false re_slide markdown); [contradiction|simpl; lia].
  - intros H. unfold slides. rewrite (H1 H). reflexivity.
Qed.

Lemma C2_split_at_rule_lines_witness :
  (includes delimiter "# Only" = false /\ slides "# Only" = [slideHtml "# Only"]) /\
  (lit "\n---\n---\n" = "" +:+ delimiter +:+ lit "---\n" /\
   includes delimiter ("" +:+ lit "\n---") = false /\
   split false re_slide (lit "\n---\n---\n") = [""; lit "---\n"] /\
   slides (lit "\n---\n---\n") = [slideHtml ""; slideHtml (lit "---\n")]).
Proof.
  split.
  - split; [reflexivity|].
    apply (C2_split_at_rule_lines "# Only"). reflexivity.
  - split; [reflexivity|]. split; [reflexivity|].
    exact (proj1 (proj2 (proj2 (C2_split_at_rule_lines (lit "\n---\n---\n"))))
             "" (lit "---\n") eq_refl eq_refl).
Defined.

(** C2 as stated fails: a rule line with text directly above and below it,
    in a document without any blank line, still separates two slides. *)
Lemma C2_splits_without_blank_lines :
  includes (lit "\n\n") (lit "a\n---\nb") = false /\
  split false re_slide (lit "a\n---\nb") = ["a"; "b"] /\
  length (slides (lit "a\n---\nb")) = 2.
Proof. vm_compute. repeat split. Qed.
